(** * UAVCAN/Serial transport of pyuavcan: frame codec and transport engine

    A shallow embedding of [pyuavcan/transport/serial/_frame.py] (the
    [SerialFrame] record, [compile_into], [parse_from_unescaped_image]) and of
    [pyuavcan/transport/serial/_serial.py] (the [SerialTransport] engine: the
    receive routing, the send path, the life cycle), with the properties of
    the frame codec and of the engine proved over it.

    Conventions.
    - A Python [int] is a [Z]; a byte of a [bytes], [bytearray] or
      [memoryview] is a [Byte.byte], so every image is a well-formed byte
      string by its type.
    - A Python call that may raise is a function into [result]: [Ok v] when it
      returns [v], [Raise e] when exception [e] propagates.
    - [Optional[T]] is [option T]; Python's [None] return is [Ok None]. *)

From Stdlib Require Import ZArith List Lia Bool.
From Stdlib Require Import Init.Byte Strings.Byte.
From stdpp Require Import gmap.
Import ListNotations.

Local Open Scope Z_scope.

(* ===================================================================== *)
(** ** Exceptions *)
(* ===================================================================== *)

Inductive exn : Type :=
| ValueError
| TypeError
| IndexError
| StructError            (* struct.error *)
| AssertionError
| KeyError
| ResourceClosedError    (* pyuavcan.transport.ResourceClosedError *)
| InvalidMediaConfigurationError
| SerialException.       (* what the port's write raises, the timeout apart *)

Inductive result (A : Type) : Type :=
| Ok (a : A)
| Raise (e : exn).

Arguments Ok {A} a.
Arguments Raise {A} e.

(** Sequencing: an exception raised by the first call propagates. With
    these instances [x ← r; k] reads "call [r], name its value [x], go on
    with [k]". *)
#[global] Instance result_ret : MRet result := fun A a => Ok a.

#[global] Instance result_bind : MBind result := fun A B k r =>
  match r with
  | Ok a => k a
  | Raise e => Raise e
  end.

(* ===================================================================== *)
(** ** Bytes *)
(* ===================================================================== *)

Definition byte_to_Z (b : byte) : Z := Z.of_N (Byte.to_N b).

(** The byte of an integer already known to lie in 0..255 (taken modulo 256
    otherwise; the code never builds a byte out of range). *)
Definition byte_of_Z (z : Z) : byte :=
  match Byte.of_N (Z.to_N (z mod 256)) with
  | Some b => b
  | None => x00
  end.

Definition byte_eqb (a b : byte) : bool := byte_to_Z a =? byte_to_Z b.

(** [b ^ 0xFF] on a byte. *)
Definition byte_xor (b : byte) (m : Z) : byte := byte_of_Z (Z.lxor (byte_to_Z b) m).

(** [int.to_bytes(n, 'little')] and [struct]'s little-endian unsigned
    fields: the [n] low-order bytes of [z], least significant first. *)
Fixpoint le_bytes (n : nat) (z : Z) : list byte :=
  match n with
  | O => []
  | S n' => byte_of_Z (z mod 256) :: le_bytes n' (z / 256)
  end.

(** [int.from_bytes(l, 'little')]. *)
Fixpoint le_value (l : list byte) : Z :=
  match l with
  | [] => 0
  | b :: l' => byte_to_Z b + 256 * le_value l'
  end.

(** Python's slice [l[a:b]] for [0 <= a <= b]. *)
Definition slice (a b : nat) (l : list byte) : list byte :=
  firstn (b - a) (skipn a l).

(* ===================================================================== *)
(** ** CRC-32C *)
(* ===================================================================== *)

Module CRC32C.

(** Modelled from the spec: the class
    [pyuavcan.transport.commons.crc.CRC32C] is not among the sources. The
    spec names it the Castagnoli CRC-32C, incremental, with a residue check:
    here the reflected polynomial 0x82F63B78, the register started at
    0xFFFFFFFF, one table look-up per byte, the value being the register XOR
    0xFFFFFFFF, emitted least significant byte first. *)
Definition POLY : Z := 0x82F63B78.

(** Modelled from the spec: the register of a fresh instance. *)
Definition INITIAL : Z := 0xFFFFFFFF.

(** Modelled from the spec: what the value is XOR-ed with on output. *)
Definition OUTPUT_XOR : Z := 0xFFFFFFFF.

(** Modelled from the spec: the residue of CRC-32C. The spec has the
    trailing CRC "make the residue zero"; with the output XOR of this CRC
    the register of a block followed by its own CRC is this constant, and
    the residue check is the comparison with it. *)
Definition RESIDUE : Z := 0xB798B438.

(** Modelled from the spec: one bit of the division, least significant bit
    first. *)
Definition bit_step (c : Z) : Z :=
  Z.lxor (Z.shiftr c 1) (if Z.odd c then POLY else 0).

(** Modelled from the spec: the table entry of index [i], eight bit
    steps. *)
Definition table (i : Z) : Z :=
  bit_step (bit_step (bit_step (bit_step
    (bit_step (bit_step (bit_step (bit_step i))))))).

(** Modelled from the spec: one byte taken into the register,
    [val = (val >> 8) ^ TABLE[x ^ (val & 0xFF)]]. *)
Definition add_byte (val : Z) (x : byte) : Z :=
  Z.lxor (Z.shiftr val 8) (table (Z.lxor (byte_to_Z x) (Z.land val 0xFF))).

(** Modelled from the spec: [add], the register after the bytes of
    [data]. *)
Definition add (val : Z) (data : list byte) : Z :=
  fold_left add_byte data val.

(** Modelled from the spec: [CRC32C.new(data)], the register of a fresh
    instance fed [data]. *)
Definition new (data : list byte) : Z := add INITIAL data.

(** Modelled from the spec: [check_residue()]. *)
Definition check_residue (val : Z) : bool := val =? RESIDUE.

(** Modelled from the spec: [value], the CRC of what was fed. *)
Definition value (val : Z) : Z := Z.lxor val OUTPUT_XOR.

(** Modelled from the spec: [value_as_bytes], four bytes, least significant
    first. *)
Definition value_as_bytes (val : Z) : list byte := le_bytes 4 (value val).

(** [add_byte] on the integer of the byte. *)
Definition add_int (val x : Z) : Z :=
  Z.lxor (Z.shiftr val 8) (table (Z.lxor x (Z.land val 0xFF))).

(** What one byte of the appended CRC does to the part [c] of the register
    that does not depend on the block. *)
Definition absorb (c : Z) : Z :=
  Z.lxor (Z.shiftr c 8) (table (Z.lxor (Z.land c 0xFF) 0xFF)).

End CRC32C.

(** The [bytes] object of the given values. *)
Definition ascii_bytes (l : list Z) : list byte := map byte_of_Z l.

(* ===================================================================== *)
(** ** Data model *)
(* ===================================================================== *)

(** Modelled from the spec: the enumeration [pyuavcan.transport.Priority] is
    not among the sources; the spec gives it as a small enumeration with a
    3-bit encoding, range 0..7. Its members are named here by their
    encoding. *)
Inductive Priority : Type :=
| Level0 | Level1 | Level2 | Level3 | Level4 | Level5 | Level6 | Level7.

(** [int(priority)]. *)
Definition Priority_to_int (p : Priority) : Z :=
  match p with
  | Level0 => 0 | Level1 => 1 | Level2 => 2 | Level3 => 3
  | Level4 => 4 | Level5 => 5 | Level6 => 6 | Level7 => 7
  end.

(** [Priority(n)]: the member of value [n]; an enumeration raises
    [ValueError] on a value that is not a member's. *)
Definition Priority_init (n : Z) : result Priority :=
  match n with
  | 0 => Ok Level0 | 1 => Ok Level1 | 2 => Ok Level2 | 3 => Ok Level3
  | 4 => Ok Level4 | 5 => Ok Level5 | 6 => Ok Level6 | 7 => Ok Level7
  | _ => Raise ValueError
  end.

Inductive Role : Type := REQUEST | RESPONSE.

(** [pyuavcan.transport.DataSpecifier] with its two subclasses, by the
    fields that [compile_into] reads and the arguments that
    [parse_from_unescaped_image] constructs them from. *)
Inductive DataSpecifier : Type :=
| MessageDataSpecifier (subject_id : Z)
| ServiceDataSpecifier (service_id : Z) (role : Role).

(** Modelled from the spec: [ServiceDataSpecifier.SERVICE_ID_MASK] is not
    among the sources; the spec gives the service id as 9 bits wide. *)
Definition SERVICE_ID_MASK : Z := 511.

(** Modelled from the spec: [PayloadMetadata.DATA_TYPE_HASH_MASK] is not
    among the sources; the spec gives the hash as 64-bit unsigned,
    0 <= x < 2^64. *)
Definition DATA_TYPE_HASH_MASK : Z := 2 ^ 64 - 1.

(** Modelled from the spec: the class [pyuavcan.transport.Timestamp] is not
    among the sources; the spec gives a timestamp as a monotonic and a wall
    instant. *)
Record Timestamp : Type := mkTimestamp {
  system_ns : Z;
  monotonic_ns : Z
}.

Record SerialFrame : Type := mkSerialFrame {
  timestamp : Timestamp;
  priority : Priority;
  source_node_id : option Z;
  destination_node_id : option Z;
  data_specifier : DataSpecifier;
  data_type_hash : Z;
  transfer_id : Z;
  index : Z;
  end_of_transfer : bool;
  payload : list byte
}.

Definition set_timestamp (ts : Timestamp) (f : SerialFrame) : SerialFrame :=
  mkSerialFrame ts (priority f) (source_node_id f) (destination_node_id f)
    (data_specifier f) (data_type_hash f) (transfer_id f) (index f)
    (end_of_transfer f) (payload f).

Definition NODE_ID_MASK : Z := 4095.
Definition TRANSFER_ID_MASK : Z := 2 ^ 64 - 1.
Definition INDEX_MASK : Z := 2 ^ 31 - 1.

Definition FRAME_DELIMITER_BYTE : byte := byte_of_Z 0x9E.
Definition ESCAPE_PREFIX_BYTE : byte := byte_of_Z 0x8E.

Definition _VERSION : Z := 0.
Definition _ANONYMOUS_NODE_ID : Z := 0xFFFF.
Definition _CRC_SIZE_BYTES : nat := 4.
Definition _HEADER_SIZE : nat := 28 + _CRC_SIZE_BYTES.
Definition NUM_OVERHEAD_BYTES_EXCEPT_DELIMITERS_AND_ESCAPING : nat :=
  _HEADER_SIZE + _CRC_SIZE_BYTES.

(** [0 <= x <= mask]. *)
Definition within (x mask : Z) : bool := (0 <=? x) && (x <=? mask).

Definition is_service (ds : DataSpecifier) : bool :=
  match ds with
  | ServiceDataSpecifier _ _ => true
  | MessageDataSpecifier _ => false
  end.

Definition is_None {A : Type} (o : option A) : bool :=
  match o with
  | None => true
  | Some _ => false
  end.

(** [if c: raise e]. *)
Definition raise_if (c : bool) (e : exn) : result unit :=
  if c then Raise e else Ok tt.

(** [SerialFrame.__post_init__]. The three [isinstance] tests (priority,
    data specifier, payload) hold by the types of the fields. *)
Definition __post_init__ (f : SerialFrame) : result unit :=
  _ ← raise_if (match source_node_id f with
                | Some n => negb (within n NODE_ID_MASK)
                | None => false
                end) ValueError;
  _ ← raise_if (match destination_node_id f with
                | Some n => negb (within n NODE_ID_MASK)
                | None => false
                end) ValueError;
  _ ← raise_if (is_service (data_specifier f) && is_None (source_node_id f))
        ValueError;
  _ ← raise_if (negb (within (data_type_hash f) DATA_TYPE_HASH_MASK)) ValueError;
  _ ← raise_if (negb (within (transfer_id f) TRANSFER_ID_MASK)) ValueError;
  _ ← raise_if (negb (within (index f) INDEX_MASK)) ValueError;
  Ok tt.

(** [SerialFrame(...)]: the dataclass constructor, which stores the fields
    and runs [__post_init__]. *)
Definition SerialFrame_init (f : SerialFrame) : result SerialFrame :=
  _ ← __post_init__ f; Ok f.

(* ===================================================================== *)
(** ** The header layout *)
(* ===================================================================== *)

(** One unsigned field of [struct.pack]: [struct.error] when the value does
    not fit the field. *)
Definition pack_uint (size : nat) (v : Z) : result (list byte) :=
  if (0 <=? v) && (v <? 256 ^ Z.of_nat size)
  then Ok (le_bytes size v)
  else Raise StructError.

(** [_HEADER_WITHOUT_CRC_FORMAT.pack], the format being ['<BBHHHQQL']. *)
Definition _HEADER_WITHOUT_CRC_FORMAT_pack
    (version prio src_nid dst_nid data_spec dt_hash tid index_eot : Z)
    : result (list byte) :=
  b0 ← pack_uint 1 version;
  b1 ← pack_uint 1 prio;
  b2 ← pack_uint 2 src_nid;
  b3 ← pack_uint 2 dst_nid;
  b4 ← pack_uint 2 data_spec;
  b5 ← pack_uint 8 dt_hash;
  b6 ← pack_uint 8 tid;
  b7 ← pack_uint 4 index_eot;
  Ok (b0 ++ b1 ++ b2 ++ b3 ++ b4 ++ b5 ++ b6 ++ b7).

(** [_HEADER_WITHOUT_CRC_FORMAT.unpack_from(buffer)]: [struct.error] when the
    buffer holds fewer than the 28 bytes of the format. *)
Definition _HEADER_WITHOUT_CRC_FORMAT_unpack_from (buf : list byte)
    : result (Z * Z * Z * Z * Z * Z * Z * Z) :=
  if (length buf <? 28)%nat then Raise StructError
  else Ok (le_value (slice 0 1 buf), le_value (slice 1 2 buf),
           le_value (slice 2 4 buf), le_value (slice 4 6 buf),
           le_value (slice 6 8 buf), le_value (slice 8 16 buf),
           le_value (slice 16 24 buf), le_value (slice 24 28 buf)).

(* ===================================================================== *)
(** ** The frame codec *)
(* ===================================================================== *)

(** [out_buffer[i] = v] on a [bytearray]: [IndexError] past the end. *)
Definition setitem (buf : list byte) (i : nat) (v : byte) : result (list byte) :=
  if (i <? length buf)%nat then Ok (<[i := v]> buf) else Raise IndexError.

(** [nb in escapees]. *)
Definition is_escapee (nb : byte) : bool :=
  byte_eqb nb FRAME_DELIMITER_BYTE || byte_eqb nb ESCAPE_PREFIX_BYTE.

(** The body of the loop of [compile_into], on the buffer and
    [next_byte_index]. *)
Definition emit (st : list byte * nat) (nb : byte) : result (list byte * nat) :=
  let '(out_buffer, next_byte_index) := st in
  if is_escapee nb then
    out_buffer ← setitem out_buffer next_byte_index ESCAPE_PREFIX_BYTE;
    let next_byte_index := S next_byte_index in
    let nb := byte_xor nb 0xFF in
    out_buffer ← setitem out_buffer next_byte_index nb;
    Ok (out_buffer, S next_byte_index)
  else
    out_buffer ← setitem out_buffer next_byte_index nb;
    Ok (out_buffer, S next_byte_index).

(** The loop over [itertools.chain(header, self.payload, payload_crc_bytes)]. *)
Fixpoint emit_all (st : list byte * nat) (bytes : list byte)
    : result (list byte * nat) :=
  match bytes with
  | [] => Ok st
  | nb :: rest => st' ← emit st nb; emit_all st' rest
  end.

(** The 16-bit word of the data specifier, as [compile_into] computes it. *)
Definition data_spec_word (ds : DataSpecifier) : Z :=
  match ds with
  | MessageDataSpecifier subject_id => subject_id
  | ServiceDataSpecifier service_id role =>
      Z.lor (Z.lor (Z.shiftl 1 15)
                   (match role with RESPONSE => Z.shiftl 1 14 | REQUEST => 0 end))
            service_id
  end.

(** The header with its CRC, as [compile_into] builds it. *)
Definition compile_header (f : SerialFrame) : result (list byte) :=
  let src_nid := match source_node_id f with
                 | None => _ANONYMOUS_NODE_ID | Some n => n end in
  let dst_nid := match destination_node_id f with
                 | None => _ANONYMOUS_NODE_ID | Some n => n end in
  let data_spec := data_spec_word (data_specifier f) in
  let index_eot :=
    Z.lor (index f) (if end_of_transfer f then Z.shiftl 1 31 else 0) in
  header ← _HEADER_WITHOUT_CRC_FORMAT_pack _VERSION (Priority_to_int (priority f))
             src_nid dst_nid data_spec (data_type_hash f) (transfer_id f)
             index_eot;
  let header := header ++ CRC32C.value_as_bytes (CRC32C.new header) in
  _ ← raise_if (negb (length header =? _HEADER_SIZE)%nat) AssertionError;
  Ok header.

(** [SerialFrame.compile_into]: the buffer as the call leaves it, and the
    returned view [memoryview(out_buffer)[:next_byte_index]]. The payload is
    taken not to be a view of [out_buffer] itself. *)
Definition compile_into (f : SerialFrame) (out_buffer : list byte)
    : result (list byte * list byte) :=
  header ← compile_header f;
  let payload_crc_bytes := CRC32C.value_as_bytes (CRC32C.new (payload f)) in
  out_buffer ← setitem out_buffer 0 FRAME_DELIMITER_BYTE;
  '(out_buffer, next_byte_index) ←
     emit_all (out_buffer, 1%nat) (header ++ payload f ++ payload_crc_bytes);
  out_buffer ← setitem out_buffer next_byte_index FRAME_DELIMITER_BYTE;
  let next_byte_index := S next_byte_index in
  _ ← raise_if (negb (length header + length (payload f)
                       + length payload_crc_bytes <=? next_byte_index - 2)%nat)
        AssertionError;
  Ok (out_buffer, firstn next_byte_index out_buffer).

(** [try: r except ValueError: h]. *)
Definition except_ValueError {A : Type} (r : result A) (h : result A) : result A :=
  match r with
  | Raise ValueError => h
  | _ => r
  end.

Section Codec.

(** [MessageDataSpecifier.SUBJECT_ID_MASK]: the class is not among the
    sources, so the largest subject id is a parameter of the model. The
    frame tests of the sources build subject 12345, and [compile_into]
    keeps bit 15 of the 16-bit word for services. *)
Variable SUBJECT_ID_MASK : Z.

(** Modelled from the spec: the constructors of the two data specifier
    classes are not among the sources. Each raises [ValueError] on an id
    outside its mask: the service id has 9 bits by the spec; the bound of
    the subject id is the parameter above. *)
Definition check_data_specifier (ds : DataSpecifier) : result unit :=
  match ds with
  | MessageDataSpecifier subject_id =>
      raise_if (negb (within subject_id SUBJECT_ID_MASK)) ValueError
  | ServiceDataSpecifier service_id _ =>
      raise_if (negb (within service_id SERVICE_ID_MASK)) ValueError
  end.

(** [MessageDataSpecifier(subject_id)]. *)
Definition MessageDataSpecifier_init (subject_id : Z) : result DataSpecifier :=
  _ ← check_data_specifier (MessageDataSpecifier subject_id);
  Ok (MessageDataSpecifier subject_id).

(** [ServiceDataSpecifier(service_id, role)]. *)
Definition ServiceDataSpecifier_init (service_id : Z) (role : Role)
    : result DataSpecifier :=
  _ ← check_data_specifier (ServiceDataSpecifier service_id role);
  Ok (ServiceDataSpecifier service_id role).

(** [SerialFrame.parse_from_unescaped_image]. *)
Definition parse_from_unescaped_image
    (header_payload_crc_image : list byte) (ts : Timestamp)
    : result (option SerialFrame) :=
  if (length header_payload_crc_image
        <? NUM_OVERHEAD_BYTES_EXCEPT_DELIMITERS_AND_ESCAPING)%nat
  then Ok None
  else
    let header := firstn _HEADER_SIZE header_payload_crc_image in
    if negb (CRC32C.check_residue (CRC32C.new header)) then Ok None
    else
      let payload_with_crc := skipn _HEADER_SIZE header_payload_crc_image in
      if negb (CRC32C.check_residue (CRC32C.new payload_with_crc)) then Ok None
      else
        let payload :=
          firstn (length payload_with_crc - _CRC_SIZE_BYTES) payload_with_crc in
        '(version, int_priority, src_nid, dst_nid, int_data_spec, dt_hash,
          tid, index_eot) ← _HEADER_WITHOUT_CRC_FORMAT_unpack_from header;
        if negb (version =? _VERSION) then Ok None
        else
          let src_nid :=
            if src_nid =? _ANONYMOUS_NODE_ID then None else Some src_nid in
          let dst_nid :=
            if dst_nid =? _ANONYMOUS_NODE_ID then None else Some dst_nid in
          data_specifier ←
            (if Z.land int_data_spec (Z.shiftl 1 15) =? 0
             then MessageDataSpecifier_init int_data_spec
             else
               let role := if negb (Z.land int_data_spec (Z.shiftl 1 14) =? 0)
                           then RESPONSE else REQUEST in
               let service_id := Z.land int_data_spec SERVICE_ID_MASK in
               ServiceDataSpecifier_init service_id role);
          except_ValueError
            (prio ← Priority_init int_priority;
             f ← SerialFrame_init
                   (mkSerialFrame ts prio src_nid dst_nid data_specifier
                      dt_hash tid
                      (Z.land index_eot INDEX_MASK)
                      (negb (Z.land index_eot (Z.shiftl 1 31) =? 0))
                      payload);
             Ok (Some f))
            (Ok None).

(** A valid frame: an instance that its constructor accepted, holding a
    data specifier that its own constructor accepted. *)
Definition valid_frame (f : SerialFrame) : Prop :=
  check_data_specifier (data_specifier f) = Ok tt /\ __post_init__ f = Ok tt.

End Codec.

(* ===================================================================== *)
(** ** Framing, as the receiving side undoes it *)
(* ===================================================================== *)

(** Modelled from the spec: the stream parser ([_stream_parser.py]) is not
    among the sources. Inside a frame, the spec has it read one more byte
    [b] after the escape prefix 0x8E and append [b XOR 0xFF], and append any
    other byte as it is; an escape prefix with no byte after it yields
    nothing. *)
Fixpoint unescape (l : list byte) : list byte :=
  match l with
  | [] => []
  | b :: rest =>
      if byte_eqb b ESCAPE_PREFIX_BYTE then
        match rest with
        | [] => []
        | c :: rest' => byte_xor c 0xFF :: unescape rest'
        end
      else b :: unescape rest
  end.

(** The bytes strictly between the first and the last byte of a compiled
    frame. *)
Definition strip_framing (compiled : list byte) : list byte :=
  removelast (tl compiled).

(** The wire format in the spec's words: every byte 0x9E or 0x8E becomes the
    pair 0x8E, [b XOR 0xFF]; no other byte is escaped. *)
Definition escape_byte (b : byte) : list byte :=
  if is_escapee b then [ESCAPE_PREFIX_BYTE; byte_xor b 0xFF] else [b].

Definition escape (l : list byte) : list byte := flat_map escape_byte l.

(** The 28 bytes of the header before its CRC, in the spec's words: the
    table of offsets of its section on frame encoding, fields little-endian,
    an absent node id as 0xFFFF, the index OR-ed with the end-of-transfer
    flag in bit 31. *)
Definition header_fields (f : SerialFrame) : list byte :=
  le_bytes 1 _VERSION ++ le_bytes 1 (Priority_to_int (priority f))
  ++ le_bytes 2 (match source_node_id f with Some n => n | None => 0xFFFF end)
  ++ le_bytes 2 (match destination_node_id f with Some n => n | None => 0xFFFF end)
  ++ le_bytes 2 (data_spec_word (data_specifier f))
  ++ le_bytes 8 (data_type_hash f) ++ le_bytes 8 (transfer_id f)
  ++ le_bytes 4 (Z.lor (index f) (if end_of_transfer f then 2 ^ 31 else 0)).

(** header || payload || payload CRC: the header fields, their CRC-32C, the
    payload, the CRC-32C of the payload. *)
Definition unescaped_image (f : SerialFrame) : list byte :=
  header_fields f ++ CRC32C.value_as_bytes (CRC32C.new (header_fields f))
  ++ payload f ++ CRC32C.value_as_bytes (CRC32C.new (payload f)).

(** The size of the compiled frame: the two delimiters and the escaped
    image. *)
Definition compiled_size (f : SerialFrame) : nat :=
  2 + length (escape (unescaped_image f)).

(** The pessimistic bound of the spec: 2 + 2 (header + payload + CRC). *)
Definition worst_case_size (payload_length : nat) : nat :=
  2 + 2 * (_HEADER_SIZE + payload_length + _CRC_SIZE_BYTES).

(* ===================================================================== *)
(** ** The transport engine *)
(* ===================================================================== *)

#[global] Instance Role_eq_dec : EqDecision Role.
Proof. solve_decision. Defined.

#[global] Instance DataSpecifier_eq_dec : EqDecision DataSpecifier.
Proof. solve_decision. Defined.

#[global] Instance DataSpecifier_countable : Countable DataSpecifier.
Proof.
  refine (inj_countable'
            (fun ds => match ds with
                       | MessageDataSpecifier s => inl s
                       | ServiceDataSpecifier s REQUEST => inr (s, false)
                       | ServiceDataSpecifier s RESPONSE => inr (s, true)
                       end)
            (fun x => match x with
                      | inl s => MessageDataSpecifier s
                      | inr (s, false) => ServiceDataSpecifier s REQUEST
                      | inr (s, true) => ServiceDataSpecifier s RESPONSE
                      end) _).
  intros [s | s []]; reflexivity.
Defined.

(** [pyuavcan.transport.InputSessionSpecifier] and
    [OutputSessionSpecifier]: the data specifier and the remote node id,
    absent for the promiscuous input and for the broadcast output. *)
Abbreviation SessionSpecifier := (DataSpecifier * option Z)%type.

(** Modelled from the spec: the session classes ([_session.py]) are not
    among the sources. The engine uses an input session through
    [_process_frame(frame)] and [close()], an output session through
    [close()]; closing a session runs the finaliser the engine gave it. An
    input session is kept here as its specifier and the frames it was
    handed, oldest first. *)
Record SerialInputSession : Type := mkSerialInputSession {
  in_specifier : SessionSpecifier;
  processed_frames : list SerialFrame
}.

(** Modelled from the spec: an output session, kept as its specifier and
    the number of times its send handler runs [_send_transfer] per
    transfer. *)
Record SerialOutputSession : Type := mkSerialOutputSession {
  out_specifier : SessionSpecifier;
  send_passes : Z
}.

(** Modelled from the spec: [session._process_frame(frame)], the frame
    joining those the session was handed. *)
Definition _process_frame (session : SerialInputSession) (frame : SerialFrame)
    : SerialInputSession :=
  mkSerialInputSession (in_specifier session) (processed_frames session ++ [frame]).

Record SerialTransportStatistics : Type := mkStatistics {
  in_bytes : Z;
  in_frames : Z;
  in_out_of_band_bytes : Z;
  out_bytes : Z;
  out_frames : Z;
  out_transfers : Z;
  out_incomplete : Z
}.

Record SerialTransport : Type := mkSerialTransport {
  _service_transfer_multiplier : Z;
  _mtu : Z;
  _local_node_id : option Z;
  _closed : bool;
  _serialization_buffer : list byte;
  _input_registry : gmap SessionSpecifier SerialInputSession;
  _output_registry : gmap SessionSpecifier SerialOutputSession;
  _statistics : SerialTransportStatistics;
  port_is_open : bool                 (* self._serial_port.is_open *)
}.

Definition set_closed (v : bool) (t : SerialTransport) : SerialTransport :=
  mkSerialTransport (_service_transfer_multiplier t) (_mtu t) (_local_node_id t)
    v (_serialization_buffer t) (_input_registry t) (_output_registry t)
    (_statistics t) (port_is_open t).

Definition set_serialization_buffer (v : list byte) (t : SerialTransport)
    : SerialTransport :=
  mkSerialTransport (_service_transfer_multiplier t) (_mtu t) (_local_node_id t)
    (_closed t) v (_input_registry t) (_output_registry t)
    (_statistics t) (port_is_open t).

Definition set_input_registry (v : gmap SessionSpecifier SerialInputSession)
    (t : SerialTransport) : SerialTransport :=
  mkSerialTransport (_service_transfer_multiplier t) (_mtu t) (_local_node_id t)
    (_closed t) (_serialization_buffer t) v (_output_registry t)
    (_statistics t) (port_is_open t).

Definition set_output_registry (v : gmap SessionSpecifier SerialOutputSession)
    (t : SerialTransport) : SerialTransport :=
  mkSerialTransport (_service_transfer_multiplier t) (_mtu t) (_local_node_id t)
    (_closed t) (_serialization_buffer t) (_input_registry t) v
    (_statistics t) (port_is_open t).

Definition set_statistics (v : SerialTransportStatistics) (t : SerialTransport)
    : SerialTransport :=
  mkSerialTransport (_service_transfer_multiplier t) (_mtu t) (_local_node_id t)
    (_closed t) (_serialization_buffer t) (_input_registry t)
    (_output_registry t) v (port_is_open t).

Definition set_port_is_open (v : bool) (t : SerialTransport) : SerialTransport :=
  mkSerialTransport (_service_transfer_multiplier t) (_mtu t) (_local_node_id t)
    (_closed t) (_serialization_buffer t) (_input_registry t)
    (_output_registry t) (_statistics t) v.

Definition add_in_frames (n : Z) (s : SerialTransportStatistics) :=
  mkStatistics (in_bytes s) (in_frames s + n) (in_out_of_band_bytes s)
    (out_bytes s) (out_frames s) (out_transfers s) (out_incomplete s).

Definition set_in_bytes (n : Z) (s : SerialTransportStatistics) :=
  mkStatistics n (in_frames s) (in_out_of_band_bytes s)
    (out_bytes s) (out_frames s) (out_transfers s) (out_incomplete s).

Definition add_in_out_of_band_bytes (n : Z) (s : SerialTransportStatistics) :=
  mkStatistics (in_bytes s) (in_frames s) (in_out_of_band_bytes s + n)
    (out_bytes s) (out_frames s) (out_transfers s) (out_incomplete s).

Definition add_out_bytes (n : Z) (s : SerialTransportStatistics) :=
  mkStatistics (in_bytes s) (in_frames s) (in_out_of_band_bytes s)
    (out_bytes s + n) (out_frames s) (out_transfers s) (out_incomplete s).

Definition add_out_frames (n : Z) (s : SerialTransportStatistics) :=
  mkStatistics (in_bytes s) (in_frames s) (in_out_of_band_bytes s)
    (out_bytes s) (out_frames s + n) (out_transfers s) (out_incomplete s).

Definition add_out_transfers (n : Z) (s : SerialTransportStatistics) :=
  mkStatistics (in_bytes s) (in_frames s) (in_out_of_band_bytes s)
    (out_bytes s) (out_frames s) (out_transfers s + n) (out_incomplete s).

Definition add_out_incomplete (n : Z) (s : SerialTransportStatistics) :=
  mkStatistics (in_bytes s) (in_frames s) (in_out_of_band_bytes s)
    (out_bytes s) (out_frames s) (out_transfers s) (out_incomplete s + n).

Definition update_statistics
    (u : SerialTransportStatistics -> SerialTransportStatistics)
    (t : SerialTransport) : SerialTransport :=
  set_statistics (u (_statistics t)) t.

Definition VALID_MTU_RANGE : Z * Z := (1024, 1024 ^ 3).
Definition DEFAULT_SERVICE_TRANSFER_MULTIPLIER : Z := 2.
Definition VALID_SERVICE_TRANSFER_MULTIPLIER_RANGE : Z * Z := (1, 5).
Definition INITIAL_BUFFER_SIZE : nat := 1024.

(** [SerialTransport.__init__], given whether the port handed in is open;
    the reader thread it starts is the source of the receive events
    below. *)
Definition SerialTransport_init (serial_port_is_open : bool)
    (local_node_id : option Z) (mtu service_transfer_multiplier : Z)
    : result SerialTransport :=
  _ ← raise_if (negb ((fst VALID_SERVICE_TRANSFER_MULTIPLIER_RANGE
                         <=? service_transfer_multiplier)
                      && (service_transfer_multiplier
                            <=? snd VALID_SERVICE_TRANSFER_MULTIPLIER_RANGE)))
        ValueError;
  _ ← raise_if (negb ((fst VALID_MTU_RANGE <=? mtu)
                      && (mtu <=? snd VALID_MTU_RANGE))) ValueError;
  _ ← raise_if (match local_node_id with
                | Some n => negb ((0 <=? n) && (n <? NODE_ID_MASK + 1))
                | None => false
                end) ValueError;
  _ ← raise_if (negb serial_port_is_open) InvalidMediaConfigurationError;
  Ok (mkSerialTransport service_transfer_multiplier mtu local_node_id false
        (repeat x00 INITIAL_BUFFER_SIZE) ∅ ∅
        (mkStatistics 0 0 0 0 0 0 0) true).

(** [_ensure_not_closed]. *)
Definition _ensure_not_closed (t : SerialTransport) : result unit :=
  raise_if (_closed t) ResourceClosedError.

(** The finaliser handed to an input session: [del
    self._input_registry[specifier]]. *)
Definition input_finalizer (specifier : SessionSpecifier) (t : SerialTransport)
    : result SerialTransport :=
  match _input_registry t !! specifier with
  | Some _ => Ok (set_input_registry (delete specifier (_input_registry t)) t)
  | None => Raise KeyError
  end.

(** The finaliser handed to an output session. *)
Definition output_finalizer (specifier : SessionSpecifier) (t : SerialTransport)
    : result SerialTransport :=
  match _output_registry t !! specifier with
  | Some _ => Ok (set_output_registry (delete specifier (_output_registry t)) t)
  | None => Raise KeyError
  end.

(** [try: s.close() except Exception: log] on one session of the list
    [close] walks: the session runs its finaliser, and whatever it raises is
    logged and dropped. *)
Definition close_session (fin : SessionSpecifier -> SerialTransport -> result SerialTransport)
    (t : SerialTransport) (specifier : SessionSpecifier) : SerialTransport :=
  match fin specifier t with
  | Ok t' => t'
  | Raise _ => t
  end.

(** [SerialTransport.close]. *)
Definition close (t : SerialTransport) : result SerialTransport :=
  let t := set_closed true t in
  let inputs := map fst (map_to_list (_input_registry t)) in
  let outputs := map fst (map_to_list (_output_registry t)) in
  let t := fold_left (close_session input_finalizer) inputs t in
  let t := fold_left (close_session output_finalizer) outputs t in
  let t := if port_is_open t then set_port_is_open false t else t in
  Ok t.

(** [get_input_session]: the engine after the call and the session
    returned. *)
Definition get_input_session (t : SerialTransport) (specifier : SessionSpecifier)
    : result (SerialTransport * SerialInputSession) :=
  _ ← _ensure_not_closed t;
  match _input_registry t !! specifier with
  | Some out => Ok (t, out)
  | None =>
      let out := mkSerialInputSession specifier [] in
      Ok (set_input_registry (<[specifier := out]> (_input_registry t)) t, out)
  end.

(** [get_output_session]. *)
Definition get_output_session (t : SerialTransport) (specifier : SessionSpecifier)
    : result (SerialTransport * SerialOutputSession) :=
  _ ← _ensure_not_closed t;
  match _output_registry t !! specifier with
  | Some out => Ok (t, out)
  | None =>
      let passes :=
        if is_service (fst specifier) && (1 <? _service_transfer_multiplier t)
        then _service_transfer_multiplier t else 1 in
      let out := mkSerialOutputSession specifier passes in
      Ok (set_output_registry (<[specifier := out]> (_output_registry t)) t, out)
  end.

(** [sample_statistics]: a copy of the counters. *)
Definition sample_statistics (t : SerialTransport)
    : result SerialTransportStatistics :=
  Ok (_statistics t).

(** The [local_node_id] property. *)
Definition local_node_id (t : SerialTransport) : result (option Z) :=
  Ok (_local_node_id t).

(** The order in which [for source_node_id in {None, frame.source_node_id}]
    visits the set: one element when the source is absent, else the two in
    an order Python leaves open, here [none_first]. *)
Definition source_node_ids (none_first : bool) (source : option Z)
    : list (option Z) :=
  match source with
  | None => [None]
  | Some n => if none_first then [None; Some n] else [Some n; None]
  end.

(** One turn of the loop of [_handle_received_frame]. *)
Definition route_to (frame : SerialFrame)
    (registry : gmap SessionSpecifier SerialInputSession)
    (source_node_id : option Z) : gmap SessionSpecifier SerialInputSession :=
  let ss := (data_specifier frame, source_node_id) in
  match registry !! ss with
  | None => registry
  | Some session => <[ss := _process_frame session frame]> registry
  end.

(** [frame.destination_node_id in (self._local_node_id, None)]. *)
Definition accepts (t : SerialTransport) (frame : SerialFrame) : bool :=
  bool_decide (destination_node_id frame = _local_node_id t)
  || bool_decide (destination_node_id frame = None).

(** [_handle_received_frame]. *)
Definition _handle_received_frame (none_first : bool) (t : SerialTransport)
    (frame : SerialFrame) : SerialTransport :=
  let t := update_statistics (add_in_frames 1) t in
  if accepts t frame then
    set_input_registry
      (fold_left (route_to frame)
         (source_node_ids none_first (source_node_id frame))
         (_input_registry t)) t
  else t.

(** [_handle_received_out_of_band_data], the log line left out. *)
Definition _handle_received_out_of_band_data (t : SerialTransport)
    (data : list byte) : SerialTransport :=
  update_statistics (add_in_out_of_band_bytes (Z.of_nat (length data))) t.

(** What the stream parser hands over: a frame or out-of-band bytes. *)
Inductive received_item : Type :=
| ItemFrame (frame : SerialFrame)
| ItemOutOfBand (data : list byte).

(** [_handle_received_item_and_update_stats]: the engine after the call,
    and nothing or the exception raised. *)
Definition _handle_received_item_and_update_stats (none_first : bool)
    (t : SerialTransport) (item : received_item) (in_bytes_count : Z)
    : SerialTransport * result unit :=
  let t := match item with
           | ItemFrame frame => _handle_received_frame none_first t frame
           | ItemOutOfBand data => _handle_received_out_of_band_data t data
           end in
  if in_bytes (_statistics t) <=? in_bytes_count
  then (update_statistics (set_in_bytes in_bytes_count) t, Ok tt)
  else (t, Raise AssertionError).

(** The [except] branch of [_reader_thread_func]: the reader failed. *)
Definition reader_failure (t : SerialTransport) : SerialTransport :=
  set_port_is_open false (set_closed true t).

(* ===================================================================== *)
(** ** The send path *)
(* ===================================================================== *)

(** What the port's [write] does with one compiled frame. *)
Inductive WriteOutcome : Type :=
| Written (num_written : option Z) (now : Timestamp)
    (* it returned [num_written]; [Timestamp.now()] read [now] after it *)
| WriteTimedOut                     (* serial.SerialTimeoutException *)
| WriteFailed.                      (* any other exception *)

(** What the surroundings do while one frame is sent: whether
    [monotonic_deadline - self._loop.time()] is positive, whether the engine
    is marked closed while the write is awaited (the reader failing), and
    the outcome of the write. *)
Record FrameIO : Type := mkFrameIO {
  budget_left : bool;
  closed_meanwhile : bool;
  write_outcome : WriteOutcome
}.

Inductive flow : Type := Continue | Break.

(** The growth rule of the serialization buffer. *)
Definition enlarge_buffer (payload_length : nat) (buffer : list byte) : list byte :=
  let min_buffer_size := (payload_length * 3)%nat in
  if (length buffer <? min_buffer_size)%nat
  then repeat x00 min_buffer_size
  else buffer.

(** The tail of the loop body: [num_written] made definite and compared
    with the length of the compiled frame. *)
Definition account_frame (t : SerialTransport) (tx_ts : option Timestamp)
    (num_written : option Z) (compiled : list byte)
    : SerialTransport * result (flow * option Timestamp) :=
  let num_written := match num_written with
                     | None => Z.of_nat (length compiled)
                     | Some n => n
                     end in
  if num_written <? Z.of_nat (length compiled)
  then (t, Ok (Break, None))
  else (update_statistics (add_out_frames 1) t, Ok (Continue, tx_ts)).

(** [num_written or 0]. *)
Definition or_zero (num_written : option Z) : Z :=
  match num_written with
  | Some n => n
  | None => 0
  end.

(** [tx_ts or Timestamp.now()]; a timestamp object is never false. *)
Definition or_now (tx_ts : option Timestamp) (now : Timestamp) : option Timestamp :=
  match tx_ts with
  | Some ts => Some ts
  | None => Some now
  end.

(** The body of the loop of [_send_transfer] for one frame. The contents of
    the buffer after a failed [compile_into] are left as they were. *)
Definition send_frame (t : SerialTransport) (tx_ts : option Timestamp)
    (fr : SerialFrame) (io : FrameIO)
    : SerialTransport * result (flow * option Timestamp) :=
  let t := set_serialization_buffer
             (enlarge_buffer (length (payload fr)) (_serialization_buffer t)) t in
  match compile_into fr (_serialization_buffer t) with
  | Raise e => (t, Raise e)
  | Ok (buffer, compiled) =>
      let t := set_serialization_buffer buffer t in
      if budget_left io then
        let t := if closed_meanwhile io then reader_failure t else t in
        match write_outcome io with
        | WriteFailed => (t, Raise SerialException)
        | Written num_written now =>
            let tx_ts := or_now tx_ts now in
            let t := update_statistics (add_out_bytes (or_zero num_written)) t in
            account_frame t tx_ts num_written compiled
        | WriteTimedOut =>
            let num_written := Some 0 in
            let t := update_statistics (add_out_bytes (or_zero num_written)) t in
            account_frame t tx_ts num_written compiled
        end
      else (t, Ok (Break, None))
  end.

(** The loop [for fr in frames], each frame paired with what the
    surroundings do while it is sent. *)
Fixpoint send_loop (t : SerialTransport) (tx_ts : option Timestamp)
    (frames : list (SerialFrame * FrameIO))
    : SerialTransport * result (option Timestamp) :=
  match frames with
  | [] => (t, Ok tx_ts)
  | (fr, io) :: rest =>
      match send_frame t tx_ts fr io with
      | (t', Ok (Continue, tx_ts')) => send_loop t' tx_ts' rest
      | (t', Ok (Break, tx_ts')) => (t', Ok tx_ts')
      | (t', Raise e) => (t', Raise e)
      end
  end.

(** [_send_transfer]: the engine after the call, and the timestamp returned
    or the exception raised. *)
Definition _send_transfer (t : SerialTransport)
    (frames : list (SerialFrame * FrameIO))
    : SerialTransport * result (option Timestamp) :=
  match _ensure_not_closed t with
  | Raise e => (t, Raise e)
  | Ok _ =>
      match send_loop t None frames with
      | (t', Raise e) =>
          (t', if _closed t' then Raise ResourceClosedError else Raise e)
      | (t', Ok (Some ts)) =>
          (update_statistics (add_out_transfers 1) t', Ok (Some ts))
      | (t', Ok None) =>
          (update_statistics (add_out_incomplete 1) t', Ok None)
      end
  end.

(** The operations of the engine and the events of its surroundings. *)
Inductive operation : Type :=
| OpClose
| OpGetInputSession (specifier : SessionSpecifier)
| OpGetOutputSession (specifier : SessionSpecifier)
| OpSampleStatistics
| OpLocalNodeId
| OpSendTransfer (frames : list (SerialFrame * FrameIO))
| OpCloseInputSession (specifier : SessionSpecifier)
| OpCloseOutputSession (specifier : SessionSpecifier)
| OpReceive (none_first : bool) (item : received_item) (in_bytes_count : Z)
| OpReaderFailure.

(** What an operation answers: nothing, a value of no concern here, or an
    exception. *)
Definition outcome {A : Type} (r : result A) : result unit :=
  match r with
  | Ok _ => Ok tt
  | Raise e => Raise e
  end.

(** The engine after an operation of those that raise before they change
    anything. *)
Definition after {A : Type} (t : SerialTransport)
    (r : result A) (state : A -> SerialTransport) : SerialTransport :=
  match r with
  | Ok a => state a
  | Raise _ => t
  end.

Definition run (t : SerialTransport) (op : operation)
    : SerialTransport * result unit :=
  match op with
  | OpClose => (after t (close t) id, outcome (close t))
  | OpGetInputSession specifier =>
      let r := get_input_session t specifier in (after t r fst, outcome r)
  | OpGetOutputSession specifier =>
      let r := get_output_session t specifier in (after t r fst, outcome r)
  | OpSampleStatistics => (t, outcome (sample_statistics t))
  | OpLocalNodeId => (t, outcome (local_node_id t))
  | OpSendTransfer frames =>
      let '(t', r) := _send_transfer t frames in (t', outcome r)
  | OpCloseInputSession specifier =>
      let r := input_finalizer specifier t in (after t r id, outcome r)
  | OpCloseOutputSession specifier =>
      let r := output_finalizer specifier t in (after t r id, outcome r)
  | OpReceive none_first item in_bytes_count =>
      _handle_received_item_and_update_stats none_first t item in_bytes_count
  | OpReaderFailure => (reader_failure t, Ok tt)
  end.

(** The engine after a sequence of operations. *)
Definition run_all (t : SerialTransport) (ops : list operation) : SerialTransport :=
  fold_left (fun t op => fst (run t op)) ops t.

(* ===================================================================== *)
(** ** The vocabulary of the statements *)
(* ===================================================================== *)

(** A node id that [__post_init__] accepts: absent, or within the mask. *)
Definition node_id_ok (o : option Z) : bool :=
  match o with
  | Some n => within n NODE_ID_MASK
  | None => true
  end.

(** [__post_init__] as one test: it returns when the test holds and raises
    [ValueError] otherwise. *)
Definition invariants_hold (f : SerialFrame) : bool :=
  node_id_ok (source_node_id f) && node_id_ok (destination_node_id f)
  && negb (is_service (data_specifier f) && is_None (source_node_id f))
  && within (data_type_hash f) DATA_TYPE_HASH_MASK
  && within (transfer_id f) TRANSFER_ID_MASK
  && within (index f) INDEX_MASK.

(** Equality of two frames in every field but the reception timestamp. *)
Definition same_but_timestamp (f f' : SerialFrame) : Prop :=
  priority f' = priority f
  /\ source_node_id f' = source_node_id f
  /\ destination_node_id f' = destination_node_id f
  /\ data_specifier f' = data_specifier f
  /\ data_type_hash f' = data_type_hash f
  /\ transfer_id f' = transfer_id f
  /\ index f' = index f
  /\ end_of_transfer f' = end_of_transfer f
  /\ payload f' = payload f.

(** The frame of the first compilation test of the sources: escape bytes in
    the node ids and in the payload. *)
Definition sample_frame : SerialFrame :=
  mkSerialFrame (mkTimestamp 0 0) Level3 (Some 0x9E) (Some 0x8E)
    (MessageDataSpecifier 12345) 0xdeadbeefbadc0ffe 1234567890123456789
    1234567 true (ascii_bytes [97; 98; 99; 100; 0x9E; 101; 102; 0x8E]).

(** A subject id mask of 15 bits. *)
Definition sample_mask : Z := 32767.

(** The unsigned little-endian field of [size] bytes at offset [off] of an
    image. *)
Definition word_at (off size : nat) (img : list byte) : Z :=
  le_value (slice off (off + size) img).


(** The image with bit [k] of its byte [i] flipped. *)
Definition flip_bit (i : nat) (k : Z) (img : list byte) : list byte :=
  alter (fun b => byte_xor b (Z.shiftl 1 k)) i img.

(** The violations that [__post_init__] names. *)
Definition invariant_violated (f : SerialFrame) : Prop :=
  (exists n, source_node_id f = Some n /\ ~ 0 <= n <= 4095)
  \/ (exists n, destination_node_id f = Some n /\ ~ 0 <= n <= 4095)
  \/ (is_service (data_specifier f) = true /\ source_node_id f = None)
  \/ ~ 0 <= data_type_hash f < 2 ^ 64
  \/ ~ 0 <= transfer_id f < 2 ^ 64
  \/ ~ 0 <= index f < 2 ^ 31.

(** The two session keys a frame is routed to: its data specifier with its
    own source, and with the absent source of the promiscuous session. *)
Definition routed_to (frame : SerialFrame) (ss : SessionSpecifier) : Prop :=
  ss = (data_specifier frame, source_node_id frame)
  \/ ss = (data_specifier frame, None).

#[global] Instance routed_to_dec frame ss : Decision (routed_to frame ss).
Proof. unfold routed_to. apply _. Defined.

(** The serialization buffer never shrinks below its initial size. *)
Definition buffer_invariant (t : SerialTransport) : Prop :=
  (INITIAL_BUFFER_SIZE <= length (_serialization_buffer t))%nat.

(** What the closing of sessions leaves alone: everything but the
    registries. *)
Definition same_but_registries (t t' : SerialTransport) : Prop :=
  _closed t' = _closed t
  /\ _serialization_buffer t' = _serialization_buffer t
  /\ _statistics t' = _statistics t
  /\ port_is_open t' = port_is_open t
  /\ _local_node_id t' = _local_node_id t.

(** The public operations of the engine, as the spec lists them. *)
Definition public_operation (op : operation) : bool :=
  match op with
  | OpClose | OpGetInputSession _ | OpGetOutputSession _ | OpSampleStatistics =>
      true
  | _ => false
  end.

(** An engine built on an open port and closed at once. *)
Definition closed_engine : SerialTransport :=
  match SerialTransport_init true (Some 42) 1024 2 with
  | Ok t => match close t with Ok t' => t' | Raise _ => t end
  | Raise _ =>
      mkSerialTransport 0 0 None true [] ∅ ∅ (mkStatistics 0 0 0 0 0 0 0) false
  end.

(** The length of the compiled frame, which the count of written bytes is
    compared with. *)
Definition compiled_length (fr : SerialFrame) : Z := Z.of_nat (compiled_size fr).

(** The write of a frame completes fully: there is time left, the write
    returns, and the count it returns is not below the length of the
    compiled frame (a write that returns no count is taken by the code to
    have written everything). *)
Definition write_completes (x : SerialFrame * FrameIO) : Prop :=
  budget_left (snd x) = true
  /\ exists num_written now,
       write_outcome (snd x) = Written num_written now
       /\ forall n, num_written = Some n -> compiled_length (fst x) <= n.




(** The instant read after the first write of a transfer. *)
Definition first_write_instant (frames : list (SerialFrame * FrameIO))
    : option Timestamp :=
  match frames with
  | (_, io) :: _ =>
      match write_outcome io with
      | Written _ now => Some now
      | _ => None
      end
  | [] => None
  end.


(** An engine as its constructor leaves it, on an open port. *)
Definition open_engine : SerialTransport :=
  mkSerialTransport 2 1024 (Some 42) false (repeat x00 INITIAL_BUFFER_SIZE)
    ∅ ∅ (mkStatistics 0 0 0 0 0 0 0) true.

(** A write of the whole sample frame, 50 bytes once compiled. *)
Definition full_write : FrameIO :=
  mkFrameIO true false (Written (Some 50) (mkTimestamp 11 13)).


(* ===================================================================== *)
(** ** The rest of the engine *)
(* ===================================================================== *)

(** [pyuavcan.transport.ProtocolParameters], by the three fields the engine
    fills in. *)
Record ProtocolParameters : Type := mkProtocolParameters {
  transfer_id_modulo : Z;
  max_nodes : Z;
  mtu : Z
}.

(** The [protocol_parameters] property; [len(SerialFrame.NODE_ID_RANGE)] is
    [NODE_ID_MASK + 1]. *)
Definition protocol_parameters (t : SerialTransport) : ProtocolParameters :=
  mkProtocolParameters (TRANSFER_ID_MASK + 1) (NODE_ID_MASK + 1) (_mtu t).

(** The frames of a transfer, each paired with what the surroundings do
    while it is sent: [io i] for the frame of index [first + i]. *)
Fixpoint script_from (first : nat) (frames : list SerialFrame)
    (io : nat -> FrameIO) : list (SerialFrame * FrameIO) :=
  match frames with
  | [] => []
  | fr :: rest => (fr, io first) :: script_from (S first) rest io
  end.

(** [first_tx_ts or ts]. *)
Definition or_else (first_tx_ts ts : option Timestamp) : option Timestamp :=
  match first_tx_ts with
  | Some _ => first_tx_ts
  | None => ts
  end.

(** The loop of the send handler that [get_output_session] builds for a
    service specifier: [remaining] more passes of [_send_transfer] over the
    same frames, [io pass] being what the surroundings do during a pass. An
    exception raised by a pass ends the handler. *)
Fixpoint send_transfer_passes (t : SerialTransport) (frames : list SerialFrame)
    (io : nat -> nat -> FrameIO) (pass remaining : nat)
    (first_tx_ts : option Timestamp)
    : SerialTransport * result (option Timestamp) :=
  match remaining with
  | O => (t, Ok first_tx_ts)
  | S remaining' =>
      match _send_transfer t (script_from 0 frames (io pass)) with
      | (t', Ok ts) =>
          send_transfer_passes t' frames io (S pass) remaining'
            (or_else first_tx_ts ts)
      | (t', Raise e) => (t', Raise e)
      end
  end.

(** The nested [send_transfer] of [get_output_session]:
    [for _ in range(self._service_transfer_multiplier)]. *)
Definition send_transfer_repeated (t : SerialTransport)
    (frames : list SerialFrame) (io : nat -> nat -> FrameIO)
    : SerialTransport * result (option Timestamp) :=
  send_transfer_passes t frames io 0
    (Z.to_nat (_service_transfer_multiplier t)) None.

(** The send handler that [get_output_session] hands to the session of
    [specifier]: the repeating one for a service specifier when the
    multiplier is above one, [_send_transfer] itself otherwise. *)
Definition send_handler (specifier : SessionSpecifier) (t : SerialTransport)
    (frames : list SerialFrame) (io : nat -> nat -> FrameIO)
    : SerialTransport * result (option Timestamp) :=
  if is_service (fst specifier) && (1 <? _service_transfer_multiplier t)
  then send_transfer_repeated t frames io
  else _send_transfer t (script_from 0 frames (io 0%nat)).

Section ReaderThread.

(** The stream parser ([_stream_parser.py]) is not among the sources: it is
    a parameter here, a state and the items it hands to its callback for
    each chunk, in order. *)
Variable parser : Type.
Variable process_next_chunk :
  parser -> list byte -> Timestamp -> parser * list received_item.

(** What the loop of [_reader_thread_func] posts to the event loop for the
    chunks it reads: each item the parser emits, with the value
    [in_bytes_count] has when the callback runs, the bytes read so far, the
    current chunk included. *)
Fixpoint reader_posts (p : parser) (in_bytes_count : Z)
    (chunks : list (list byte * Timestamp)) : list (received_item * Z) :=
  match chunks with
  | [] => []
  | (chunk, ts) :: rest =>
      let in_bytes_count := in_bytes_count + Z.of_nat (length chunk) in
      let '(p', items) := process_next_chunk p chunk ts in
      map (fun item => (item, in_bytes_count)) items
      ++ reader_posts p' in_bytes_count rest
  end.

End ReaderThread.

(** The event loop running, in the order they were posted, the calls of
    [_handle_received_item_and_update_stats] that the reader posted;
    [none_first] gives the order in which the set of the two sources of a
    frame is visited. An exception raised by a call goes to the exception
    handler of the loop, and the next call runs: the engine at the end and
    what each call answered. *)
Fixpoint handle_posts (none_first : received_item -> bool)
    (t : SerialTransport) (posts : list (received_item * Z))
    : SerialTransport * list (result unit) :=
  match posts with
  | [] => (t, [])
  | (item, in_bytes_count) :: rest =>
      let '(t', r) :=
        _handle_received_item_and_update_stats (none_first item) t item
          in_bytes_count in
      let '(t'', rs) := handle_posts none_first t' rest in
      (t'', r :: rs)
  end.

(** The frames of a sequence handed to [_handle_received_frame] one after
    the other. *)
Definition receive_frames (none_first : SerialFrame -> bool)
    (t : SerialTransport) (frames : list SerialFrame) : SerialTransport :=
  fold_left (fun t frame => _handle_received_frame (none_first frame) t frame)
    frames t.

(** The number of passes of the send handler that [get_output_session]
    builds for [specifier]. *)
Definition handler_passes (specifier : SessionSpecifier) (t : SerialTransport)
    : Z :=
  if is_service (fst specifier) && (1 <? _service_transfer_multiplier t)
  then _service_transfer_multiplier t else 1.

(** Every session of the registries is filed under its own specifier, and
    every output session has the send handler of its specifier. *)
Definition registries_consistent (t : SerialTransport) : Prop :=
  (forall k s, _input_registry t !! k = Some s -> in_specifier s = k)
  /\ (forall k s, _output_registry t !! k = Some s ->
        out_specifier s = k /\ send_passes s = handler_passes k t).

(** What sending leaves alone: the configuration, the registries and the
    counters of the receiving side. *)
Definition untouched_by_sending (t t' : SerialTransport) : Prop :=
  _service_transfer_multiplier t' = _service_transfer_multiplier t
  /\ _mtu t' = _mtu t
  /\ _local_node_id t' = _local_node_id t
  /\ _input_registry t' = _input_registry t
  /\ _output_registry t' = _output_registry t
  /\ in_bytes (_statistics t') = in_bytes (_statistics t)
  /\ in_frames (_statistics t') = in_frames (_statistics t)
  /\ in_out_of_band_bytes (_statistics t')
     = in_out_of_band_bytes (_statistics t).

(** The counters of the two engines compared one by one. *)
Definition statistics_le (s s' : SerialTransportStatistics) : Prop :=
  in_bytes s <= in_bytes s'
  /\ in_frames s <= in_frames s'
  /\ in_out_of_band_bytes s <= in_out_of_band_bytes s'
  /\ out_bytes s <= out_bytes s'
  /\ out_frames s <= out_frames s'
  /\ out_transfers s <= out_transfers s'
  /\ out_incomplete s <= out_incomplete s'.

(** A write that reports a count reports no negative one. *)
Definition write_count_ok (x : SerialFrame * FrameIO) : Prop :=
  match write_outcome (snd x) with
  | Written (Some n) _ => 0 <= n
  | _ => True
  end.

(** The operations whose writes report no negative count. *)
Definition writes_ok (op : operation) : Prop :=
  match op with
  | OpSendTransfer frames => Forall write_count_ok frames
  | _ => True
  end.

(** The frames among the items posted, and the out-of-band bytes. *)
Definition posted_frames (posts : list (received_item * Z)) : Z :=
  Z.of_nat (length (List.filter
                      (fun x => match fst x with
                                | ItemFrame _ => true
                                | ItemOutOfBand _ => false
                                end) posts)).

Fixpoint posted_out_of_band_bytes (posts : list (received_item * Z)) : Z :=
  match posts with
  | [] => 0
  | (ItemOutOfBand data, _) :: rest =>
      Z.of_nat (length data) + posted_out_of_band_bytes rest
  | (ItemFrame _, _) :: rest => posted_out_of_band_bytes rest
  end.

(** The bytes of the chunks read. *)
Definition bytes_read (chunks : list (list byte * Timestamp)) : Z :=
  fold_right (fun chunk n => Z.of_nat (length (fst chunk)) + n) 0 chunks.

(** The number of the bytes of [l] that the framing escapes. *)
Definition escapees (l : list byte) : nat := length (List.filter is_escapee l).

(** The data specifier word as arithmetic: the subject id, or the service
    id with bit 15 set and bit 14 telling a response. *)
Definition specifier_word (ds : DataSpecifier) : Z :=
  match ds with
  | MessageDataSpecifier subject_id => subject_id
  | ServiceDataSpecifier service_id REQUEST => 2 ^ 15 + service_id
  | ServiceDataSpecifier service_id RESPONSE => 2 ^ 15 + 2 ^ 14 + service_id
  end.

(** A node id on the wire: 0xFFFF for an absent one. *)
Definition node_id_word (o : option Z) : Z :=
  match o with
  | Some n => n
  | None => 0xFFFF
  end.

(** A node id as the decoder reads it off its 16-bit word. *)
Definition decoded_node_id (w : Z) : option Z :=
  if w =? 0xFFFF then None else Some w.

(** The data specifier that the decoder reads off the 16-bit word [w]. *)
Definition decoded_specifier (w : Z) : DataSpecifier :=
  if Z.testbit w 15
  then ServiceDataSpecifier (w mod 2 ^ 9)
         (if Z.testbit w 14 then RESPONSE else REQUEST)
  else MessageDataSpecifier w.

(** The checks of the decoder that come before any field is looked at: the
    length, the two CRC residues, the version. *)
Definition passes_integrity (img : list byte) : Prop :=
  (36 <= length img)%nat
  /\ CRC32C.check_residue (CRC32C.new (take 32 img)) = true
  /\ CRC32C.check_residue (CRC32C.new (drop 32 img)) = true
  /\ word_at 0 1 img = 0.

(** The frame that the decoder builds from the words of the image. *)
Definition decoded_frame (img : list byte) (ts : Timestamp) (prio : Priority)
    : SerialFrame :=
  mkSerialFrame ts prio
    (decoded_node_id (word_at 2 2 img)) (decoded_node_id (word_at 4 2 img))
    (decoded_specifier (word_at 6 2 img))
    (word_at 8 8 img) (word_at 16 8 img)
    (word_at 24 4 img mod 2 ^ 31) (Z.testbit (word_at 24 4 img) 31)
    (take (length img - 36) (drop 32 img)).

(** The byte counts of the posts go up from [c0], each no less than the one
    before. *)
Fixpoint counts_from (c0 : Z) (posts : list (received_item * Z)) : Prop :=
  match posts with
  | [] => True
  | (_, c) :: rest => c0 <= c /\ counts_from c rest
  end.

(* ===================================================================== *)
(** ** The helpers of the manual DSDL tests *)
(* ===================================================================== *)

(** A string of the binary digits ['0'] and ['1'], which is what the tests
    hand to the two helpers: [true] for ['1']. *)
Abbreviation bits := (list bool).

(** The digits of a positive number, least significant first. *)
Fixpoint pos_bits (p : positive) : bits :=
  match p with
  | xH => [true]
  | xO q => false :: pos_bits q
  | xI q => true :: pos_bits q
  end.

(** [bin(value)[2:]] for a value that is not negative: its binary digits,
    most significant first, ['0'] for zero. *)
Definition bin_digits (value : N) : bits :=
  match value with
  | N0 => [false]
  | Npos p => rev (pos_bits p)
  end.

(** [s.zfill(width)] on a string without sign. *)
Definition zfill (width : nat) (s : bits) : bits :=
  repeat false (width - length s) ++ s.

(** [s.ljust(width, '0')]. *)
Definition ljust (width : nat) (s : bits) : bits :=
  s ++ repeat false (width - length s).

(** [int(x, 2)] on a string of binary digits. *)
Definition int_base2 (x : bits) : N :=
  fold_left (fun acc (b : bool) => (2 * acc + if b then 1 else 0)%N) x 0%N.

(** [_bin(value, width)] for a value that is not negative. *)
Definition _bin (value : N) (width : nat) : result bits :=
  let out := zfill width (bin_digits value) in
  if negb (length out =? width)%nat then Raise ValueError else Ok out.

(** [[s[i:i + 8] for i in range(0, len(s), 8)]]. *)
Definition byte_sized_chunks (s : bits) : list bits :=
  map (fun k => take 8 (drop (8 * k) s)) (seq 0 ((length s + 7) / 8)).

(** [_compile_serialized_representation], given its chunks: the list of
    the one fragment it returns, a [uint8] array. *)
Definition _compile_serialized_representation (binary_chunks : list bits)
    : result (list (list byte)) :=
  let s := concat binary_chunks in
  let s := ljust (length s + 8 - length s mod 8) s in
  _ ← raise_if (negb (length s mod 8 =? 0)%nat) AssertionError;
  let byte_list := map int_base2 (byte_sized_chunks s) in
  let out := map (fun n => byte_of_Z (Z.of_N n)) byte_list in
  Ok [out].

(** The eight binary digits of a byte, most significant first. *)
Definition byte_bits (b : byte) : bits :=
  map (fun k => Z.testbit (byte_to_Z b) (Z.of_nat (7 - k))) (seq 0 8).


(* ===================================================================== *)
(** * Properties *)
(* ===================================================================== *)

(** The check value of CRC-32C: the CRC of the ASCII digits "123456789". *)
Example crc32c_check_value :
  CRC32C.value (CRC32C.new (ascii_bytes [49; 50; 51; 52; 53; 54; 55; 56; 57]))
  = 0xE3069283.
Proof. vm_compute. reflexivity. Qed.

(** ** Bytes and little-endian fields *)

Lemma byte_to_Z_range (b : byte) : 0 <= byte_to_Z b < 256.
Proof.
  unfold byte_to_Z. pose proof (Byte.to_N_bounded b). lia.
Qed.

Lemma byte_of_to_Z (b : byte) : byte_of_Z (byte_to_Z b) = b.
Proof.
  unfold byte_of_Z. pose proof (byte_to_Z_range b) as Hr.
  rewrite Z.mod_small by exact Hr.
  unfold byte_to_Z. rewrite N2Z.id, Byte.of_to_N. reflexivity.
Qed.

Lemma byte_to_of_Z (z : Z) : 0 <= z < 256 -> byte_to_Z (byte_of_Z z) = z.
Proof.
  intros Hz. unfold byte_of_Z. rewrite Z.mod_small by exact Hz.
  destruct (Byte.of_N (Z.to_N z)) as [b |] eqn:E.
  - apply Byte.to_of_N in E. unfold byte_to_Z. rewrite E. lia.
  - apply Byte.of_N_None_iff in E. lia.
Qed.

Lemma byte_to_Z_inj (a b : byte) : byte_to_Z a = byte_to_Z b -> a = b.
Proof.
  intros H. rewrite <- (byte_of_to_Z a), <- (byte_of_to_Z b), H. reflexivity.
Qed.

Lemma byte_eqb_true (a b : byte) : byte_eqb a b = true <-> a = b.
Proof.
  unfold byte_eqb. rewrite Z.eqb_eq. split.
  - apply byte_to_Z_inj.
  - intros ->. reflexivity.
Qed.

Lemma byte_eqb_false (a b : byte) : byte_eqb a b = false <-> a <> b.
Proof.
  rewrite <- byte_eqb_true. destruct (byte_eqb a b); split; congruence.
Qed.

Lemma length_le_bytes (n : nat) (z : Z) : length (le_bytes n z) = n.
Proof.
  revert z. induction n as [| n IH]; intros z; simpl; [reflexivity |].
  rewrite IH. reflexivity.
Qed.

Lemma le_value_le_bytes (n : nat) (z : Z) :
  0 <= z < 256 ^ Z.of_nat n -> le_value (le_bytes n z) = z.
Proof.
  revert z. induction n as [| n IH]; intros z Hz.
  - simpl in *. lia.
  - rewrite Nat2Z.inj_succ, Z.pow_succ_r in Hz by lia.
    cbn [le_bytes le_value].
    rewrite byte_to_of_Z by (apply Z.mod_pos_bound; lia).
    rewrite IH.
    + pose proof (Z.div_mod z 256). lia.
    + split; [apply Z.div_pos; lia | apply Z.div_lt_upper_bound; lia].
Qed.

Lemma le_value_app (a b : list byte) :
  le_value (a ++ b) = le_value a + 256 ^ Z.of_nat (length a) * le_value b.
Proof.
  induction a as [| x a IH].
  - simpl. lia.
  - cbn [app le_value length]. rewrite IH, Nat2Z.inj_succ, Z.pow_succ_r by lia.
    lia.
Qed.

Lemma le_value_range (l : list byte) :
  0 <= le_value l < 256 ^ Z.of_nat (length l).
Proof.
  induction l as [| x l IH].
  - simpl. lia.
  - cbn [le_value length]. rewrite Nat2Z.inj_succ, Z.pow_succ_r by lia.
    pose proof (byte_to_Z_range x). lia.
Qed.

(** ** CRC-32C: the register, linearity, the residue *)

(** Equalities between XOR combinations of the same terms, bit by bit. *)
Ltac xor_bits :=
  apply Z.bits_inj'; intros ?n ?Hn;
  rewrite ?Z.lxor_spec, ?Z.land_spec, ?Z.lxor_spec, ?Z.bits_0;
  repeat match goal with
         | |- context [Z.testbit ?a ?n] =>
             let b := fresh "b" in
             generalize (Z.testbit a n); intros b
         end;
  repeat match goal with b : bool |- _ => destruct b end; reflexivity.

Lemma land_lxor_distr (a b c : Z) :
  Z.land (Z.lxor a b) c = Z.lxor (Z.land a c) (Z.land b c).
Proof. xor_bits. Qed.

Lemma lxor_bound (n a b : Z) :
  0 <= n -> 0 <= a < 2 ^ n -> 0 <= b < 2 ^ n -> 0 <= Z.lxor a b < 2 ^ n.
Proof.
  intros Hn Ha Hb.
  rewrite <- (Z.mod_small a (2 ^ n)), <- (Z.mod_small b (2 ^ n)) by assumption.
  rewrite <- !Z.land_ones, <- land_lxor_distr, Z.land_ones by assumption.
  apply Z.mod_pos_bound, Z.pow_pos_nonneg; lia.
Qed.

Lemma lxor_eq_0 (a b : Z) : Z.lxor a b = 0 <-> a = b.
Proof. apply Z.lxor_eq_0_iff. Qed.

Lemma shiftr_bound (a n m : Z) :
  0 <= m <= n -> 0 <= a < 2 ^ n -> 0 <= Z.shiftr a m < 2 ^ (n - m).
Proof.
  intros Hm Ha. rewrite Z.shiftr_div_pow2 by lia. split.
  - apply Z.div_pos; [lia | apply Z.pow_pos_nonneg; lia].
  - apply Z.div_lt_upper_bound; [apply Z.pow_pos_nonneg; lia |].
    rewrite <- Z.pow_add_r by lia. replace (m + (n - m)) with n by lia. lia.
Qed.

Lemma land_255 (a : Z) : Z.land a 0xFF = a mod 256.
Proof. change 0xFF with (Z.ones 8). rewrite Z.land_ones by lia. reflexivity. Qed.

Module CRC32C_facts.
Import CRC32C.

Lemma add_byte_int (val : Z) (x : byte) : add_byte val x = add_int val (byte_to_Z x).
Proof. reflexivity. Qed.

Lemma bit_step_lxor (a b : Z) :
  bit_step (Z.lxor a b) = Z.lxor (bit_step a) (bit_step b).
Proof.
  unfold bit_step. rewrite Z.shiftr_lxor.
  rewrite <- !Z.bit0_odd, Z.lxor_spec.
  destruct (Z.testbit a 0), (Z.testbit b 0); cbn [xorb]; xor_bits.
Qed.

Lemma table_lxor (a b : Z) : table (Z.lxor a b) = Z.lxor (table a) (table b).
Proof. unfold table. rewrite !bit_step_lxor. reflexivity. Qed.

Lemma add_int_lxor (v v' x x' : Z) :
  add_int (Z.lxor v v') (Z.lxor x x') = Z.lxor (add_int v x) (add_int v' x').
Proof.
  unfold add_int. rewrite Z.shiftr_lxor, land_lxor_distr.
  replace (Z.lxor (Z.lxor x x') (Z.lxor (Z.land v 0xFF) (Z.land v' 0xFF)))
    with (Z.lxor (Z.lxor x (Z.land v 0xFF)) (Z.lxor x' (Z.land v' 0xFF)))
    by xor_bits.
  rewrite table_lxor. xor_bits.
Qed.

Lemma bit_step_range (c : Z) : 0 <= c < 2 ^ 32 -> 0 <= bit_step c < 2 ^ 32.
Proof.
  intros Hc. unfold bit_step. apply lxor_bound; [lia | |].
  - pose proof (shiftr_bound c 32 1 ltac:(lia) Hc). simpl in *. lia.
  - destruct (Z.odd c); unfold POLY; lia.
Qed.

Lemma table_range (i : Z) : 0 <= i < 2 ^ 32 -> 0 <= table i < 2 ^ 32.
Proof. intros Hi. unfold table. do 8 apply bit_step_range. exact Hi. Qed.

Lemma add_int_range (val x : Z) :
  0 <= val < 2 ^ 32 -> 0 <= x < 256 -> 0 <= add_int val x < 2 ^ 32.
Proof.
  intros Hv Hx. unfold add_int. apply lxor_bound; [lia | |].
  - pose proof (shiftr_bound val 32 8 ltac:(lia) Hv). simpl in *. lia.
  - apply table_range. rewrite land_255.
    pose proof (Z.mod_pos_bound val 256 ltac:(lia)).
    pose proof (lxor_bound 8 x (val mod 256) ltac:(lia) ltac:(simpl; lia)
                  ltac:(simpl; lia)).
    simpl in *. lia.
Qed.

Lemma add_range (data : list byte) (val : Z) :
  0 <= val < 2 ^ 32 -> 0 <= add val data < 2 ^ 32.
Proof.
  revert val. induction data as [| x data IH]; intros val Hv; [exact Hv |].
  cbn [add fold_left]. apply IH. rewrite add_byte_int.
  apply add_int_range; [exact Hv | apply byte_to_Z_range].
Qed.

Lemma new_range (data : list byte) : 0 <= new data < 2 ^ 32.
Proof. apply add_range. unfold INITIAL. lia. Qed.

Lemma add_app (a b : list byte) (val : Z) : add val (a ++ b) = add (add val a) b.
Proof. unfold add. apply fold_left_app. Qed.

(** *** A block followed by its own CRC leaves the residue *)

Lemma add_int_cancel (x c : Z) :
  add_int (Z.lxor x c) (Z.lxor (Z.land x 0xFF) 0xFF)
  = Z.lxor (Z.shiftr x 8) (absorb c).
Proof.
  unfold add_int, absorb. rewrite Z.shiftr_lxor, land_lxor_distr.
  replace (Z.lxor (Z.lxor (Z.land x 0xFF) 0xFF)
             (Z.lxor (Z.land x 0xFF) (Z.land c 0xFF)))
    with (Z.lxor (Z.land c 0xFF) 0xFF) by xor_bits.
  xor_bits.
Qed.

Lemma complement_low_byte (x k : Z) :
  0 <= k -> Z.lxor x (Z.ones (k + 8)) mod 256 = Z.lxor (Z.land x 0xFF) 0xFF.
Proof.
  intros Hk. rewrite <- land_255, land_lxor_distr. f_equal.
  rewrite land_255. change 256 with (2 ^ 8).
  rewrite Z.ones_mod_pow2 by lia. reflexivity.
Qed.

Lemma complement_high_bytes (x k : Z) :
  0 <= k -> Z.lxor x (Z.ones (k + 8)) / 256 = Z.lxor (Z.shiftr x 8) (Z.ones k).
Proof.
  intros Hk. change 256 with (2 ^ 8).
  rewrite <- Z.shiftr_div_pow2, Z.shiftr_lxor by lia. f_equal.
  rewrite Z.shiftr_div_pow2, Z.ones_div_pow2 by lia. f_equal. lia.
Qed.

Lemma add_complement (n : nat) (x c : Z) :
  0 <= x ->
  add (Z.lxor x c) (le_bytes n (Z.lxor x (Z.ones (8 * Z.of_nat n))))
  = Z.lxor (Z.shiftr x (8 * Z.of_nat n)) (Nat.iter n absorb c).
Proof.
  revert x c. induction n as [| n IH]; intros x c Hx.
  - cbn [le_bytes add fold_left Nat.iter]. rewrite Z.shiftr_0_r. reflexivity.
  - replace (8 * Z.of_nat (S n)) with (8 * Z.of_nat n + 8) by lia.
    cbn [le_bytes add fold_left].
    rewrite complement_low_byte, complement_high_bytes by lia.
    rewrite add_byte_int, byte_to_of_Z.
    + rewrite add_int_cancel. fold (add (Z.lxor (Z.shiftr x 8) (absorb c))
        (le_bytes n (Z.lxor (Z.shiftr x 8) (Z.ones (8 * Z.of_nat n))))).
      rewrite IH by (apply Z.shiftr_nonneg; exact Hx).
      rewrite Z.shiftr_shiftr by lia.
      replace (8 + 8 * Z.of_nat n) with (8 * Z.of_nat n + 8) by lia.
      f_equal. symmetry. apply Nat.iter_succ_r.
    + rewrite <- (complement_low_byte x 0) by lia.
      apply Z.mod_pos_bound. lia.
Qed.

Lemma residue_of_own_crc (data : list byte) :
  check_residue (new (data ++ value_as_bytes (new data))) = true.
Proof.
  unfold new at 1. rewrite add_app. fold (new data).
  pose proof (new_range data) as Hr.
  unfold value_as_bytes, value, OUTPUT_XOR.
  change 0xFFFFFFFF with (Z.ones (8 * Z.of_nat 4)).
  rewrite <- (Z.lxor_0_r (new data)) at 1.
  rewrite add_complement by lia.
  rewrite Z.shiftr_div_pow2, Z.div_small by (simpl; lia).
  unfold check_residue. vm_compute. reflexivity.
Qed.

(** *** A change confined to one byte changes the register *)

Lemma below_256 (P : Z -> bool) :
  forallb P (map Z.of_nat (seq 0 256)) = true ->
  forall y, 0 <= y < 256 -> P y = true.
Proof.
  intros H y Hy. rewrite forallb_forall in H. apply H.
  apply in_map_iff. exists (Z.to_nat y). split; [lia |].
  apply in_seq. lia.
Qed.

(** The high byte of a table entry is zero for the entry of index 0
    only: checked on the 256 entries. *)
Lemma table_high_bytes_checked :
  forallb (fun y => implb (table y <? 2 ^ 24) (y =? 0))
    (map Z.of_nat (seq 0 256)) = true.
Proof. vm_compute. reflexivity. Qed.

Lemma table_high_byte (y : Z) : 0 <= y < 256 -> table y < 2 ^ 24 -> y = 0.
Proof.
  intros Hy Ht.
  pose proof (below_256 _ table_high_bytes_checked y Hy) as H.
  cbv beta in H. apply Z.ltb_lt in Ht. rewrite Ht in H. cbn [implb] in H.
  apply Z.eqb_eq in H. exact H.
Qed.

Lemma add_int_0 (e : Z) : add_int 0 e = table e.
Proof.
  unfold add_int.
  rewrite Z.shiftr_0_l, Z.land_0_l, Z.lxor_0_l, Z.lxor_0_r. reflexivity.
Qed.

Lemma add_int_changed_byte (e : Z) : 0 < e < 256 -> add_int 0 e <> 0.
Proof.
  intros He. rewrite add_int_0. intros H.
  assert (e = 0) as He0; [| lia].
  apply table_high_byte; [lia |]. rewrite H. reflexivity.
Qed.

Lemma add_int_changed_register (d : Z) : 0 < d < 2 ^ 32 -> add_int d 0 <> 0.
Proof.
  intros Hd H. unfold add_int in H. rewrite Z.lxor_0_l, land_255 in H.
  apply Z.lxor_eq in H.
  pose proof (shiftr_bound d 32 8 ltac:(lia) ltac:(lia)) as Hs.
  pose proof (Z.mod_pos_bound d 256 ltac:(lia)) as Hm.
  assert (d mod 256 = 0) as Hlow
    by (apply table_high_byte; [lia | rewrite <- H; simpl in Hs; lia]).
  rewrite Hlow in H. change (table 0) with 0 in H.
  rewrite Z.shiftr_div_pow2 in H by lia. change (2 ^ 8) with 256 in H.
  pose proof (Z.div_mod d 256 ltac:(lia)). lia.
Qed.

Lemma add_distinct (data : list byte) (r r' : Z) :
  0 <= r < 2 ^ 32 -> 0 <= r' < 2 ^ 32 -> r <> r' -> add r data <> add r' data.
Proof.
  revert r r'. induction data as [| y data IH]; intros r r' Hr Hr' Hne;
    [exact Hne |].
  cbn [add fold_left]. apply IH.
  - rewrite add_byte_int. apply add_int_range; [exact Hr | apply byte_to_Z_range].
  - rewrite add_byte_int. apply add_int_range; [exact Hr' | apply byte_to_Z_range].
  - rewrite !add_byte_int. intros Heq. apply (proj2 (lxor_eq_0 _ _)) in Heq.
    rewrite <- add_int_lxor, Z.lxor_nilpotent in Heq.
    apply (add_int_changed_register (Z.lxor r r')); [| exact Heq].
    pose proof (lxor_bound 32 r r' ltac:(lia) Hr Hr').
    assert (Z.lxor r r' <> 0) by (rewrite lxor_eq_0; exact Hne). lia.
Qed.

(** Two blocks that differ in exactly one byte never have the same
    register: CRC-32C detects every error confined to one byte. *)
Lemma one_byte_changed (pre post : list byte) (x x' : byte) :
  x <> x' -> new (pre ++ x :: post) <> new (pre ++ x' :: post).
Proof.
  intros Hne. unfold new. rewrite !add_app.
  pose proof (add_range pre INITIAL ltac:(unfold INITIAL; lia)) as Hr.
  set (r := add INITIAL pre) in *.
  cbn [add fold_left].
  pose proof (byte_to_Z_range x) as Hx. pose proof (byte_to_Z_range x') as Hx'.
  apply add_distinct.
  - rewrite add_byte_int. apply add_int_range; assumption.
  - rewrite add_byte_int. apply add_int_range; assumption.
  - rewrite !add_byte_int. intros Heq. apply (proj2 (lxor_eq_0 _ _)) in Heq.
    rewrite <- add_int_lxor, Z.lxor_nilpotent in Heq.
    apply (add_int_changed_byte (Z.lxor (byte_to_Z x) (byte_to_Z x')));
      [| exact Heq].
    pose proof (lxor_bound 8 (byte_to_Z x) (byte_to_Z x') ltac:(lia)
                  ltac:(simpl; lia) ltac:(simpl; lia)) as Hb.
    assert (Z.lxor (byte_to_Z x) (byte_to_Z x') <> 0).
    { rewrite lxor_eq_0. intros E. apply Hne, byte_to_Z_inj, E. }
    simpl in Hb. lia.
Qed.

End CRC32C_facts.

(** ** Escaping *)

Lemma byte_xor_involutive (b : byte) (m : Z) :
  0 <= m < 256 -> byte_xor (byte_xor b m) m = b.
Proof.
  intros Hm. unfold byte_xor. pose proof (byte_to_Z_range b) as Hb.
  rewrite byte_to_of_Z
    by (apply (lxor_bound 8); [lia | simpl; lia | simpl; lia]).
  replace (Z.lxor (Z.lxor (byte_to_Z b) m) m) with (byte_to_Z b) by xor_bits.
  apply byte_of_to_Z.
Qed.

Lemma escaped_second_byte (b : byte) :
  is_escapee b = true -> is_escapee (byte_xor b 0xFF) = false.
Proof.
  unfold is_escapee. rewrite orb_true_iff, !byte_eqb_true.
  intros [-> | ->]; vm_compute; reflexivity.
Qed.

Lemma unescape_escape (l : list byte) : unescape (escape l) = l.
Proof.
  induction l as [| b l IH]; [reflexivity |].
  unfold escape in *. cbn [flat_map]. unfold escape_byte at 1.
  destruct (is_escapee b) eqn:E.
  - cbn [app unescape].
    replace (byte_eqb ESCAPE_PREFIX_BYTE ESCAPE_PREFIX_BYTE) with true
      by (symmetry; apply byte_eqb_true; reflexivity).
    rewrite IH, byte_xor_involutive by lia. reflexivity.
  - cbn [app unescape].
    unfold is_escapee in E. apply orb_false_iff in E as [_ E].
    rewrite E, IH. reflexivity.
Qed.

Lemma strip_framing_framed (d d' : byte) (l : list byte) :
  strip_framing (d :: l ++ [d']) = l.
Proof. unfold strip_framing. cbn [tl]. apply removelast_last. Qed.

Lemma length_escape_byte (b : byte) : (1 <= length (escape_byte b) <= 2)%nat.
Proof. unfold escape_byte. destruct (is_escapee b); simpl; lia. Qed.

Lemma length_escape (l : list byte) :
  (length l <= length (escape l) <= 2 * length l)%nat.
Proof.
  induction l as [| b l IH]; [simpl; lia |].
  unfold escape in *. cbn [flat_map]. rewrite length_app.
  pose proof (length_escape_byte b). simpl length. lia.
Qed.

Lemma escape_app (a b : list byte) : escape (a ++ b) = escape a ++ escape b.
Proof. unfold escape. apply flat_map_app. Qed.

(** No delimiter survives the escaping. *)
Lemma escape_no_delimiter (l : list byte) :
  ~ In FRAME_DELIMITER_BYTE (escape l).
Proof.
  induction l as [| b l IH]; [intros [] |].
  unfold escape in *. cbn [flat_map]. rewrite in_app_iff. intros [H | H];
    [| exact (IH H)].
  unfold escape_byte in H. destruct (is_escapee b) eqn:E.
  - destruct H as [H | [H | []]].
    + vm_compute in H. discriminate H.
    + apply escaped_second_byte in E. rewrite H in E.
      vm_compute in E. discriminate E.
  - destruct H as [H | []]. subst b. vm_compute in E. discriminate E.
Qed.

(** An escape prefix in the escaped bytes is never the last of them. *)
Lemma escape_no_dangling (l : list byte) (i : nat) :
  nth_error (escape l) i = Some ESCAPE_PREFIX_BYTE ->
  (S i < length (escape l))%nat.
Proof.
  revert i. induction l as [| b l IH]; intros i H.
  - destruct i; discriminate H.
  - unfold escape in *. cbn [flat_map] in *. unfold escape_byte in *.
    destruct (is_escapee b) eqn:E; cbn [app length] in *.
    + destruct i as [| [| i]]; cbn [nth_error] in H.
      * lia.
      * injection H as H. apply escaped_second_byte in E. rewrite H in E.
        vm_compute in E. discriminate E.
      * apply IH in H. lia.
    + destruct i as [| i]; cbn [nth_error] in H.
      * injection H as H. subst b. vm_compute in E. discriminate E.
      * apply IH in H. lia.
Qed.

(** ** [compile_into] writes the framed, escaped image *)

Lemma bind_Ok {A B : Type} (a : A) (k : A -> result B) : (Ok a ≫= k) = k a.
Proof. reflexivity. Qed.

Lemma setitem_here (pre free : list byte) (x v : byte) :
  setitem (pre ++ x :: free) (length pre) v = Ok (pre ++ v :: free).
Proof.
  unfold setitem. rewrite length_app. cbn [length].
  destruct (Nat.ltb_spec (length pre) (length pre + S (length free))); [| lia].
  rewrite insert_app_r_alt by lia. rewrite Nat.sub_diag. reflexivity.
Qed.

Lemma setitem_past_end (buf : list byte) (i : nat) (v : byte) :
  (length buf <= i)%nat -> setitem buf i v = Raise IndexError.
Proof.
  intros H. unfold setitem.
  destruct (Nat.ltb_spec i (length buf)); [lia | reflexivity].
Qed.

Lemma emit_all_app (bytes pre free : list byte) :
  (length (escape bytes) <= length free)%nat ->
  emit_all (pre ++ free, length pre) bytes
  = Ok (pre ++ escape bytes ++ drop (length (escape bytes)) free,
        (length pre + length (escape bytes))%nat).
Proof.
  revert pre free. induction bytes as [| nb rest IH]; intros pre free Hlen.
  - cbn [emit_all escape flat_map length app drop]. rewrite Nat.add_0_r.
    reflexivity.
  - unfold escape in *. cbn [emit_all flat_map] in *. unfold emit, escape_byte in *.
    destruct (is_escapee nb) eqn:E; cbn [app length] in *.
    + destruct free as [| x [| y free]]; cbn [length] in Hlen; try lia.
      rewrite setitem_here, bind_Ok.
      replace (pre ++ ESCAPE_PREFIX_BYTE :: y :: free)
        with ((pre ++ [ESCAPE_PREFIX_BYTE]) ++ y :: free)
        by (rewrite <- app_assoc; reflexivity).
      replace (S (length pre)) with (length (pre ++ [ESCAPE_PREFIX_BYTE]))
        by (rewrite length_app; cbn [length]; lia).
      rewrite setitem_here, !bind_Ok.
      replace ((pre ++ [ESCAPE_PREFIX_BYTE]) ++ byte_xor nb 255 :: free)
        with ((pre ++ [ESCAPE_PREFIX_BYTE; byte_xor nb 255]) ++ free)
        by (rewrite <- !app_assoc; reflexivity).
      replace (S (length (pre ++ [ESCAPE_PREFIX_BYTE])))
        with (length (pre ++ [ESCAPE_PREFIX_BYTE; byte_xor nb 255]))
        by (rewrite !length_app; cbn [length]; lia).
      rewrite IH by lia. rewrite <- !app_assoc, length_app. cbn [app length drop].
      f_equal. f_equal. lia.
    + destruct free as [| x free]; cbn [length] in Hlen; try lia.
      rewrite setitem_here, !bind_Ok.
      replace (pre ++ nb :: free) with ((pre ++ [nb]) ++ free)
        by (rewrite <- app_assoc; reflexivity).
      replace (S (length pre)) with (length (pre ++ [nb]))
        by (rewrite length_app; cbn [length]; lia).
      rewrite IH by lia. rewrite <- !app_assoc, length_app. cbn [app length drop].
      f_equal. f_equal. lia.
Qed.

Lemma pack_uint_in_range (size : nat) (v : Z) :
  0 <= v < 256 ^ Z.of_nat size -> pack_uint size v = Ok (le_bytes size v).
Proof.
  intros Hv. unfold pack_uint.
  destruct (Z.leb_spec 0 v); [| lia].
  destruct (Z.ltb_spec v (256 ^ Z.of_nat size)); [reflexivity | lia].
Qed.

Lemma within_true (x mask : Z) : within x mask = true <-> 0 <= x <= mask.
Proof. unfold within. rewrite andb_true_iff, !Z.leb_le. reflexivity. Qed.

Lemma raise_if_Ok (c : bool) (e : exn) : raise_if c e = Ok tt <-> c = false.
Proof. destruct c; cbn; split; congruence. Qed.

Lemma lor_bound (n a b : Z) :
  0 <= n -> 0 <= a < 2 ^ n -> 0 <= b < 2 ^ n -> 0 <= Z.lor a b < 2 ^ n.
Proof.
  intros Hn Ha Hb.
  rewrite <- (Z.mod_small a (2 ^ n)), <- (Z.mod_small b (2 ^ n)) by assumption.
  rewrite <- !Z.land_ones, <- Z.land_lor_distr_l, Z.land_ones by assumption.
  apply Z.mod_pos_bound, Z.pow_pos_nonneg; lia.
Qed.

Lemma post_init_cases (f : SerialFrame) :
  __post_init__ f = if invariants_hold f then Ok tt else Raise ValueError.
Proof.
  unfold __post_init__, invariants_hold, node_id_ok.
  destruct (source_node_id f) as [s |], (destination_node_id f) as [d |],
    (is_service (data_specifier f));
    repeat match goal with
           | |- context [within ?x ?m] => destruct (within x m)
           end; reflexivity.
Qed.

Lemma post_init_Ok (f : SerialFrame) :
  __post_init__ f = Ok tt <-> invariants_hold f = true.
Proof.
  rewrite post_init_cases. destruct (invariants_hold f); split; congruence.
Qed.

Lemma node_id_ok_true (o : option Z) :
  node_id_ok o = true <-> forall n, o = Some n -> 0 <= n <= NODE_ID_MASK.
Proof.
  destruct o as [n |]; cbn [node_id_ok].
  - rewrite within_true. split; [intros H m [= <-]; exact H | intros H; apply H; reflexivity].
  - split; [intros _ n [=] | reflexivity].
Qed.

Lemma invariants_hold_true (f : SerialFrame) :
  invariants_hold f = true <->
  (forall n, source_node_id f = Some n -> 0 <= n <= NODE_ID_MASK)
  /\ (forall n, destination_node_id f = Some n -> 0 <= n <= NODE_ID_MASK)
  /\ ~ (is_service (data_specifier f) = true /\ source_node_id f = None)
  /\ 0 <= data_type_hash f <= DATA_TYPE_HASH_MASK
  /\ 0 <= transfer_id f <= TRANSFER_ID_MASK
  /\ 0 <= index f <= INDEX_MASK.
Proof.
  unfold invariants_hold.
  rewrite !andb_true_iff, !node_id_ok_true, !within_true, negb_true_iff,
    andb_false_iff.
  assert (is_None (source_node_id f) = false <-> source_node_id f <> None) as HN
    by (destruct (source_node_id f); cbn; split; congruence).
  rewrite HN. destruct (is_service (data_specifier f)); intuition congruence.
Qed.

Lemma length_header_fields (f : SerialFrame) : length (header_fields f) = 28%nat.
Proof. unfold header_fields. rewrite !length_app, !length_le_bytes. reflexivity. Qed.

Lemma length_value_as_bytes (val : Z) : length (CRC32C.value_as_bytes val) = 4%nat.
Proof. apply length_le_bytes. Qed.

Lemma length_unescaped_image (f : SerialFrame) :
  length (unescaped_image f) = (36 + length (payload f))%nat.
Proof.
  unfold unescaped_image.
  rewrite !length_app, length_header_fields, !length_value_as_bytes. lia.
Qed.

Lemma compiled_size_bounds (f : SerialFrame) :
  (38 + length (payload f) <= compiled_size f
   <= worst_case_size (length (payload f)))%nat.
Proof.
  unfold compiled_size, worst_case_size, _HEADER_SIZE, _CRC_SIZE_BYTES.
  pose proof (length_escape (unescaped_image f)) as H.
  rewrite length_unescaped_image in H. lia.
Qed.

Lemma Priority_to_int_range (p : Priority) : 0 <= Priority_to_int p <= 7.
Proof. destruct p; cbn; lia. Qed.

Lemma Priority_init_to_int (p : Priority) : Priority_init (Priority_to_int p) = Ok p.
Proof. destruct p; reflexivity. Qed.

Section CodecFacts.

Variable SUBJECT_ID_MASK : Z.

(** Bit 15 of the data specifier word is kept for services: a subject id
    has 15 bits at most. *)
Hypothesis subject_id_15_bits : SUBJECT_ID_MASK < 2 ^ 15.

Lemma data_spec_word_range (ds : DataSpecifier) :
  check_data_specifier SUBJECT_ID_MASK ds = Ok tt ->
  0 <= data_spec_word ds < 2 ^ 16.
Proof.
  destruct ds as [sid | sid role]; cbn [check_data_specifier data_spec_word];
    rewrite raise_if_Ok, negb_false_iff, within_true; intros H.
  - lia.
  - apply lor_bound; [lia | | unfold SERVICE_ID_MASK in H; lia].
    apply lor_bound;
      [lia | rewrite Z.shiftl_1_l; lia | destruct role; rewrite ?Z.shiftl_1_l; lia].
Qed.

Lemma index_eot_range (f : SerialFrame) :
  0 <= index f <= INDEX_MASK ->
  0 <= Z.lor (index f) (if end_of_transfer f then 2 ^ 31 else 0) < 2 ^ 32.
Proof.
  intros H. unfold INDEX_MASK in H.
  apply lor_bound; [lia | lia | destruct (end_of_transfer f); lia].
Qed.

Lemma node_id_word_range (o : option Z) :
  node_id_ok o = true ->
  0 <= match o with Some n => n | None => 0xFFFF end < 2 ^ 16.
Proof.
  destruct o as [n |]; cbn [node_id_ok]; [| lia].
  rewrite within_true. unfold NODE_ID_MASK. lia.
Qed.

Lemma compile_header_valid (f : SerialFrame) :
  valid_frame SUBJECT_ID_MASK f ->
  compile_header f
  = Ok (header_fields f ++ CRC32C.value_as_bytes (CRC32C.new (header_fields f))).
Proof.
  intros [Hds Hpi]. apply post_init_Ok in Hpi.
  pose proof Hpi as Hinv. apply invariants_hold_true in Hinv.
  destruct Hinv as (_ & _ & _ & Hh & Ht & Hi).
  unfold invariants_hold in Hpi. rewrite !andb_true_iff in Hpi.
  destruct Hpi as (((((Hs & Hd) & _) & _) & _) & _).
  apply node_id_word_range in Hs, Hd.
  apply data_spec_word_range in Hds. apply index_eot_range in Hi.
  pose proof (Priority_to_int_range (priority f)) as Hp.
  unfold DATA_TYPE_HASH_MASK in Hh. unfold TRANSFER_ID_MASK in Ht.
  unfold compile_header, _HEADER_WITHOUT_CRC_FORMAT_pack, _ANONYMOUS_NODE_ID.
  change (Z.shiftl 1 31) with (2 ^ 31).
  rewrite !pack_uint_in_range, !bind_Ok
    by (first [ exact Hs | exact Hd | exact Hds | exact Hi
              | unfold _VERSION; cbn; lia | cbn; lia ]).
  fold (header_fields f).
  rewrite length_app, length_header_fields, length_value_as_bytes.
  reflexivity.
Qed.

Lemma compile_into_valid (f : SerialFrame) (out_buffer : list byte) :
  valid_frame SUBJECT_ID_MASK f ->
  (compiled_size f <= length out_buffer)%nat ->
  exists buffer',
    compile_into f out_buffer
    = Ok (buffer',
          FRAME_DELIMITER_BYTE :: escape (unescaped_image f)
            ++ [FRAME_DELIMITER_BYTE])
    /\ length buffer' = length out_buffer.
Proof.
  intros Hvalid Hsize. unfold compile_into.
  rewrite compile_header_valid, bind_Ok by exact Hvalid.
  unfold compiled_size in Hsize.
  set (image := (header_fields f
                 ++ CRC32C.value_as_bytes (CRC32C.new (header_fields f)))
                ++ payload f
                ++ CRC32C.value_as_bytes (CRC32C.new (payload f))).
  assert (image = unescaped_image f) as Himage
    by (unfold image, unescaped_image; rewrite <- app_assoc; reflexivity).
  rewrite <- Himage in *.
  destruct out_buffer as [| x free]; cbn [length] in Hsize; [lia |].
  rewrite (setitem_here [] free x), bind_Ok.
  change ([] ++ FRAME_DELIMITER_BYTE :: free, 1%nat)
    with ([FRAME_DELIMITER_BYTE] ++ free, length [FRAME_DELIMITER_BYTE]).
  rewrite emit_all_app, bind_Ok by lia.
  destruct (drop (length (escape image)) free) as [| y rest] eqn:Hdrop.
  { apply (f_equal length) in Hdrop. rewrite length_drop in Hdrop.
    cbn [length] in Hdrop. lia. }
  rewrite app_assoc.
  replace (length [FRAME_DELIMITER_BYTE] + length (escape image))%nat
    with (length ([FRAME_DELIMITER_BYTE] ++ escape image))
    by (rewrite length_app; reflexivity).
  rewrite setitem_here, bind_Ok.
  rewrite !length_app, !length_value_as_bytes.
  assert (length image <= length (escape image))%nat as Hle
    by apply length_escape.
  unfold image in Hle at 1. rewrite !length_app, !length_value_as_bytes in Hle.
  match goal with
  | |- context [raise_if (negb ?c)] =>
      replace c with true by (symmetry; apply Nat.leb_le; cbn [length]; lia)
  end.
  cbn [negb raise_if]. rewrite bind_Ok.
  eexists. split.
  - f_equal. f_equal.
    replace (S (length [FRAME_DELIMITER_BYTE] + length (escape image)))
      with (length (([FRAME_DELIMITER_BYTE] ++ escape image)
                    ++ [FRAME_DELIMITER_BYTE]))
      by (rewrite !length_app; cbn [length]; lia).
    replace (([FRAME_DELIMITER_BYTE] ++ escape image)
             ++ FRAME_DELIMITER_BYTE :: rest)
      with ((([FRAME_DELIMITER_BYTE] ++ escape image)
             ++ [FRAME_DELIMITER_BYTE]) ++ rest)
      by (rewrite <- !app_assoc; reflexivity).
    rewrite take_app_length, <- app_assoc. reflexivity.
  - apply (f_equal length) in Hdrop. rewrite length_drop in Hdrop.
    rewrite !length_app. cbn [length] in *. lia.
Qed.

End CodecFacts.

(** ** Decoding what was encoded *)

Lemma land_pow2 (a n : Z) :
  0 <= n -> Z.land a (2 ^ n) = if Z.testbit a n then 2 ^ n else 0.
Proof.
  intros Hn. apply Z.bits_inj'. intros m Hm.
  rewrite Z.land_spec, Z.pow2_bits_eqb by lia.
  destruct (Z.eqb_spec n m) as [-> | Hne].
  - destruct (Z.testbit a m); [| rewrite Z.bits_0; reflexivity].
    rewrite Z.pow2_bits_true by lia. reflexivity.
  - rewrite andb_false_r.
    destruct (Z.testbit a n); [| rewrite Z.bits_0; reflexivity].
    rewrite Z.pow2_bits_false by lia. reflexivity.
Qed.

Lemma land_pow2_eqb (a n : Z) :
  0 <= n -> (Z.land a (2 ^ n) =? 0) = negb (Z.testbit a n).
Proof.
  intros Hn. rewrite land_pow2 by exact Hn.
  destruct (Z.testbit a n); [| reflexivity].
  apply Z.eqb_neq. pose proof (Z.pow_pos_nonneg 2 n). lia.
Qed.

Lemma testbit_above (a n m : Z) :
  0 <= n <= m -> 0 <= a < 2 ^ n -> Z.testbit a m = false.
Proof.
  intros Hn Ha. rewrite <- (Z.mod_small a (2 ^ n)) by exact Ha.
  apply Z.mod_pow2_bits_high. lia.
Qed.

Lemma unpack_from_packed (a b c d e f g h : Z) (rest : list byte) :
  0 <= a < 2 ^ 8 -> 0 <= b < 2 ^ 8 -> 0 <= c < 2 ^ 16 -> 0 <= d < 2 ^ 16 ->
  0 <= e < 2 ^ 16 -> 0 <= f < 2 ^ 64 -> 0 <= g < 2 ^ 64 -> 0 <= h < 2 ^ 32 ->
  _HEADER_WITHOUT_CRC_FORMAT_unpack_from
    (le_bytes 1 a ++ le_bytes 1 b ++ le_bytes 2 c ++ le_bytes 2 d
     ++ le_bytes 2 e ++ le_bytes 8 f ++ le_bytes 8 g ++ le_bytes 4 h ++ rest)
  = Ok (a, b, c, d, e, f, g, h).
Proof.
  intros Ha Hb Hc Hd He Hf Hg Hh.
  unfold _HEADER_WITHOUT_CRC_FORMAT_unpack_from.
  rewrite !length_app, !length_le_bytes.
  destruct (Nat.ltb_spec (1 + (1 + (2 + (2 + (2 + (8 + (8 + (4 + length rest))))))))
              28); [lia |].
  set (hdr := le_bytes 1 a ++ _).
  change (slice 0 1 hdr) with (le_bytes 1 a).
  change (slice 1 2 hdr) with (le_bytes 1 b).
  change (slice 2 4 hdr) with (le_bytes 2 c).
  change (slice 4 6 hdr) with (le_bytes 2 d).
  change (slice 6 8 hdr) with (le_bytes 2 e).
  change (slice 8 16 hdr) with (le_bytes 8 f).
  change (slice 16 24 hdr) with (le_bytes 8 g).
  change (slice 24 28 hdr) with (le_bytes 4 h).
  rewrite !le_value_le_bytes by assumption. reflexivity.
Qed.

Lemma service_word_bits (service_id : Z) (role : Role) :
  0 <= service_id <= SERVICE_ID_MASK ->
  let w := data_spec_word (ServiceDataSpecifier service_id role) in
  Z.testbit w 15 = true
  /\ Z.testbit w 14 = match role with RESPONSE => true | REQUEST => false end
  /\ Z.land w SERVICE_ID_MASK = service_id.
Proof.
  unfold SERVICE_ID_MASK. intros Hs. cbn [data_spec_word].
  rewrite !Z.shiftl_1_l.
  assert (Z.testbit service_id 15 = false) as H15
    by (apply (testbit_above _ 9); lia).
  assert (Z.testbit service_id 14 = false) as H14
    by (apply (testbit_above _ 9); lia).
  split; [| split].
  - rewrite !Z.lor_spec, H15. destruct role; reflexivity.
  - rewrite !Z.lor_spec, H14. destruct role; reflexivity.
  - rewrite !Z.land_lor_distr_l.
    change 511 with (Z.ones 9). rewrite (Z.land_ones service_id) by lia.
    rewrite Z.mod_small by lia. destruct role; reflexivity.
Qed.

Lemma index_eot_bits (index : Z) (eot : bool) :
  0 <= index <= INDEX_MASK ->
  let w := Z.lor index (if eot then 2 ^ 31 else 0) in
  Z.land w INDEX_MASK = index /\ Z.testbit w 31 = eot.
Proof.
  unfold INDEX_MASK. intros Hi. cbn zeta. split.
  - rewrite Z.land_lor_distr_l.
    change (2 ^ 31 - 1) with (Z.ones 31). rewrite (Z.land_ones index) by lia.
    rewrite Z.mod_small by lia.
    destruct eot;
      [change (Z.land (2 ^ 31) (Z.ones 31)) with 0
      | change (Z.land 0 (Z.ones 31)) with 0]; apply Z.lor_0_r.
  - rewrite Z.lor_spec, (testbit_above index 31) by lia.
    destruct eot; reflexivity.
Qed.

Section DecodeFacts.

Variable SUBJECT_ID_MASK : Z.

Hypothesis subject_id_15_bits : SUBJECT_ID_MASK < 2 ^ 15.

Lemma decode_node_id (o : option Z) :
  node_id_ok o = true ->
  (if match o with Some n => n | None => 0xFFFF end =? _ANONYMOUS_NODE_ID
   then None
   else Some match o with Some n => n | None => 0xFFFF end) = o.
Proof.
  destruct o as [n |]; cbn [node_id_ok]; [| reflexivity].
  rewrite within_true. unfold NODE_ID_MASK, _ANONYMOUS_NODE_ID. intros H.
  destruct (Z.eqb_spec n 65535); [lia | reflexivity].
Qed.

Lemma decode_data_specifier (ds : DataSpecifier) :
  check_data_specifier SUBJECT_ID_MASK ds = Ok tt ->
  (if Z.land (data_spec_word ds) (Z.shiftl 1 15) =? 0
   then MessageDataSpecifier_init SUBJECT_ID_MASK (data_spec_word ds)
   else
     ServiceDataSpecifier_init SUBJECT_ID_MASK
       (Z.land (data_spec_word ds) SERVICE_ID_MASK)
       (if negb (Z.land (data_spec_word ds) (Z.shiftl 1 14) =? 0)
        then RESPONSE else REQUEST))
  = Ok ds.
Proof.
  intros Hds. rewrite !Z.shiftl_1_l, !land_pow2_eqb by lia.
  destruct ds as [sid | sid role].
  - cbn [data_spec_word].
    pose proof Hds as Hr. cbn [check_data_specifier] in Hr.
    rewrite raise_if_Ok, negb_false_iff, within_true in Hr.
    rewrite (testbit_above sid 15) by lia. cbn [negb].
    unfold MessageDataSpecifier_init. rewrite Hds. reflexivity.
  - pose proof Hds as Hr. cbn [check_data_specifier] in Hr.
    rewrite raise_if_Ok, negb_false_iff, within_true in Hr.
    destruct (service_word_bits sid role Hr) as (H15 & H14 & Hlow).
    rewrite H15, H14, Hlow. cbn [negb].
    unfold ServiceDataSpecifier_init.
    destruct role; cbn [negb]; cbn [check_data_specifier] in *;
      rewrite Hds; reflexivity.
Qed.

(** The decoder gives back the frame whose image it is handed, the
    timestamp being the one of the call. *)
Lemma parse_unescaped_image (f : SerialFrame) (ts : Timestamp) :
  valid_frame SUBJECT_ID_MASK f ->
  parse_from_unescaped_image SUBJECT_ID_MASK (unescaped_image f) ts
  = Ok (Some (set_timestamp ts f)).
Proof.
  intros Hvalid. pose proof Hvalid as [Hds Hpi].
  pose proof Hpi as Hok. apply post_init_Ok in Hok.
  pose proof Hok as Hinv. apply invariants_hold_true in Hinv.
  destruct Hinv as (_ & _ & _ & Hh & Ht & Hi).
  pose proof Hok as Hb. unfold invariants_hold in Hb.
  rewrite !andb_true_iff in Hb. destruct Hb as (((((Hs & Hd) & _) & _) & _) & _).
  unfold parse_from_unescaped_image.
  rewrite length_unescaped_image.
  unfold NUM_OVERHEAD_BYTES_EXCEPT_DELIMITERS_AND_ESCAPING, _HEADER_SIZE,
    _CRC_SIZE_BYTES.
  destruct (Nat.ltb_spec (36 + length (payload f)) (28 + 4 + 4)); [lia |].
  unfold unescaped_image. rewrite app_assoc.
  rewrite take_app_length', drop_app_length'
    by (rewrite length_app, length_header_fields, length_value_as_bytes;
        reflexivity).
  rewrite !CRC32C_facts.residue_of_own_crc. cbn [negb].
  rewrite length_app, length_value_as_bytes, Nat.add_sub, take_app_length.
  unfold header_fields. rewrite <- !app_assoc.
  rewrite unpack_from_packed, bind_Ok;
    [ | unfold _VERSION; lia
      | pose proof (Priority_to_int_range (priority f)); lia
      | apply node_id_word_range, Hs
      | apply node_id_word_range, Hd
      | apply (data_spec_word_range SUBJECT_ID_MASK subject_id_15_bits), Hds
      | unfold DATA_TYPE_HASH_MASK in Hh; lia
      | unfold TRANSFER_ID_MASK in Ht; lia
      | apply index_eot_range, Hi ].
  change (negb (_VERSION =? _VERSION)) with false. cbv iota.
  rewrite !decode_node_id by assumption.
  rewrite decode_data_specifier, bind_Ok by exact Hds.
  rewrite Priority_init_to_int, bind_Ok.
  destruct (index_eot_bits (index f) (end_of_transfer f) Hi) as [Hidx Heot].
  rewrite Z.shiftl_1_l, land_pow2_eqb, negb_involutive, Hidx, Heot by lia.
  unfold SerialFrame_init.
  replace (__post_init__ _) with (__post_init__ f); [rewrite Hpi; reflexivity |].
  reflexivity.
Qed.

End DecodeFacts.

(* ===================================================================== *)
(** * The frame codec: round trip and framing *)
(* ===================================================================== *)

Lemma sample_frame_valid : valid_frame sample_mask sample_frame.
Proof. split; reflexivity. Defined.

Lemma sample_buffer_large_enough :
  (compiled_size sample_frame <= length (repeat x00 1000))%nat.
Proof. vm_compute. lia. Defined.

Lemma sample_mask_15_bits : sample_mask < 2 ^ 15.
Proof. reflexivity. Defined.

(** C1. For every valid frame and every output buffer large enough for the
    compiled frame, [compile_into] returns, and stripping the two delimiters
    of what it returns, undoing the escaping and decoding the image with
    [parse_from_unescaped_image] gives a frame equal to the original in
    every field, the reception timestamp apart (it is the one handed to the
    decoder). The largest subject id, a parameter of the model, fits the 15
    bits that the specifier word leaves to messages. *)
Theorem codec_round_trip (SUBJECT_ID_MASK : Z) (f : SerialFrame)
    (out_buffer : list byte) (ts : Timestamp) :
  SUBJECT_ID_MASK < 2 ^ 15 ->
  valid_frame SUBJECT_ID_MASK f ->
  (compiled_size f <= length out_buffer)%nat ->
  exists buffer' compiled f',
    compile_into f out_buffer = Ok (buffer', compiled)
    /\ parse_from_unescaped_image SUBJECT_ID_MASK
         (unescape (strip_framing compiled)) ts = Ok (Some f')
    /\ same_but_timestamp f f'
    /\ timestamp f' = ts.
Proof.
  intros Hmask Hvalid Hsize.
  destruct (compile_into_valid SUBJECT_ID_MASK Hmask f out_buffer Hvalid Hsize)
    as (buffer' & Hcompile & _).
  exists buffer', (FRAME_DELIMITER_BYTE :: escape (unescaped_image f)
                   ++ [FRAME_DELIMITER_BYTE]), (set_timestamp ts f).
  split; [exact Hcompile |].
  rewrite strip_framing_framed, unescape_escape.
  split; [apply parse_unescaped_image; assumption |].
  split; [repeat split |]; reflexivity.
Qed.

Lemma codec_round_trip_witness :
  exists buffer' compiled f',
    compile_into sample_frame (repeat x00 1000) = Ok (buffer', compiled)
    /\ parse_from_unescaped_image sample_mask
         (unescape (strip_framing compiled)) (mkTimestamp 7 9) = Ok (Some f')
    /\ same_but_timestamp sample_frame f'
    /\ timestamp f' = mkTimestamp 7 9.
Proof.
  exact (codec_round_trip sample_mask sample_frame (repeat x00 1000)
           (mkTimestamp 7 9) sample_mask_15_bits sample_frame_valid
           sample_buffer_large_enough).
Defined.

(** C2. For every valid frame and every buffer large enough, what
    [compile_into] returns begins and ends with the delimiter 0x9E; the
    bytes strictly between hold no 0x9E; every 0x8E among them is followed
    by another of them; and they are the unescaped image (header, payload,
    payload CRC) with each byte 0x9E or 0x8E replaced by the pair 0x8E, the
    byte XOR 0xFF, every other byte standing as it is. Subject ids fit 15
    bits, so that the header packs. *)
Theorem compile_into_framing (SUBJECT_ID_MASK : Z) (f : SerialFrame)
    (out_buffer : list byte) :
  SUBJECT_ID_MASK < 2 ^ 15 ->
  valid_frame SUBJECT_ID_MASK f ->
  (compiled_size f <= length out_buffer)%nat ->
  exists buffer' between,
    compile_into f out_buffer
    = Ok (buffer', byte_of_Z 0x9E :: between ++ [byte_of_Z 0x9E])
    /\ ~ In (byte_of_Z 0x9E) between
    /\ (forall i, nth_error between i = Some (byte_of_Z 0x8E) ->
                  (S i < length between)%nat)
    /\ between
       = flat_map (fun b => if byte_eqb b (byte_of_Z 0x9E)
                               || byte_eqb b (byte_of_Z 0x8E)
                            then [byte_of_Z 0x8E; byte_xor b 0xFF]
                            else [b])
           (unescaped_image f).
Proof.
  intros Hmask Hvalid Hsize.
  destruct (compile_into_valid SUBJECT_ID_MASK Hmask f out_buffer Hvalid Hsize)
    as (buffer' & Hcompile & _).
  exists buffer', (escape (unescaped_image f)).
  split; [exact Hcompile |].
  split; [apply escape_no_delimiter |].
  split; [apply escape_no_dangling | reflexivity].
Qed.

Lemma compile_into_framing_witness :
  exists buffer' between,
    compile_into sample_frame (repeat x00 1000)
    = Ok (buffer', byte_of_Z 0x9E :: between ++ [byte_of_Z 0x9E])
    /\ ~ In (byte_of_Z 0x9E) between
    /\ (forall i, nth_error between i = Some (byte_of_Z 0x8E) ->
                  (S i < length between)%nat)
    /\ between
       = flat_map (fun b => if byte_eqb b (byte_of_Z 0x9E)
                               || byte_eqb b (byte_of_Z 0x8E)
                            then [byte_of_Z 0x8E; byte_xor b 0xFF]
                            else [b])
           (unescaped_image sample_frame).
Proof.
  exact (compile_into_framing sample_mask sample_frame (repeat x00 1000)
           sample_mask_15_bits sample_frame_valid sample_buffer_large_enough).
Defined.

(* ===================================================================== *)
(** * The decoder never raises *)
(* ===================================================================== *)

Lemma slice_take (a b n : nat) (l : list byte) :
  (b <= n)%nat -> slice a b (take n l) = slice a b l.
Proof.
  intros H. unfold slice. rewrite skipn_firstn_comm, take_take.
  f_equal. lia.
Qed.

Lemma length_slice (a b : nat) (l : list byte) :
  (a <= b <= length l)%nat -> length (slice a b l) = (b - a)%nat.
Proof. intros H. unfold slice. rewrite length_take, length_drop. lia. Qed.

Lemma word_at_range (off size : nat) (img : list byte) :
  (off + size <= length img)%nat ->
  0 <= word_at off size img < 256 ^ Z.of_nat size.
Proof.
  intros H. unfold word_at.
  pose proof (le_value_range (slice off (off + size) img)) as Hr.
  rewrite length_slice in Hr by lia.
  replace (off + size - off)%nat with size in Hr by lia. exact Hr.
Qed.

Lemma unpack_from_long (buf : list byte) :
  (28 <= length buf)%nat ->
  _HEADER_WITHOUT_CRC_FORMAT_unpack_from buf
  = Ok (word_at 0 1 buf, word_at 1 1 buf, word_at 2 2 buf, word_at 4 2 buf,
        word_at 6 2 buf, word_at 8 8 buf, word_at 16 8 buf, word_at 24 4 buf).
Proof.
  intros H. unfold _HEADER_WITHOUT_CRC_FORMAT_unpack_from.
  destruct (Nat.ltb_spec (length buf) 28); [lia | reflexivity].
Qed.

Lemma word_at_take (off size n : nat) (l : list byte) :
  (off + size <= n)%nat -> word_at off size (take n l) = word_at off size l.
Proof. intros H. unfold word_at. rewrite slice_take by exact H. reflexivity. Qed.

Lemma Priority_init_cases (n : Z) :
  (exists p, Priority_init n = Ok p /\ n <= 7)
  \/ (Priority_init n = Raise ValueError /\ (n < 0 \/ 7 < n)).
Proof.
  destruct n as [| p | p];
    [ left; eexists; split; [reflexivity | lia]
    |
    | right; split; [reflexivity | left; reflexivity] ].
  destruct (Z.le_gt_cases (Z.pos p) 7) as [Hle | Hgt].
  - left.
    assert (Z.pos p = 1 \/ Z.pos p = 2 \/ Z.pos p = 3 \/ Z.pos p = 4
            \/ Z.pos p = 5 \/ Z.pos p = 6 \/ Z.pos p = 7) as Hp by lia.
    destruct Hp as [Hp | [Hp | [Hp | [Hp | [Hp | [Hp | Hp]]]]]];
      rewrite Hp; eexists; (split; [reflexivity | lia]).
  - right. split; [| lia].
    destruct p as [[[p | p |] | [p | p |] |] | [[p | p |] | [p | p |] |] |];
      try reflexivity; lia.
Qed.


Section DecoderTotal.

Variable SUBJECT_ID_MASK : Z.

(** Every 16-bit word with bit 15 clear is a subject id that the
    constructor of the message specifier accepts. *)
Hypothesis every_15_bit_subject : 32767 <= SUBJECT_ID_MASK.


End DecoderTotal.




(** The bound on the mask cannot be dropped from the theorem above: were
    subject ids 13 bits wide, the image of the frame of the sources' own compilation test
    (subject 12345) would make the constructor of the message specifier
    raise, outside the [try] block. *)
Example narrow_subject_mask_raises :
  parse_from_unescaped_image 8191 (unescaped_image sample_frame)
    (mkTimestamp 7 9) = Raise ValueError.
Proof. vm_compute. reflexivity. Qed.

(* ===================================================================== *)
(** * A flipped bit is detected *)
(* ===================================================================== *)

Lemma flipped_byte_differs (b : byte) (k : Z) :
  0 <= k < 8 -> byte_xor b (Z.shiftl 1 k) <> b.
Proof.
  intros Hk Heq. apply (f_equal byte_to_Z) in Heq. unfold byte_xor in Heq.
  pose proof (byte_to_Z_range b) as Hb.
  rewrite Z.shiftl_1_l in Heq.
  assert (0 < 2 ^ k < 256) as Hp.
  { split; [apply Z.pow_pos_nonneg; lia |].
    change 256 with (2 ^ 8). apply Z.pow_lt_mono_r; lia. }
  rewrite byte_to_of_Z in Heq
    by (apply (lxor_bound 8); [lia | simpl; lia | simpl; lia]).
  assert (Z.lxor (Z.lxor (byte_to_Z b) (2 ^ k)) (byte_to_Z b) = 0) as H0
    by (apply lxor_eq_0; exact Heq).
  replace (Z.lxor (Z.lxor (byte_to_Z b) (2 ^ k)) (byte_to_Z b)) with (2 ^ k) in H0
    by xor_bits.
  lia.
Qed.

Lemma residue_lost (l : list byte) (i : nat) (k : Z) :
  0 <= k < 8 -> (i < length l)%nat ->
  CRC32C.check_residue (CRC32C.new l) = true ->
  CRC32C.check_residue (CRC32C.new (flip_bit i k l)) = false.
Proof.
  intros Hk Hi Hres. unfold flip_bit.
  destruct (lookup_lt_is_Some_2 l i Hi) as [x Hx].
  pose proof (take_drop_middle l i x Hx) as Hsplit.
  assert (length (take i l) = i) as Hlen by (apply length_take_le; lia).
  rewrite <- Hsplit at 1. rewrite <- Hsplit in Hres.
  rewrite <- Hlen at 1.
  rewrite <- (Nat.add_0_r (length (take i l))), alter_app_r. cbn [alter list_alter].
  unfold CRC32C.check_residue in *. apply Z.eqb_eq in Hres. apply Z.eqb_neq.
  rewrite <- Hres.
  apply CRC32C_facts.one_byte_changed, flipped_byte_differs, Hk.
Qed.

(** C4. Whatever image the decoder accepts, the image with any one bit of
    its 32-byte header or of its payload flipped is answered with [None]. *)
Theorem single_bit_flip_rejected (SUBJECT_ID_MASK : Z) (img : list byte)
    (ts : Timestamp) (f : SerialFrame) (i : nat) (k : Z) :
  parse_from_unescaped_image SUBJECT_ID_MASK img ts = Ok (Some f) ->
  (i < length img - 4)%nat ->
  0 <= k < 8 ->
  parse_from_unescaped_image SUBJECT_ID_MASK (flip_bit i k img) ts = Ok None.
Proof.
  intros Hparse Hi Hk. revert Hparse.
  unfold parse_from_unescaped_image,
    NUM_OVERHEAD_BYTES_EXCEPT_DELIMITERS_AND_ESCAPING, _HEADER_SIZE,
    _CRC_SIZE_BYTES.
  change (28 + 4 + 4)%nat with 36%nat. change (28 + 4)%nat with 32%nat.
  assert (length (flip_bit i k img) = length img) as Hlen
    by apply length_alter.
  rewrite Hlen.
  destruct (Nat.ltb_spec (length img) 36) as [Hshort | Hlong];
    [discriminate |].
  destruct (CRC32C.check_residue (CRC32C.new (take 32 img))) eqn:Hhdr;
    cbn [negb]; [| discriminate].
  destruct (CRC32C.check_residue (CRC32C.new (drop 32 img))) eqn:Hpay;
    cbn [negb]; [| discriminate].
  intros _.
  destruct (Nat.lt_ge_cases i 32) as [Hin | Hout].
  - unfold flip_bit at 1. rewrite take_alter_lt by exact Hin.
    fold (flip_bit i k (take 32 img)).
    rewrite residue_lost; [reflexivity | exact Hk | | exact Hhdr].
    rewrite length_take. lia.
  - unfold flip_bit at 1. rewrite take_alter_ge by exact Hout.
    rewrite Hhdr. cbn [negb].
    unfold flip_bit. rewrite drop_alter_ge by exact Hout.
    fold (flip_bit (i - 32) k (drop 32 img)).
    rewrite residue_lost; [reflexivity | exact Hk | | exact Hpay].
    rewrite length_drop. lia.
Qed.

Lemma sample_image_accepted :
  parse_from_unescaped_image sample_mask (unescaped_image sample_frame)
    (mkTimestamp 7 9)
  = Ok (Some (set_timestamp (mkTimestamp 7 9) sample_frame)).
Proof. vm_compute. reflexivity. Defined.

Lemma single_bit_flip_rejected_witness :
  parse_from_unescaped_image sample_mask
    (flip_bit 3 5 (unescaped_image sample_frame)) (mkTimestamp 7 9) = Ok None.
Proof.
  apply (single_bit_flip_rejected sample_mask (unescaped_image sample_frame)
           (mkTimestamp 7 9) (set_timestamp (mkTimestamp 7 9) sample_frame)
           3 5 sample_image_accepted).
  - vm_compute. lia.
  - lia.
Defined.

(* ===================================================================== *)
(** * The invariants of the constructor *)
(* ===================================================================== *)

Lemma node_id_ok_false (o : option Z) :
  node_id_ok o = false <-> exists n, o = Some n /\ ~ 0 <= n <= 4095.
Proof.
  destruct o as [n |]; cbn [node_id_ok].
  - rewrite <- not_true_iff_false, within_true. unfold NODE_ID_MASK.
    split; [intros H; exists n; split; [reflexivity | exact H] |].
    intros (m & [= <-] & H). exact H.
  - split; [discriminate | intros (m & [=] & _)].
Qed.

Lemma within_false (x mask : Z) : within x mask = false <-> ~ 0 <= x < mask + 1.
Proof. rewrite <- not_true_iff_false, within_true. lia. Qed.

Lemma invariants_hold_false (f : SerialFrame) :
  invariants_hold f = false <-> invariant_violated f.
Proof.
  unfold invariants_hold, invariant_violated.
  rewrite !andb_false_iff, !node_id_ok_false, !within_false, negb_false_iff,
    andb_true_iff.
  assert (is_None (source_node_id f) = true <-> source_node_id f = None) as HN
    by (destruct (source_node_id f); cbn; split; congruence).
  rewrite HN. unfold DATA_TYPE_HASH_MASK, TRANSFER_ID_MASK, INDEX_MASK.
  change (2 ^ 64 - 1 + 1) with (2 ^ 64). change (2 ^ 31 - 1 + 1) with (2 ^ 31).
  tauto.
Qed.

(** C5. The construction of a [SerialFrame] raises exactly when an invariant
    is violated -- a source or a destination node id outside 0..4095 (an
    absent one is allowed), a service specifier with an absent source, a
    data type hash or a transfer id outside 0 <= x < 2^64, an index outside
    0 <= x < 2^31 -- and what it raises is [ValueError]; a frame that meets
    all of them is constructed. *)
Theorem construction_fails_exactly (f : SerialFrame) :
  ((exists e, SerialFrame_init f = Raise e) <-> invariant_violated f)
  /\ (SerialFrame_init f = Raise ValueError <-> invariant_violated f)
  /\ (SerialFrame_init f = Ok f <-> ~ invariant_violated f).
Proof.
  unfold SerialFrame_init. rewrite post_init_cases.
  rewrite <- invariants_hold_false.
  destruct (invariants_hold f); cbn [mbind result_bind].
  - split; [| split].
    + split; [intros [e [=]] | discriminate].
    + split; discriminate.
    + split; [discriminate | reflexivity].
  - split; [| split].
    + split; [reflexivity | intros _; exists ValueError; reflexivity].
    + split; reflexivity.
    + split; [discriminate | intros H; exfalso; apply H; reflexivity].
Qed.

(* ===================================================================== *)
(** * Receive routing *)
(* ===================================================================== *)

Lemma route_to_lookup (frame : SerialFrame)
    (registry : gmap SessionSpecifier SerialInputSession)
    (source : option Z) (ss : SessionSpecifier) :
  route_to frame registry source !! ss
  = if decide (ss = (data_specifier frame, source))
    then (fun session => _process_frame session frame) <$> registry !! ss
    else registry !! ss.
Proof.
  unfold route_to.
  destruct (decide (ss = (data_specifier frame, source))) as [-> | Hne].
  - destruct (registry !! (data_specifier frame, source)) as [session |] eqn:E.
    + rewrite lookup_insert_eq. reflexivity.
    + rewrite E. reflexivity.
  - destruct (registry !! (data_specifier frame, source)) as [session |] eqn:E.
    + rewrite lookup_insert_ne by congruence. reflexivity.
    + reflexivity.
Qed.

Lemma accepts_true (t : SerialTransport) (frame : SerialFrame) :
  accepts t frame = true
  <-> destination_node_id frame = _local_node_id t
      \/ destination_node_id frame = None.
Proof.
  unfold accepts. rewrite orb_true_iff, !bool_decide_eq_true. reflexivity.
Qed.

(** C6. A frame whose destination is the local node id or is absent is
    handed, once, to each existing input session keyed by its data
    specifier with its source or with the absent source -- two keys at most
    -- and to no other; no session is created. A frame with any other
    destination is handed to no session. This holds in whichever order the
    set of the two sources is visited. *)
Theorem routing_of_received_frames (none_first : bool) (t : SerialTransport)
    (frame : SerialFrame) :
  let t' := _handle_received_frame none_first t frame in
  ((destination_node_id frame = _local_node_id t
    \/ destination_node_id frame = None) ->
   forall ss,
     _input_registry t' !! ss
     = match _input_registry t !! ss with
       | Some session =>
           Some (if decide (routed_to frame ss)
                 then _process_frame session frame
                 else session)
       | None => None
       end)
  /\ (~ (destination_node_id frame = _local_node_id t
         \/ destination_node_id frame = None) ->
      _input_registry t' = _input_registry t).
Proof.
  cbn zeta. unfold _handle_received_frame.
  set (t1 := update_statistics (add_in_frames 1) t).
  assert (accepts t1 frame = accepts t frame) as Hacc by reflexivity.
  rewrite Hacc. split.
  - intros Hdest. apply accepts_true in Hdest. rewrite Hdest.
    intros ss. cbn [_input_registry set_input_registry].
    change (_input_registry t1) with (_input_registry t).
    destruct (decide (routed_to frame ss)) as [Hr | Hr]; unfold routed_to in Hr;
      unfold source_node_ids;
      (destruct (source_node_id frame) as [n |];
       [destruct none_first |]); cbn [fold_left]; rewrite !route_to_lookup;
      repeat case_decide;
      destruct (_input_registry t !! ss) as [session |];
      cbn [fmap option_fmap option_map];
      try reflexivity; exfalso; intuition congruence.
  - intros Hdest. rewrite <- accepts_true, not_true_iff_false in Hdest.
    rewrite Hdest. reflexivity.
Qed.

(** C10. Every frame handed to [_handle_received_frame] raises [in_frames]
    by exactly one, also a frame whose destination is neither the local
    node id nor absent and that reaches no session; no other counter
    moves. *)
Theorem in_frames_counts_received (none_first : bool) (t : SerialTransport)
    (frame : SerialFrame) :
  let t' := _handle_received_frame none_first t frame in
  _statistics t' = add_in_frames 1 (_statistics t)
  /\ in_frames (_statistics t') = in_frames (_statistics t) + 1
  /\ (accepts t frame = false ->
      _input_registry t' = _input_registry t
      /\ in_frames (_statistics t') = in_frames (_statistics t) + 1).
Proof.
  cbn zeta. unfold _handle_received_frame.
  set (t1 := update_statistics (add_in_frames 1) t).
  assert (accepts t1 frame = accepts t frame) as Hacc by reflexivity.
  rewrite Hacc.
  destruct (accepts t frame); repeat split; try reflexivity; discriminate.
Qed.

(* ===================================================================== *)
(** * The serialization buffer *)
(* ===================================================================== *)

Lemma setitem_length (buf buf' : list byte) (i : nat) (v : byte) :
  setitem buf i v = Ok buf' -> length buf' = length buf.
Proof.
  unfold setitem. destruct (i <? length buf)%nat; [| discriminate].
  intros [= <-]. apply length_insert.
Qed.

Lemma emit_length (buf buf' : list byte) (i i' : nat) (nb : byte) :
  emit (buf, i) nb = Ok (buf', i') -> length buf' = length buf.
Proof.
  unfold emit. destruct (is_escapee nb).
  - destruct (setitem buf i ESCAPE_PREFIX_BYTE) as [b1 |] eqn:E1; [| discriminate].
    rewrite bind_Ok.
    destruct (setitem b1 (S i) (byte_xor nb 255)) as [b2 |] eqn:E2; [| discriminate].
    rewrite bind_Ok. intros [= <- <-].
    apply setitem_length in E1, E2. congruence.
  - destruct (setitem buf i nb) as [b1 |] eqn:E1; [| discriminate].
    rewrite bind_Ok. intros [= <- <-]. apply setitem_length in E1. exact E1.
Qed.

Lemma emit_all_length (bytes buf buf' : list byte) (i i' : nat) :
  emit_all (buf, i) bytes = Ok (buf', i') -> length buf' = length buf.
Proof.
  revert buf i. induction bytes as [| nb rest IH]; intros buf i.
  - intros [= <- <-]. reflexivity.
  - cbn [emit_all]. destruct (emit (buf, i) nb) as [[b1 i1] |] eqn:E;
      [| discriminate].
    rewrite bind_Ok. intros H. apply IH in H. apply emit_length in E. congruence.
Qed.

Lemma compile_into_length (f : SerialFrame) (buf buf' compiled : list byte) :
  compile_into f buf = Ok (buf', compiled) -> length buf' = length buf.
Proof.
  unfold compile_into.
  destruct (compile_header f) as [header |]; [| discriminate]. rewrite bind_Ok.
  destruct (setitem buf 0 FRAME_DELIMITER_BYTE) as [b1 |] eqn:E1;
    [| discriminate]. rewrite bind_Ok.
  destruct (emit_all (b1, 1%nat) _) as [[b2 i2] |] eqn:E2; [| discriminate].
  rewrite bind_Ok.
  destruct (setitem b2 i2 FRAME_DELIMITER_BYTE) as [b3 |] eqn:E3;
    [| discriminate]. rewrite bind_Ok.
  destruct (raise_if _ AssertionError); [| discriminate]. rewrite bind_Ok.
  intros [= <- _].
  apply setitem_length in E1, E3. apply emit_all_length in E2. congruence.
Qed.

Lemma enlarge_buffer_length (payload_length : nat) (buffer : list byte) :
  (length buffer <= length (enlarge_buffer payload_length buffer))%nat
  /\ (payload_length * 3 <= length (enlarge_buffer payload_length buffer))%nat.
Proof.
  unfold enlarge_buffer.
  destruct (Nat.ltb_spec (length buffer) (payload_length * 3));
    rewrite ?repeat_length; lia.
Qed.

Lemma send_frame_buffer (t : SerialTransport) (tx_ts : option Timestamp)
    (fr : SerialFrame) (io : FrameIO) :
  buffer_invariant t -> buffer_invariant (fst (send_frame t tx_ts fr io)).
Proof.
  unfold buffer_invariant, send_frame. intros Hinv.
  pose proof (enlarge_buffer_length (length (payload fr))
                (_serialization_buffer t)) as [Hge _].
  cbn [_serialization_buffer set_serialization_buffer].
  destruct (compile_into fr _) as [[buffer compiled] |] eqn:E.
  - apply compile_into_length in E.
    destruct (budget_left io); [| cbn; lia].
    destruct (closed_meanwhile io), (write_outcome io) as [[n |] now | |];
      unfold account_frame;
      repeat match goal with
             | |- context [if ?c then _ else _] => destruct c
             end; cbn; lia.
  - cbn. lia.
Qed.

Lemma send_loop_buffer (frames : list (SerialFrame * FrameIO))
    (t : SerialTransport) (tx_ts : option Timestamp) :
  buffer_invariant t -> buffer_invariant (fst (send_loop t tx_ts frames)).
Proof.
  revert t tx_ts. induction frames as [| [fr io] rest IH]; intros t tx_ts Hinv;
    [exact Hinv |].
  cbn [send_loop].
  pose proof (send_frame_buffer t tx_ts fr io Hinv) as Hstep.
  destruct (send_frame t tx_ts fr io) as [t' [[[] tx'] | e]]; cbn [fst] in *.
  - apply IH, Hstep.
  - exact Hstep.
  - exact Hstep.
Qed.

Lemma send_transfer_buffer (frames : list (SerialFrame * FrameIO))
    (t : SerialTransport) :
  buffer_invariant t -> buffer_invariant (fst (_send_transfer t frames)).
Proof.
  intros Hinv. unfold _send_transfer.
  destruct (_ensure_not_closed t); [| exact Hinv].
  pose proof (send_loop_buffer frames t None Hinv) as Hloop.
  destruct (send_loop t None frames) as [t' [[ts |] | e]]; exact Hloop.
Qed.

Lemma close_sessions_frame
    (fin : SessionSpecifier -> SerialTransport -> result SerialTransport)
    (keys : list SessionSpecifier) (t : SerialTransport) :
  (forall s t t', fin s t = Ok t' -> same_but_registries t t') ->
  same_but_registries t (fold_left (close_session fin) keys t).
Proof.
  intros Hfin. revert t. induction keys as [| k keys IH]; intros t.
  - repeat split.
  - cbn [fold_left]. specialize (IH (close_session fin t k)).
    assert (same_but_registries t (close_session fin t k)) as Hstep.
    { unfold close_session. destruct (fin k t) as [t' |] eqn:E.
      - apply (Hfin _ _ _ E).
      - repeat split. }
    unfold same_but_registries in *.
    destruct IH as (? & ? & ? & ? & ?), Hstep as (? & ? & ? & ? & ?).
    repeat split; congruence.
Qed.

Lemma input_finalizer_frame (s : SessionSpecifier) (t t' : SerialTransport) :
  input_finalizer s t = Ok t' -> same_but_registries t t'.
Proof.
  unfold input_finalizer. destruct (_input_registry t !! s); [| discriminate].
  intros [= <-]. repeat split.
Qed.

Lemma output_finalizer_frame (s : SessionSpecifier) (t t' : SerialTransport) :
  output_finalizer s t = Ok t' -> same_but_registries t t'.
Proof.
  unfold output_finalizer. destruct (_output_registry t !! s); [| discriminate].
  intros [= <-]. repeat split.
Qed.

(** [close] marks the engine closed and closes the port; the buffer, the
    counters and the node id stay. *)
Lemma close_effect (t : SerialTransport) :
  exists t',
    close t = Ok t' /\ _closed t' = true /\ port_is_open t' = false
    /\ _serialization_buffer t' = _serialization_buffer t
    /\ _statistics t' = _statistics t.
Proof.
  unfold close. eexists. split; [reflexivity |].
  set (t1 := set_closed true t).
  set (t2 := fold_left (close_session input_finalizer) _ t1).
  set (t3 := fold_left (close_session output_finalizer) _ t2).
  assert (same_but_registries t1 t2) as H12
    by apply close_sessions_frame, input_finalizer_frame.
  assert (same_but_registries t2 t3) as H23
    by apply close_sessions_frame, output_finalizer_frame.
  destruct H12 as (C12 & B12 & S12 & P12 & _), H23 as (C23 & B23 & S23 & P23 & _).
  destruct (port_is_open t3) eqn:Hport;
    cbn [_closed port_is_open _serialization_buffer _statistics set_port_is_open];
    repeat split; try congruence.
  all: try (rewrite C23, C12; reflexivity).
  all: try (rewrite B23, B12; reflexivity).
  all: try (rewrite S23, S12; reflexivity).
Qed.

Lemma run_buffer (t : SerialTransport) (op : operation) :
  buffer_invariant t -> buffer_invariant (fst (run t op)).
Proof.
  intros Hinv. destruct op; cbn [run fst].
  - destruct (close_effect t) as (t' & -> & _ & _ & Hb & _).
    unfold buffer_invariant, after, id in *. rewrite Hb. exact Hinv.
  - unfold get_input_session. destruct (_ensure_not_closed t); [| exact Hinv].
    rewrite bind_Ok. destruct (_input_registry t !! specifier); exact Hinv.
  - unfold get_output_session. destruct (_ensure_not_closed t); [| exact Hinv].
    rewrite bind_Ok. destruct (_output_registry t !! specifier); exact Hinv.
  - exact Hinv.
  - exact Hinv.
  - pose proof (send_transfer_buffer frames t Hinv) as H.
    destruct (_send_transfer t frames). exact H.
  - destruct (input_finalizer specifier t) as [t' |] eqn:E; [| exact Hinv].
    apply input_finalizer_frame in E as (_ & Hb & _).
    unfold buffer_invariant, after, id in *. rewrite Hb. exact Hinv.
  - destruct (output_finalizer specifier t) as [t' |] eqn:E; [| exact Hinv].
    apply output_finalizer_frame in E as (_ & Hb & _).
    unfold buffer_invariant, after, id in *. rewrite Hb. exact Hinv.
  - unfold _handle_received_item_and_update_stats.
    destruct item; unfold _handle_received_frame;
      repeat match goal with
             | |- context [if ?c then _ else _] => destruct c
             end; exact Hinv.
  - exact Hinv.
Qed.

Lemma run_all_buffer (ops : list operation) (t : SerialTransport) :
  buffer_invariant t -> buffer_invariant (run_all t ops).
Proof.
  revert t. induction ops as [| op ops IH]; intros t Hinv; [exact Hinv |].
  cbn [run_all fold_left]. apply IH, run_buffer, Hinv.
Qed.

Lemma init_buffer (port_open : bool) (node : option Z) (mtu multiplier : Z)
    (t : SerialTransport) :
  SerialTransport_init port_open node mtu multiplier = Ok t ->
  buffer_invariant t /\ _closed t = false.
Proof.
  unfold SerialTransport_init.
  repeat match goal with
         | |- context [raise_if ?c ?e] => destruct (raise_if c e); [| discriminate]
         end.
  rewrite !bind_Ok.
  remember (repeat x00 INITIAL_BUFFER_SIZE) as initial eqn:Hinitial.
  intros [= <-]. split; [| reflexivity].
  unfold buffer_invariant. cbn [_serialization_buffer].
  rewrite Hinitial, repeat_length. lia.
Qed.

(** C9. Whatever the engine has done since its construction, the growth
    rule of the send path leaves, for a payload of [P] bytes, a buffer of at
    least 2 + 2 (32 + P + 4) bytes, the largest size a compiled frame can
    have: [compile_into] on that buffer returns and never indexes past its
    end. The frame is a valid one, subject ids fitting 15 bits. *)
Theorem serialization_buffer_suffices (SUBJECT_ID_MASK : Z)
    (node : option Z) (mtu multiplier : Z) (t0 : SerialTransport)
    (ops : list operation) (f : SerialFrame) :
  SUBJECT_ID_MASK < 2 ^ 15 ->
  SerialTransport_init true node mtu multiplier = Ok t0 ->
  valid_frame SUBJECT_ID_MASK f ->
  let buffer := enlarge_buffer (length (payload f))
                  (_serialization_buffer (run_all t0 ops)) in
  (2 + 2 * (32 + length (payload f) + 4) <= length buffer)%nat
  /\ (compiled_size f <= worst_case_size (length (payload f)))%nat
  /\ exists buffer' compiled,
       compile_into f buffer = Ok (buffer', compiled).
Proof.
  intros Hmask Hinit Hvalid buffer.
  apply init_buffer in Hinit as [Hinv _].
  apply (run_all_buffer ops) in Hinv. unfold buffer_invariant in Hinv.
  pose proof (enlarge_buffer_length (length (payload f))
                (_serialization_buffer (run_all t0 ops))) as [Hge Hthree].
  fold buffer in Hge, Hthree. unfold INITIAL_BUFFER_SIZE in Hinv.
  pose proof (compiled_size_bounds f) as [_ Hworst].
  assert (2 + 2 * (32 + length (payload f) + 4) <= length buffer)%nat as Hfit
    by lia.
  split; [exact Hfit |]. split; [exact Hworst |].
  destruct (compile_into_valid SUBJECT_ID_MASK Hmask f buffer Hvalid)
    as (buffer' & Hcompile & _).
  - unfold worst_case_size, _HEADER_SIZE, _CRC_SIZE_BYTES in Hworst. lia.
  - eauto.
Qed.

(* ===================================================================== *)
(** * The life cycle *)
(* ===================================================================== *)

Lemma ensure_not_closed_closed (t : SerialTransport) :
  _closed t = true -> _ensure_not_closed t = Raise ResourceClosedError.
Proof. intros H. unfold _ensure_not_closed. rewrite H. reflexivity. Qed.

Lemma ensure_not_closed_open (t : SerialTransport) :
  _closed t = false -> _ensure_not_closed t = Ok tt.
Proof. intros H. unfold _ensure_not_closed. rewrite H. reflexivity. Qed.

Lemma handle_received_closed (none_first : bool) (t : SerialTransport)
    (item : received_item) (in_bytes_count : Z) :
  _closed (fst (_handle_received_item_and_update_stats none_first t item
                  in_bytes_count)) = _closed t.
Proof.
  unfold _handle_received_item_and_update_stats.
  destruct item; unfold _handle_received_frame;
    repeat match goal with
           | |- context [if ?c then _ else _] => destruct c
           end; reflexivity.
Qed.

Lemma run_closed (t : SerialTransport) (op : operation) :
  _closed t = true -> _closed (fst (run t op)) = true.
Proof.
  intros Hc. destruct op; cbn [run fst].
  - destruct (close_effect t) as (t' & -> & Hc' & _). exact Hc'.
  - unfold get_input_session. rewrite ensure_not_closed_closed by exact Hc.
    exact Hc.
  - unfold get_output_session. rewrite ensure_not_closed_closed by exact Hc.
    exact Hc.
  - exact Hc.
  - exact Hc.
  - unfold _send_transfer. rewrite ensure_not_closed_closed by exact Hc.
    exact Hc.
  - destruct (input_finalizer specifier t) as [t' |] eqn:E; [| exact Hc].
    apply input_finalizer_frame in E as (Hc' & _).
    unfold after, id. congruence.
  - destruct (output_finalizer specifier t) as [t' |] eqn:E; [| exact Hc].
    apply output_finalizer_frame in E as (Hc' & _).
    unfold after, id. congruence.
  - rewrite handle_received_closed. exact Hc.
  - reflexivity.
Qed.

Lemma run_all_closed (ops : list operation) (t : SerialTransport) :
  _closed t = true -> _closed (run_all t ops) = true.
Proof.
  revert t. induction ops as [| op ops IH]; intros t Hc; [exact Hc |].
  cbn [run_all fold_left]. apply IH, run_closed, Hc.
Qed.

(** A failed write alone does not close the engine: the flag after
    [_send_transfer] is set only if it was marked closed meanwhile. *)
Lemma send_frame_stays_open (t : SerialTransport) (tx_ts : option Timestamp)
    (fr : SerialFrame) (io : FrameIO) :
  closed_meanwhile io = false ->
  _closed (fst (send_frame t tx_ts fr io)) = _closed t.
Proof.
  intros Hm. unfold send_frame. rewrite Hm.
  destruct (compile_into fr _) as [[buffer compiled] |]; [| reflexivity].
  destruct (budget_left io); [| reflexivity].
  destruct (write_outcome io) as [[n |] now | |]; unfold account_frame;
    repeat match goal with
           | |- context [if ?c then _ else _] => destruct c
           end; reflexivity.
Qed.

Lemma send_loop_stays_open (frames : list (SerialFrame * FrameIO))
    (t : SerialTransport) (tx_ts : option Timestamp) :
  Forall (fun x => closed_meanwhile (snd x) = false) frames ->
  _closed (fst (send_loop t tx_ts frames)) = _closed t.
Proof.
  revert t tx_ts. induction frames as [| [fr io] rest IH]; intros t tx_ts Hall;
    [reflexivity |].
  apply Forall_cons_iff in Hall as [Hio Hrest]. cbn [snd] in Hio.
  cbn [send_loop].
  pose proof (send_frame_stays_open t tx_ts fr io Hio) as Hstep.
  destruct (send_frame t tx_ts fr io) as [t' [[[] tx'] | e]]; cbn [fst] in *.
  - rewrite IH by exact Hrest. exact Hstep.
  - exact Hstep.
  - exact Hstep.
Qed.

Lemma send_transfer_stays_open (frames : list (SerialFrame * FrameIO))
    (t : SerialTransport) :
  Forall (fun x => closed_meanwhile (snd x) = false) frames ->
  _closed (fst (_send_transfer t frames)) = _closed t.
Proof.
  intros Hall. unfold _send_transfer.
  destruct (_ensure_not_closed t); [| reflexivity].
  pose proof (send_loop_stays_open frames t None Hall) as Hloop.
  destruct (send_loop t None frames) as [t' [[ts |] | e]]; exact Hloop.
Qed.

(** *** [close] empties the registries, and a second [close] changes
    nothing *)

Lemma lookup_delete_all {V : Type} (keys : list SessionSpecifier)
    (m : gmap SessionSpecifier V) (k : SessionSpecifier) :
  fold_left (fun m k => delete k m) keys m !! k
  = if decide (k ∈ keys) then None else m !! k.
Proof.
  revert m. induction keys as [| k' keys IH]; intros m; cbn [fold_left].
  - destruct (decide (k ∈ [])) as [H | _]; [| reflexivity].
    apply elem_of_nil in H. contradiction.
  - rewrite IH.
    destruct (decide (k ∈ keys)) as [Hin | Hout].
    + destruct (decide (k ∈ k' :: keys)) as [_ | H]; [reflexivity |].
      exfalso. apply H. right. exact Hin.
    + destruct (decide (k = k')) as [-> | Hne].
      * rewrite lookup_delete_eq.
        destruct (decide (k' ∈ k' :: keys)) as [_ | H]; [reflexivity |].
        exfalso. apply H. left.
      * rewrite lookup_delete_ne by congruence.
        destruct (decide (k ∈ k' :: keys)) as [H | _]; [| reflexivity].
        apply elem_of_cons in H as [H | H]; congruence.
Qed.

Lemma delete_all_keys {V : Type} (m : gmap SessionSpecifier V) :
  fold_left (fun m k => delete k m) (map fst (map_to_list m)) m = ∅.
Proof.
  apply map_empty. intros k. rewrite lookup_delete_all.
  destruct (decide (k ∈ map fst (map_to_list m))) as [_ | Hout];
    [reflexivity |].
  destruct (m !! k) as [v |] eqn:E; [| reflexivity].
  exfalso. apply Hout. apply list_elem_of_In, in_map_iff.
  exists (k, v). split; [reflexivity |].
  apply list_elem_of_In, elem_of_map_to_list, E.
Qed.

Lemma set_input_registry_same (t : SerialTransport) :
  set_input_registry (_input_registry t) t = t.
Proof. destruct t. reflexivity. Qed.

Lemma set_output_registry_same (t : SerialTransport) :
  set_output_registry (_output_registry t) t = t.
Proof. destruct t. reflexivity. Qed.

Lemma close_input_session (t : SerialTransport) (k : SessionSpecifier) :
  close_session input_finalizer t k
  = set_input_registry (delete k (_input_registry t)) t.
Proof.
  unfold close_session, input_finalizer.
  destruct (_input_registry t !! k) eqn:E; [reflexivity |].
  rewrite delete_id by exact E. symmetry. apply set_input_registry_same.
Qed.

Lemma close_output_session (t : SerialTransport) (k : SessionSpecifier) :
  close_session output_finalizer t k
  = set_output_registry (delete k (_output_registry t)) t.
Proof.
  unfold close_session, output_finalizer.
  destruct (_output_registry t !! k) eqn:E; [reflexivity |].
  rewrite delete_id by exact E. symmetry. apply set_output_registry_same.
Qed.

Lemma close_input_sessions (keys : list SessionSpecifier) (t : SerialTransport) :
  fold_left (close_session input_finalizer) keys t
  = set_input_registry
      (fold_left (fun m k => delete k m) keys (_input_registry t)) t.
Proof.
  revert t. induction keys as [| k keys IH]; intros t; cbn [fold_left].
  - symmetry. apply set_input_registry_same.
  - rewrite IH, close_input_session. destruct t. reflexivity.
Qed.

Lemma close_output_sessions (keys : list SessionSpecifier) (t : SerialTransport) :
  fold_left (close_session output_finalizer) keys t
  = set_output_registry
      (fold_left (fun m k => delete k m) keys (_output_registry t)) t.
Proof.
  revert t. induction keys as [| k keys IH]; intros t; cbn [fold_left].
  - symmetry. apply set_output_registry_same.
  - rewrite IH, close_output_session. destruct t. reflexivity.
Qed.

(** The engine that [close] leaves: marked closed, no session registered,
    the port closed. *)
Lemma close_result (t : SerialTransport) :
  close t
  = Ok (mkSerialTransport (_service_transfer_multiplier t) (_mtu t)
          (_local_node_id t) true (_serialization_buffer t) ∅ ∅
          (_statistics t) false).
Proof.
  unfold close. rewrite close_input_sessions, close_output_sessions.
  cbn [_input_registry _output_registry set_closed set_input_registry
         set_output_registry].
  rewrite !delete_all_keys. destruct t as [m u n c b i o s p].
  destruct p; reflexivity.
Qed.

Lemma close_twice (t t1 : SerialTransport) :
  close t = Ok t1 -> close t1 = Ok t1.
Proof.
  rewrite close_result. intros [= <-]. rewrite close_result. reflexivity.
Qed.

Lemma closed_engine_is_closed : _closed closed_engine = true.
Proof. reflexivity. Defined.

(** C8, as stated, fails: on a closed engine [sample_statistics], a public
    operation other than [close], returns the counters and raises
    nothing. *)
Lemma sample_statistics_on_closed_engine :
  _closed closed_engine = true
  /\ public_operation OpSampleStatistics = true
  /\ sample_statistics closed_engine = Ok (mkStatistics 0 0 0 0 0 0 0)
  /\ snd (run closed_engine OpSampleStatistics) <> Raise ResourceClosedError.
Proof. repeat split. discriminate. Qed.

(** C8, amended. Once the engine is closed -- by [close()] or by a failure
    of the reader -- no sequence of operations opens it again, and
    [get_input_session], [get_output_session] and [_send_transfer] raise
    [ResourceClosedError] and change nothing; [sample_statistics] still
    returns the counters; [close()] called again returns without error and
    changes nothing. A failed write does not by itself close the
    engine. *)
Theorem closed_is_terminal (t : SerialTransport) :
  _closed t = true ->
  (forall ops, _closed (run_all t ops) = true)
  /\ (forall specifier,
        get_input_session t specifier = Raise ResourceClosedError)
  /\ (forall specifier,
        get_output_session t specifier = Raise ResourceClosedError)
  /\ (forall frames,
        _send_transfer t frames = (t, Raise ResourceClosedError))
  /\ sample_statistics t = Ok (_statistics t)
  /\ (exists t', close t = Ok t' /\ _closed t' = true)
  /\ (forall t0, exists t1,
        close t0 = Ok t1 /\ _closed t1 = true /\ close t1 = Ok t1)
  /\ (forall t0, _closed (reader_failure t0) = true)
  /\ (forall t0 frames,
        _closed t0 = false ->
        Forall (fun x => closed_meanwhile (snd x) = false) frames ->
        _closed (fst (_send_transfer t0 frames)) = false).
Proof.
  intros Hc. repeat split.
  - intros ops. apply run_all_closed, Hc.
  - intros specifier. unfold get_input_session.
    rewrite ensure_not_closed_closed by exact Hc. reflexivity.
  - intros specifier. unfold get_output_session.
    rewrite ensure_not_closed_closed by exact Hc. reflexivity.
  - intros frames. unfold _send_transfer.
    rewrite ensure_not_closed_closed by exact Hc. reflexivity.
  - destruct (close_effect t) as (t' & H1 & H2 & _). eauto.
  - intros t0. destruct (close_effect t0) as (t1 & H1 & H2 & _).
    exists t1. split; [exact H1 |]. split; [exact H2 |].
    apply (close_twice t0), H1.
  - intros t0 frames Hopen Hall.
    rewrite send_transfer_stays_open by exact Hall. exact Hopen.
Qed.

Lemma closed_is_terminal_witness :
  (forall ops, _closed (run_all closed_engine ops) = true)
  /\ (forall specifier,
        get_input_session closed_engine specifier = Raise ResourceClosedError)
  /\ (forall specifier,
        get_output_session closed_engine specifier = Raise ResourceClosedError)
  /\ (forall frames,
        _send_transfer closed_engine frames
        = (closed_engine, Raise ResourceClosedError))
  /\ sample_statistics closed_engine = Ok (_statistics closed_engine)
  /\ (exists t', close closed_engine = Ok t' /\ _closed t' = true)
  /\ (forall t0, exists t1,
        close t0 = Ok t1 /\ _closed t1 = true /\ close t1 = Ok t1)
  /\ (forall t0, _closed (reader_failure t0) = true)
  /\ (forall t0 frames,
        _closed t0 = false ->
        Forall (fun x => closed_meanwhile (snd x) = false) frames ->
        _closed (fst (_send_transfer t0 frames)) = false).
Proof. exact (closed_is_terminal closed_engine closed_engine_is_closed). Defined.

(* ===================================================================== *)
(** * The send path *)
(* ===================================================================== *)

Section SendPath.

Variable SUBJECT_ID_MASK : Z.

Hypothesis subject_id_15_bits : SUBJECT_ID_MASK < 2 ^ 15.

Lemma compile_in_send (t : SerialTransport) (fr : SerialFrame) :
  valid_frame SUBJECT_ID_MASK fr ->
  buffer_invariant t ->
  exists buffer' compiled,
    compile_into fr (enlarge_buffer (length (payload fr))
                       (_serialization_buffer t))
    = Ok (buffer', compiled)
    /\ Z.of_nat (length compiled) = compiled_length fr
    /\ (INITIAL_BUFFER_SIZE <= length buffer')%nat.
Proof.
  intros Hvalid Hinv. unfold buffer_invariant, INITIAL_BUFFER_SIZE in *.
  pose proof (enlarge_buffer_length (length (payload fr))
                (_serialization_buffer t)) as [Hge Hthree].
  pose proof (compiled_size_bounds fr) as [_ Hworst].
  unfold worst_case_size, _HEADER_SIZE, _CRC_SIZE_BYTES in Hworst.
  destruct (compile_into_valid SUBJECT_ID_MASK subject_id_15_bits fr
              (enlarge_buffer (length (payload fr)) (_serialization_buffer t))
              Hvalid ltac:(lia)) as (buffer' & Hcompile & Hlen).
  eexists _, _. split; [exact Hcompile |]. split; [| lia].
  unfold compiled_length, compiled_size. f_equal.
  cbn [length]. rewrite length_app. cbn [length]. lia.
Qed.




End SendPath.



Lemma open_engine_constructed :
  SerialTransport_init true (Some 42) 1024 2 = Ok open_engine.
Proof. reflexivity. Defined.

Lemma open_engine_is_open : _closed open_engine = false.
Proof. reflexivity. Defined.

Lemma open_engine_buffer : buffer_invariant open_engine.
Proof.
  unfold buffer_invariant, open_engine. cbn [_serialization_buffer].
  rewrite repeat_length. apply le_n.
Defined.





Lemma serialization_buffer_suffices_witness :
  let buffer := enlarge_buffer (length (payload sample_frame))
                  (_serialization_buffer
                     (run_all open_engine
                        [OpSendTransfer [(sample_frame, full_write)]; OpClose])) in
  (2 + 2 * (32 + length (payload sample_frame) + 4) <= length buffer)%nat
  /\ (compiled_size sample_frame
      <= worst_case_size (length (payload sample_frame)))%nat
  /\ exists buffer' compiled,
       compile_into sample_frame buffer = Ok (buffer', compiled).
Proof.
  exact (serialization_buffer_suffices sample_mask (Some 42) 1024 2 open_engine
           [OpSendTransfer [(sample_frame, full_write)]; OpClose] sample_frame
           sample_mask_15_bits open_engine_constructed sample_frame_valid).
Defined.


(* ===================================================================== *)
(** * More on the frame codec *)
(* ===================================================================== *)

Lemma bind_Raise {A B : Type} (e : exn) (k : A -> result B) :
  (Raise e ≫= k) = Raise e.
Proof. reflexivity. Qed.

Lemma emit_all_short (bytes pre free : list byte) :
  (length free < length (escape bytes))%nat ->
  emit_all (pre ++ free, length pre) bytes = Raise IndexError.
Proof.
  revert pre free. induction bytes as [| nb rest IH]; intros pre free Hlen.
  - cbn in Hlen. lia.
  - unfold escape in *. cbn [emit_all flat_map] in *.
    unfold emit, escape_byte in *.
    destruct (is_escapee nb) eqn:E; cbn [app length] in *.
    + destruct free as [| x [| y free]]; cbn [length] in Hlen.
      * rewrite setitem_past_end by (rewrite length_app; cbn [length]; lia).
        reflexivity.
      * rewrite setitem_here, bind_Ok.
        rewrite setitem_past_end by (rewrite length_app; cbn [length]; lia).
        reflexivity.
      * rewrite setitem_here, bind_Ok.
        replace (pre ++ ESCAPE_PREFIX_BYTE :: y :: free)
          with ((pre ++ [ESCAPE_PREFIX_BYTE]) ++ y :: free)
          by (rewrite <- app_assoc; reflexivity).
        replace (S (length pre)) with (length (pre ++ [ESCAPE_PREFIX_BYTE]))
          by (rewrite length_app; cbn [length]; lia).
        rewrite setitem_here, !bind_Ok.
        replace ((pre ++ [ESCAPE_PREFIX_BYTE]) ++ byte_xor nb 255 :: free)
          with ((pre ++ [ESCAPE_PREFIX_BYTE; byte_xor nb 255]) ++ free)
          by (rewrite <- !app_assoc; reflexivity).
        replace (S (length (pre ++ [ESCAPE_PREFIX_BYTE])))
          with (length (pre ++ [ESCAPE_PREFIX_BYTE; byte_xor nb 255]))
          by (rewrite !length_app; cbn [length]; lia).
        rewrite IH by lia. reflexivity.
    + destruct free as [| x free]; cbn [length] in Hlen.
      * rewrite setitem_past_end by (rewrite length_app; cbn [length]; lia).
        reflexivity.
      * rewrite setitem_here, !bind_Ok.
        replace (pre ++ nb :: free) with ((pre ++ [nb]) ++ free)
          by (rewrite <- app_assoc; reflexivity).
        replace (S (length pre)) with (length (pre ++ [nb]))
          by (rewrite length_app; cbn [length]; lia).
        rewrite IH by lia. reflexivity.
Qed.

Section CodecEdges.

Variable SUBJECT_ID_MASK : Z.

Hypothesis subject_id_15_bits : SUBJECT_ID_MASK < 2 ^ 15.

Lemma compile_into_short (f : SerialFrame) (out_buffer : list byte) :
  valid_frame SUBJECT_ID_MASK f ->
  (length out_buffer < compiled_size f)%nat ->
  compile_into f out_buffer = Raise IndexError.
Proof.
  intros Hvalid Hsize. unfold compile_into.
  rewrite (compile_header_valid SUBJECT_ID_MASK subject_id_15_bits), bind_Ok
    by exact Hvalid.
  unfold compiled_size in Hsize.
  set (image := (header_fields f
                 ++ CRC32C.value_as_bytes (CRC32C.new (header_fields f)))
                ++ payload f
                ++ CRC32C.value_as_bytes (CRC32C.new (payload f))).
  assert (image = unescaped_image f) as Himage
    by (unfold image, unescaped_image; rewrite <- app_assoc; reflexivity).
  rewrite <- Himage in *.
  destruct out_buffer as [| x free]; cbn [length] in Hsize.
  { rewrite setitem_past_end by (cbn [length]; lia). reflexivity. }
  rewrite (setitem_here [] free x), bind_Ok.
  change ([] ++ FRAME_DELIMITER_BYTE :: free, 1%nat)
    with ([FRAME_DELIMITER_BYTE] ++ free, length [FRAME_DELIMITER_BYTE]).
  destruct (Nat.lt_ge_cases (length free) (length (escape image)))
    as [Hshort | Hfit].
  - rewrite emit_all_short by exact Hshort. reflexivity.
  - rewrite emit_all_app, bind_Ok by exact Hfit.
    rewrite setitem_past_end; [reflexivity |].
    rewrite !length_app, length_drop. cbn [length]. lia.
Qed.

Lemma compile_into_exact (f : SerialFrame) (out_buffer : list byte) :
  valid_frame SUBJECT_ID_MASK f ->
  (compiled_size f <= length out_buffer)%nat ->
  compile_into f out_buffer
  = Ok ((FRAME_DELIMITER_BYTE :: escape (unescaped_image f)
           ++ [FRAME_DELIMITER_BYTE])
        ++ drop (compiled_size f) out_buffer,
        FRAME_DELIMITER_BYTE :: escape (unescaped_image f)
          ++ [FRAME_DELIMITER_BYTE]).
Proof.
  intros Hvalid Hsize. unfold compile_into.
  rewrite (compile_header_valid SUBJECT_ID_MASK subject_id_15_bits), bind_Ok
    by exact Hvalid.
  unfold compiled_size in *.
  set (image := (header_fields f
                 ++ CRC32C.value_as_bytes (CRC32C.new (header_fields f)))
                ++ payload f
                ++ CRC32C.value_as_bytes (CRC32C.new (payload f))).
  assert (image = unescaped_image f) as Himage
    by (unfold image, unescaped_image; rewrite <- app_assoc; reflexivity).
  rewrite <- Himage in *.
  destruct out_buffer as [| x free]; cbn [length] in Hsize; [lia |].
  rewrite (setitem_here [] free x), bind_Ok.
  change ([] ++ FRAME_DELIMITER_BYTE :: free, 1%nat)
    with ([FRAME_DELIMITER_BYTE] ++ free, length [FRAME_DELIMITER_BYTE]).
  rewrite emit_all_app, bind_Ok by lia.
  replace (2 + length (escape image))%nat
    with (S (S (length (escape image)))) by lia.
  cbn [drop].
  replace (drop (S (length (escape image))) free)
    with (drop 1 (drop (length (escape image)) free))
    by (rewrite drop_drop; f_equal; lia).
  destruct (drop (length (escape image)) free) as [| y rest] eqn:Hdrop.
  { apply (f_equal length) in Hdrop. rewrite length_drop in Hdrop.
    cbn [length] in Hdrop. lia. }
  cbn [drop]. rewrite app_assoc.
  replace (length [FRAME_DELIMITER_BYTE] + length (escape image))%nat
    with (length ([FRAME_DELIMITER_BYTE] ++ escape image))
    by (rewrite length_app; reflexivity).
  rewrite setitem_here, bind_Ok.
  rewrite !length_app, !length_value_as_bytes.
  assert (length image <= length (escape image))%nat as Hle
    by apply length_escape.
  unfold image in Hle at 1. rewrite !length_app, !length_value_as_bytes in Hle.
  match goal with
  | |- context [raise_if (negb ?c)] =>
      replace c with true by (symmetry; apply Nat.leb_le; cbn [length]; lia)
  end.
  cbn [negb raise_if]. rewrite bind_Ok.
  replace (S (length [FRAME_DELIMITER_BYTE] + length (escape image)))
    with (length (([FRAME_DELIMITER_BYTE] ++ escape image)
                  ++ [FRAME_DELIMITER_BYTE]))
    by (rewrite !length_app; cbn [length]; lia).
  replace (([FRAME_DELIMITER_BYTE] ++ escape image)
           ++ FRAME_DELIMITER_BYTE :: rest)
    with ((([FRAME_DELIMITER_BYTE] ++ escape image)
           ++ [FRAME_DELIMITER_BYTE]) ++ rest)
    by (rewrite <- !app_assoc; reflexivity).
  rewrite take_app_length, <- !app_assoc. cbn [app drop].
  rewrite <- app_assoc. reflexivity.
Qed.

End CodecEdges.

Lemma length_escape_escapees (l : list byte) :
  length (escape l) = (length l + escapees l)%nat.
Proof.
  unfold escape, escapees. induction l as [| b l IH]; [reflexivity |].
  cbn [flat_map List.filter]. rewrite length_app, IH. unfold escape_byte.
  destruct (is_escapee b); cbn [length]; lia.
Qed.

Lemma escapees_le (l : list byte) : (escapees l <= length l)%nat.
Proof.
  unfold escapees. induction l as [| b l IH]; [reflexivity |].
  cbn [List.filter]. destruct (is_escapee b); cbn [length]; lia.
Qed.

Lemma lor_disjoint_bit (a n : Z) :
  0 <= n -> 0 <= a < 2 ^ n -> Z.lor a (2 ^ n) = a + 2 ^ n.
Proof.
  intros Hn Ha.
  assert (Z.land a (2 ^ n) = 0) as H.
  { rewrite land_pow2 by exact Hn.
    destruct (Z.testbit a n) eqn:E; [| reflexivity].
    rewrite (testbit_above a n n) in E by lia. discriminate. }
  rewrite <- (Z.lxor_lor _ _ H). symmetry. apply Z.add_nocarry_lxor, H.
Qed.

Lemma data_spec_word_arith (ds : DataSpecifier) :
  match ds with
  | MessageDataSpecifier _ => True
  | ServiceDataSpecifier service_id _ => 0 <= service_id <= SERVICE_ID_MASK
  end ->
  data_spec_word ds = specifier_word ds.
Proof.
  destruct ds as [sid | sid role]; cbn [data_spec_word specifier_word];
    [reflexivity |].
  unfold SERVICE_ID_MASK. intros H. rewrite !Z.shiftl_1_l.
  destruct role.
  - rewrite Z.lor_0_r, Z.lor_comm, lor_disjoint_bit by lia. lia.
  - rewrite <- Z.lor_assoc, (Z.lor_comm (2 ^ 14)), lor_disjoint_bit by lia.
    rewrite Z.lor_comm, lor_disjoint_bit by lia. lia.
Qed.

Lemma check_service_id (SUBJECT_ID_MASK : Z) (ds : DataSpecifier) :
  check_data_specifier SUBJECT_ID_MASK ds = Ok tt ->
  match ds with
  | MessageDataSpecifier _ => True
  | ServiceDataSpecifier service_id _ => 0 <= service_id <= SERVICE_ID_MASK
  end.
Proof.
  destruct ds as [sid | sid role]; cbn [check_data_specifier]; [trivial |].
  rewrite raise_if_Ok, negb_false_iff, within_true. trivial.
Qed.

Lemma word_at_app_l (off size : nat) (a b : list byte) :
  (off + size <= length a)%nat -> word_at off size (a ++ b) = word_at off size a.
Proof.
  intros H. unfold word_at, slice.
  rewrite drop_app_le by lia. rewrite take_app_le; [reflexivity |].
  rewrite length_drop. lia.
Qed.

Lemma word_at_app_r (off size : nat) (a b : list byte) :
  (length a <= off)%nat ->
  word_at off size (a ++ b) = word_at (off - length a) size b.
Proof.
  intros H. unfold word_at, slice. rewrite drop_app_ge by exact H.
  replace (off + size - off)%nat with (off - length a + size - (off - length a))%nat
    by lia.
  reflexivity.
Qed.

Lemma word_at_value_as_bytes (val : Z) (rest : list byte) :
  0 <= val < 2 ^ 32 ->
  word_at 0 4 (CRC32C.value_as_bytes val ++ rest) = CRC32C.value val.
Proof.
  intros H. rewrite word_at_app_l by (rewrite length_value_as_bytes; lia).
  unfold word_at, slice, CRC32C.value_as_bytes. cbn [Nat.sub Nat.add].
  rewrite drop_0, take_ge by (rewrite length_le_bytes; lia).
  apply le_value_le_bytes. unfold CRC32C.value, CRC32C.OUTPUT_XOR.
  change (256 ^ Z.of_nat 4) with (2 ^ 32).
  apply lxor_bound; lia.
Qed.

Section WireFormat.

Variable SUBJECT_ID_MASK : Z.

Hypothesis subject_id_15_bits : SUBJECT_ID_MASK < 2 ^ 15.

Lemma unescaped_image_layout (f : SerialFrame) :
  valid_frame SUBJECT_ID_MASK f ->
  let image := unescaped_image f in
  length image = (36 + length (payload f))%nat
  /\ word_at 0 1 image = 0
  /\ word_at 1 1 image = Priority_to_int (priority f)
  /\ word_at 2 2 image = node_id_word (source_node_id f)
  /\ word_at 4 2 image = node_id_word (destination_node_id f)
  /\ word_at 6 2 image = specifier_word (data_specifier f)
  /\ word_at 8 8 image = data_type_hash f
  /\ word_at 16 8 image = transfer_id f
  /\ word_at 24 4 image
     = index f + (if end_of_transfer f then 2 ^ 31 else 0)
  /\ word_at 28 4 image = CRC32C.value (CRC32C.new (take 28 image))
  /\ take (length (payload f)) (drop 32 image) = payload f
  /\ word_at (32 + length (payload f)) 4 image
     = CRC32C.value (CRC32C.new (payload f)).
Proof.
  intros [Hds Hpost] image.
  rewrite post_init_Ok, invariants_hold_true in Hpost.
  destruct Hpost as (Hsrc & Hdst & _ & Hhash & Htid & Hindex).
  assert (node_id_ok (source_node_id f) = true) as Hs.
  { destruct (source_node_id f) as [n |]; [| reflexivity].
    apply within_true, Hsrc. reflexivity. }
  assert (node_id_ok (destination_node_id f) = true) as Hd.
  { destruct (destination_node_id f) as [n |]; [| reflexivity].
    apply within_true, Hdst. reflexivity. }
  split; [apply length_unescaped_image |].
  assert (_HEADER_WITHOUT_CRC_FORMAT_unpack_from image
          = Ok (0, Priority_to_int (priority f),
                node_id_word (source_node_id f),
                node_id_word (destination_node_id f),
                data_spec_word (data_specifier f), data_type_hash f,
                transfer_id f,
                Z.lor (index f) (if end_of_transfer f then 2 ^ 31 else 0)))
    as Hunpack.
  { unfold image, unescaped_image, header_fields. rewrite <- !app_assoc.
    apply unpack_from_packed.
    - unfold _VERSION. lia.
    - pose proof (Priority_to_int_range (priority f)). lia.
    - apply node_id_word_range, Hs.
    - apply node_id_word_range, Hd.
    - apply (data_spec_word_range SUBJECT_ID_MASK subject_id_15_bits), Hds.
    - unfold DATA_TYPE_HASH_MASK in Hhash. lia.
    - unfold TRANSFER_ID_MASK in Htid. lia.
    - apply index_eot_range, Hindex. }
  rewrite unpack_from_long in Hunpack
    by (unfold image; rewrite length_unescaped_image; lia).
  injection Hunpack as H1 H2 H4 H6 H8 H16 H24.
  rewrite H1, H2, H4, H6, H8, H16, H24.
  split; [reflexivity |]. repeat split.
  - apply data_spec_word_arith, (check_service_id SUBJECT_ID_MASK), Hds.
  - destruct (end_of_transfer f); [| rewrite Z.lor_0_r; lia].
    apply lor_disjoint_bit; unfold INDEX_MASK in Hindex; lia.
  - unfold image, unescaped_image.
    rewrite word_at_app_r by (rewrite length_header_fields; lia).
    rewrite length_header_fields. change (28 - 28)%nat with 0%nat.
    rewrite word_at_value_as_bytes by apply CRC32C_facts.new_range.
    f_equal.
  - unfold image, unescaped_image. rewrite !app_assoc, <- app_assoc.
    rewrite drop_app_length'
      by (rewrite length_app, length_header_fields, length_value_as_bytes;
          reflexivity).
    apply take_app_length.
  - unfold image, unescaped_image. rewrite !app_assoc.
    rewrite word_at_app_r
      by (rewrite !length_app, length_header_fields, length_value_as_bytes; lia).
    rewrite !length_app, length_header_fields, length_value_as_bytes.
    replace (32 + length (payload f) - (28 + 4 + length (payload f)))%nat
      with 0%nat by lia.
    rewrite <- (app_nil_r (CRC32C.value_as_bytes _)).
    apply word_at_value_as_bytes, CRC32C_facts.new_range.
Qed.

(** X1. On a valid frame [compile_into] raises [IndexError] exactly when
    the buffer is shorter than the compiled frame, delimiters and escape
    bytes counted: the buffer is never written past its end, and a buffer of
    the compiled size is enough. Subject ids fit 15 bits. *)
Theorem compile_into_index_error (f : SerialFrame) (out_buffer : list byte) :
  valid_frame SUBJECT_ID_MASK f ->
  (compile_into f out_buffer = Raise IndexError
   <-> (length out_buffer < compiled_size f)%nat)
  /\ ((exists buffer' compiled,
         compile_into f out_buffer = Ok (buffer', compiled))
      <-> (compiled_size f <= length out_buffer)%nat).
Proof.
  intros Hvalid.
  destruct (Nat.lt_ge_cases (length out_buffer) (compiled_size f))
    as [Hshort | Hfit].
  - pose proof (compile_into_short SUBJECT_ID_MASK subject_id_15_bits
                  f out_buffer Hvalid Hshort) as Hraise.
    split; split; intros H; try assumption; try lia.
    destruct H as (b & c & H). congruence.
  - pose proof (compile_into_exact SUBJECT_ID_MASK subject_id_15_bits
                  f out_buffer Hvalid Hfit) as Hok.
    split; split; intros H; try assumption; try lia.
    + congruence.
    + eauto.
Qed.

(** X2. [compile_into] writes the compiled frame at the head of the buffer
    and nothing else: the buffer keeps its length, the bytes past the
    compiled frame are the ones it held before, and the view returned is
    that head, as long as the compiled frame. The frame is valid and the
    buffer large enough. *)
Theorem compile_into_keeps_tail (f : SerialFrame) (out_buffer : list byte) :
  valid_frame SUBJECT_ID_MASK f ->
  (compiled_size f <= length out_buffer)%nat ->
  exists buffer' compiled,
    compile_into f out_buffer = Ok (buffer', compiled)
    /\ buffer' = compiled ++ drop (length compiled) out_buffer
    /\ length buffer' = length out_buffer
    /\ length compiled = compiled_size f
    /\ forall i, (length compiled <= i)%nat -> buffer' !! i = out_buffer !! i.
Proof.
  intros Hvalid Hfit.
  pose proof (compile_into_exact SUBJECT_ID_MASK subject_id_15_bits
                f out_buffer Hvalid Hfit) as Hok.
  set (compiled := FRAME_DELIMITER_BYTE :: escape (unescaped_image f)
                     ++ [FRAME_DELIMITER_BYTE]) in *.
  assert (length compiled = compiled_size f) as Hlen.
  { unfold compiled, compiled_size. cbn [length]. rewrite length_app.
    cbn [length]. lia. }
  exists (compiled ++ drop (compiled_size f) out_buffer), compiled.
  split; [exact Hok |]. rewrite Hlen.
  split; [reflexivity |]. split; [| split; [reflexivity |]].
  - rewrite length_app, length_drop. lia.
  - intros i Hi. rewrite lookup_app_r by lia. rewrite lookup_drop.
    f_equal. lia.
Qed.

(** X3. The compiled frame of a valid frame with a payload of [P] bytes has
    38 + P bytes and one more for each byte 0x9E or 0x8E among the header,
    the payload and the two CRCs; so it has between 38 + P and 74 + 2 P
    bytes, and the assertion that closes [compile_into] holds. *)
Theorem compiled_frame_length (f : SerialFrame) (out_buffer : list byte) :
  valid_frame SUBJECT_ID_MASK f ->
  (compiled_size f <= length out_buffer)%nat ->
  exists buffer' compiled image,
    compile_into f out_buffer = Ok (buffer', compiled)
    /\ compiled = FRAME_DELIMITER_BYTE :: escape image ++ [FRAME_DELIMITER_BYTE]
    /\ length image = (36 + length (payload f))%nat
    /\ length compiled = (38 + length (payload f) + escapees image)%nat
    /\ (38 + length (payload f) <= length compiled
        <= 74 + 2 * length (payload f))%nat.
Proof.
  intros Hvalid Hfit.
  pose proof (compile_into_exact SUBJECT_ID_MASK subject_id_15_bits
                f out_buffer Hvalid Hfit) as Hok.
  eexists _, _, (unescaped_image f). split; [exact Hok |].
  split; [reflexivity |].
  pose proof (length_unescaped_image f) as Himage.
  pose proof (escapees_le (unescaped_image f)) as Hle.
  split; [exact Himage |].
  cbn [length]. rewrite length_app, length_escape_escapees. cbn [length].
  lia.
Qed.

(** X4. The bytes that [compile_into] puts between the delimiters are the
    escaped form of an image laid out as follows, integers little-endian:
    byte 0 the version 0; byte 1 the priority; bytes 2-3 the source and 4-5
    the destination node id, 0xFFFF for an absent one; bytes 6-7 the subject
    id, or the service id with bit 15 set and bit 14 set for a response;
    bytes 8-15 the data type hash; 16-23 the transfer id; 24-27 the index
    with bit 31 set on the last frame; 28-31 the CRC-32C of bytes 0-27;
    then the payload and the CRC-32C of the payload. *)
Theorem compiled_frame_layout (f : SerialFrame) (out_buffer : list byte) :
  valid_frame SUBJECT_ID_MASK f ->
  (compiled_size f <= length out_buffer)%nat ->
  exists buffer' image,
    compile_into f out_buffer
    = Ok (buffer',
          FRAME_DELIMITER_BYTE :: escape image ++ [FRAME_DELIMITER_BYTE])
    /\ length image = (36 + length (payload f))%nat
    /\ word_at 0 1 image = 0
    /\ word_at 1 1 image = Priority_to_int (priority f)
    /\ word_at 2 2 image = node_id_word (source_node_id f)
    /\ word_at 4 2 image = node_id_word (destination_node_id f)
    /\ word_at 6 2 image = specifier_word (data_specifier f)
    /\ word_at 8 8 image = data_type_hash f
    /\ word_at 16 8 image = transfer_id f
    /\ word_at 24 4 image
       = index f + (if end_of_transfer f then 2 ^ 31 else 0)
    /\ word_at 28 4 image = CRC32C.value (CRC32C.new (take 28 image))
    /\ take (length (payload f)) (drop 32 image) = payload f
    /\ word_at (32 + length (payload f)) 4 image
       = CRC32C.value (CRC32C.new (payload f)).
Proof.
  intros Hvalid Hfit.
  pose proof (compile_into_exact SUBJECT_ID_MASK subject_id_15_bits
                f out_buffer Hvalid Hfit) as Hok.
  eexists _, (unescaped_image f). split; [exact Hok |].
  apply unescaped_image_layout, Hvalid.
Qed.

End WireFormat.

(** ** What the decoder reads, and what it raises *)

Lemma Priority_init_inv (n : Z) (p : Priority) :
  Priority_init n = Ok p -> Priority_to_int p = n.
Proof.
  intros H.
  destruct (Priority_init_cases n) as [(q & Hq & Hle) | (Hr & _)];
    [| congruence].
  destruct n as [| m | m]; [| | discriminate].
  - injection H as <-. reflexivity.
  - assert (Z.pos m = 1 \/ Z.pos m = 2 \/ Z.pos m = 3 \/ Z.pos m = 4
            \/ Z.pos m = 5 \/ Z.pos m = 6 \/ Z.pos m = 7) as Hm by lia.
    destruct Hm as [Hm | [Hm | [Hm | [Hm | [Hm | [Hm | Hm]]]]]];
      rewrite Hm in *; injection H as <-; reflexivity.
Qed.

Section DecoderFields.

Variable SUBJECT_ID_MASK : Z.

Lemma parse_cases (img : list byte) (ts : Timestamp) :
  (parse_from_unescaped_image SUBJECT_ID_MASK img ts = Ok None
   /\ ~ passes_integrity img)
  \/ (passes_integrity img
      /\ parse_from_unescaped_image SUBJECT_ID_MASK img ts
         = if negb (Z.testbit (word_at 6 2 img) 15)
              && negb (within (word_at 6 2 img) SUBJECT_ID_MASK)
           then Raise ValueError
           else match Priority_init (word_at 1 1 img) with
                | Ok prio =>
                    if invariants_hold (decoded_frame img ts prio)
                    then Ok (Some (decoded_frame img ts prio))
                    else Ok None
                | Raise _ => Ok None
                end).
Proof.
  unfold parse_from_unescaped_image, passes_integrity,
    NUM_OVERHEAD_BYTES_EXCEPT_DELIMITERS_AND_ESCAPING, _HEADER_SIZE,
    _CRC_SIZE_BYTES.
  change (28 + 4 + 4)%nat with 36%nat. change (28 + 4)%nat with 32%nat.
  destruct (Nat.ltb_spec (length img) 36) as [Hshort | Hlong].
  { left. split; [reflexivity | lia]. }
  destruct (CRC32C.check_residue (CRC32C.new (take 32 img))) eqn:Hhdr;
    cbn [negb]; [| left; split; [reflexivity | intuition congruence]].
  destruct (CRC32C.check_residue (CRC32C.new (drop 32 img))) eqn:Hpay;
    cbn [negb]; [| left; split; [reflexivity | intuition congruence]].
  rewrite unpack_from_long, bind_Ok by (rewrite length_take; lia).
  rewrite !word_at_take by lia.
  destruct (Z.eqb_spec (word_at 0 1 img) _VERSION) as [Hv | Hv]; cbn [negb];
    [| left; split; [reflexivity | unfold _VERSION in Hv; intuition congruence]].
  right. split; [repeat split; try assumption |].
  pose proof (word_at_range 6 2 img ltac:(lia)) as R6.
  pose proof (word_at_range 8 8 img ltac:(lia)) as R8.
  pose proof (word_at_range 16 8 img ltac:(lia)) as R16.
  rewrite !Z.shiftl_1_l, !land_pow2_eqb by lia.
  assert (forall prio ds,
            ds = decoded_specifier (word_at 6 2 img) ->
            mkSerialFrame ts prio
              (if word_at 2 2 img =? _ANONYMOUS_NODE_ID
               then None else Some (word_at 2 2 img))
              (if word_at 4 2 img =? _ANONYMOUS_NODE_ID
               then None else Some (word_at 4 2 img))
              ds (word_at 8 8 img) (word_at 16 8 img)
              (Z.land (word_at 24 4 img) INDEX_MASK)
              (negb (negb (Z.testbit (word_at 24 4 img) 31)))
              (take (length (drop 32 img) - 4) (drop 32 img))
            = decoded_frame img ts prio) as Hframe.
  { intros prio ds ->. unfold decoded_frame, decoded_node_id, _ANONYMOUS_NODE_ID.
    rewrite negb_involutive, length_drop.
    replace (length img - 32 - 4)%nat with (length img - 36)%nat by lia.
    unfold INDEX_MASK. change (2 ^ 31 - 1) with (Z.ones 31).
    rewrite Z.land_ones by lia. reflexivity. }
  assert (forall ds,
            ds = decoded_specifier (word_at 6 2 img) ->
            except_ValueError
              (prio ← Priority_init (word_at 1 1 img);
               f ← SerialFrame_init
                     (mkSerialFrame ts prio
                        (if word_at 2 2 img =? _ANONYMOUS_NODE_ID
                         then None else Some (word_at 2 2 img))
                        (if word_at 4 2 img =? _ANONYMOUS_NODE_ID
                         then None else Some (word_at 4 2 img))
                        ds (word_at 8 8 img) (word_at 16 8 img)
                        (Z.land (word_at 24 4 img) INDEX_MASK)
                        (negb (negb (Z.testbit (word_at 24 4 img) 31)))
                        (take (length (drop 32 img) - 4) (drop 32 img)));
               Ok (Some f))
              (Ok None)
            = match Priority_init (word_at 1 1 img) with
              | Ok prio =>
                  if invariants_hold (decoded_frame img ts prio)
                  then Ok (Some (decoded_frame img ts prio))
                  else Ok None
              | Raise _ => Ok None
              end) as Hrest.
  { intros ds Hds.
    destruct (Priority_init_cases (word_at 1 1 img))
      as [(p & Hp & _) | (Hp & _)]; rewrite Hp; [| reflexivity].
    rewrite bind_Ok, (Hframe p ds Hds). unfold SerialFrame_init.
    rewrite post_init_cases.
    destruct (invariants_hold (decoded_frame img ts p)); reflexivity. }
  unfold decoded_specifier in Hrest.
  destruct (Z.testbit (word_at 6 2 img) 15) eqn:H15; cbn [negb andb].
  - unfold ServiceDataSpecifier_init.
    replace (check_data_specifier SUBJECT_ID_MASK _) with (Ok tt).
    + rewrite !bind_Ok. apply Hrest. rewrite negb_involutive.
      unfold SERVICE_ID_MASK. change 511 with (Z.ones 9).
      rewrite Z.land_ones by lia. reflexivity.
    + symmetry. cbn [check_data_specifier].
      apply raise_if_Ok, negb_false_iff, within_true.
      unfold SERVICE_ID_MASK. change 511 with (Z.ones 9).
      rewrite Z.land_ones by lia.
      pose proof (Z.mod_pos_bound (word_at 6 2 img) (2 ^ 9) ltac:(lia)) as Hm.
      change (2 ^ 9) with 512 in *. change (Z.ones 9) with 511. lia.
  - unfold MessageDataSpecifier_init. cbn [check_data_specifier].
    destruct (within (word_at 6 2 img) SUBJECT_ID_MASK); cbn [negb raise_if].
    + rewrite !bind_Ok. apply Hrest. reflexivity.
    + reflexivity.
Qed.

End DecoderFields.

Lemma parse_Some_inv (SUBJECT_ID_MASK : Z) (img : list byte) (ts : Timestamp)
    (f : SerialFrame) :
  parse_from_unescaped_image SUBJECT_ID_MASK img ts = Ok (Some f) ->
  passes_integrity img
  /\ (exists prio,
        Priority_init (word_at 1 1 img) = Ok prio
        /\ f = decoded_frame img ts prio)
  /\ valid_frame SUBJECT_ID_MASK f.
Proof.
  intros Hparse.
  destruct (parse_cases SUBJECT_ID_MASK img ts) as [[Hnone _] | [Hint Hcase]];
    [congruence |].
  split; [exact Hint |]. rewrite Hcase in Hparse. clear Hcase.
  destruct (negb (Z.testbit (word_at 6 2 img) 15)
            && negb (within (word_at 6 2 img) SUBJECT_ID_MASK)) eqn:Hmsg;
    [discriminate |].
  destruct (Priority_init (word_at 1 1 img)) as [prio |] eqn:Hprio;
    [| discriminate].
  destruct (invariants_hold (decoded_frame img ts prio)) eqn:Hinv;
    [| discriminate].
  injection Hparse as <-.
  split; [exists prio; split; reflexivity |].
  split; [| rewrite post_init_cases, Hinv; reflexivity].
  unfold decoded_frame. cbn [data_specifier]. unfold decoded_specifier.
  destruct (Z.testbit (word_at 6 2 img) 15); cbn [negb andb] in Hmsg;
    cbn [check_data_specifier]; apply raise_if_Ok.
  - apply negb_false_iff, within_true. unfold SERVICE_ID_MASK.
    pose proof (Z.mod_pos_bound (word_at 6 2 img) (2 ^ 9) ltac:(lia)) as Hm.
    change (2 ^ 9) with 512 in *. lia.
  - exact Hmsg.
Qed.

(** X5. A frame that [parse_from_unescaped_image] returns holds the
    timestamp handed in and the fields of the image, integers
    little-endian: the priority from byte 1; the source from bytes 2-3 and
    the destination from bytes 4-5, 0xFFFF read as absent; from bytes 6-7
    the subject id, or with bit 15 set a service id of the low 9 bits, a
    response with bit 14 set and a request otherwise; the data type hash
    from bytes 8-15; the transfer id from 16-23; from bytes 24-27 the index
    in the low 31 bits and the end-of-transfer flag in bit 31; the payload
    is the image without its 32-byte header and its last 4 bytes. *)
Theorem decoded_frame_fields (SUBJECT_ID_MASK : Z) (img : list byte)
    (ts : Timestamp) (f : SerialFrame) :
  parse_from_unescaped_image SUBJECT_ID_MASK img ts = Ok (Some f) ->
  timestamp f = ts
  /\ Priority_to_int (priority f) = word_at 1 1 img
  /\ source_node_id f = decoded_node_id (word_at 2 2 img)
  /\ destination_node_id f = decoded_node_id (word_at 4 2 img)
  /\ data_specifier f = decoded_specifier (word_at 6 2 img)
  /\ data_type_hash f = word_at 8 8 img
  /\ transfer_id f = word_at 16 8 img
  /\ index f = word_at 24 4 img mod 2 ^ 31
  /\ end_of_transfer f = Z.testbit (word_at 24 4 img) 31
  /\ payload f = take (length img - 36) (drop 32 img)
  /\ length (payload f) = (length img - 36)%nat.
Proof.
  intros Hparse.
  destruct (parse_Some_inv _ _ _ _ Hparse)
    as ((Hlen & _) & (prio & Hprio & ->) & _).
  unfold decoded_frame. cbn.
  repeat split; try reflexivity.
  - apply Priority_init_inv, Hprio.
  - rewrite length_take, length_drop. lia.
Qed.

Lemma decoded_frame_fields_witness :
  let img := unescaped_image sample_frame in
  let f := set_timestamp (mkTimestamp 7 9) sample_frame in
  timestamp f = mkTimestamp 7 9
  /\ Priority_to_int (priority f) = word_at 1 1 img
  /\ source_node_id f = decoded_node_id (word_at 2 2 img)
  /\ destination_node_id f = decoded_node_id (word_at 4 2 img)
  /\ data_specifier f = decoded_specifier (word_at 6 2 img)
  /\ data_type_hash f = word_at 8 8 img
  /\ transfer_id f = word_at 16 8 img
  /\ index f = word_at 24 4 img mod 2 ^ 31
  /\ end_of_transfer f = Z.testbit (word_at 24 4 img) 31
  /\ payload f = take (length img - 36) (drop 32 img)
  /\ length (payload f) = (length img - 36)%nat.
Proof.
  exact (decoded_frame_fields sample_mask (unescaped_image sample_frame)
           (mkTimestamp 7 9) (set_timestamp (mkTimestamp 7 9) sample_frame)
           sample_image_accepted).
Defined.

(** X6. Every frame that the decoder returns is one that the encoder
    takes: [compile_into] compiles it into any buffer large enough, and
    what it compiled, its delimiters stripped and its escaping undone,
    decodes to the same frame again, whatever image the frame was first read
    from. Subject ids fit 15 bits. *)
Theorem accepted_frame_recompiles (SUBJECT_ID_MASK : Z) (img : list byte)
    (ts ts' : Timestamp) (f : SerialFrame) (out_buffer : list byte) :
  SUBJECT_ID_MASK < 2 ^ 15 ->
  parse_from_unescaped_image SUBJECT_ID_MASK img ts = Ok (Some f) ->
  (compiled_size f <= length out_buffer)%nat ->
  exists buffer' compiled,
    compile_into f out_buffer = Ok (buffer', compiled)
    /\ parse_from_unescaped_image SUBJECT_ID_MASK
         (unescape (strip_framing compiled)) ts'
       = Ok (Some (set_timestamp ts' f)).
Proof.
  intros Hmask Hparse Hfit.
  destruct (parse_Some_inv _ _ _ _ Hparse) as (_ & _ & Hvalid).
  pose proof (compile_into_exact SUBJECT_ID_MASK Hmask f out_buffer Hvalid Hfit)
    as Hok.
  eexists _, _. split; [exact Hok |].
  rewrite strip_framing_framed, unescape_escape.
  apply parse_unescaped_image; assumption.
Qed.

Lemma accepted_frame_recompiles_witness :
  exists buffer' compiled,
    compile_into (set_timestamp (mkTimestamp 7 9) sample_frame)
      (repeat x00 1000) = Ok (buffer', compiled)
    /\ parse_from_unescaped_image sample_mask
         (unescape (strip_framing compiled)) (mkTimestamp 1 2)
       = Ok (Some (set_timestamp (mkTimestamp 1 2)
                     (set_timestamp (mkTimestamp 7 9) sample_frame))).
Proof.
  exact (accepted_frame_recompiles sample_mask (unescaped_image sample_frame)
           (mkTimestamp 7 9) (mkTimestamp 1 2)
           (set_timestamp (mkTimestamp 7 9) sample_frame) (repeat x00 1000)
           sample_mask_15_bits sample_image_accepted
           sample_buffer_large_enough).
Defined.

(** X7. The one exception that leaves [parse_from_unescaped_image] is the
    [ValueError] of the message specifier's constructor, which the source
    calls before its [try] block: it is raised exactly on an image that is
    long enough, passes both CRC checks and has version 0, and whose
    specifier word has bit 15 clear and is above the largest subject id. On
    every other image the decoder returns. *)
Theorem decoder_raises_exactly (SUBJECT_ID_MASK : Z) (img : list byte)
    (ts : Timestamp) (e : exn) :
  parse_from_unescaped_image SUBJECT_ID_MASK img ts = Raise e
  <-> e = ValueError
      /\ passes_integrity img
      /\ Z.testbit (word_at 6 2 img) 15 = false
      /\ SUBJECT_ID_MASK < word_at 6 2 img.
Proof.
  destruct (parse_cases SUBJECT_ID_MASK img ts) as [[Hnone Hno] | [Hint Hcase]].
  { rewrite Hnone. split; [discriminate | tauto]. }
  rewrite Hcase. clear Hcase.
  assert (0 <= word_at 6 2 img) as Hpos.
  { destruct Hint as (Hlen & _).
    pose proof (word_at_range 6 2 img ltac:(lia)). lia. }
  destruct (Z.testbit (word_at 6 2 img) 15); cbn [negb andb].
  - split; [| intros (_ & _ & [=] & _)].
    destruct (Priority_init _); [destruct (invariants_hold _) |]; discriminate.
  - destruct (within (word_at 6 2 img) SUBJECT_ID_MASK) eqn:Hw; cbn [negb].
    + apply within_true in Hw. split; [| intros (_ & _ & _ & Hgt); lia].
      destruct (Priority_init _); [destruct (invariants_hold _) |]; discriminate.
    + apply within_false in Hw. split.
      * intros [= <-]. repeat split; try apply Hint. lia.
      * intros (-> & _). reflexivity.
Qed.

(** ** The theorems above on the frame of the sources' compilation test *)

Lemma compile_into_index_error_witness :
  (compile_into sample_frame (repeat x00 40) = Raise IndexError
   <-> (length (repeat x00 40) < compiled_size sample_frame)%nat)
  /\ ((exists buffer' compiled,
         compile_into sample_frame (repeat x00 40) = Ok (buffer', compiled))
      <-> (compiled_size sample_frame <= length (repeat x00 40))%nat).
Proof.
  exact (compile_into_index_error sample_mask sample_mask_15_bits sample_frame
           (repeat x00 40) sample_frame_valid).
Defined.

Lemma compile_into_keeps_tail_witness :
  exists buffer' compiled,
    compile_into sample_frame (repeat x00 1000) = Ok (buffer', compiled)
    /\ buffer' = compiled ++ drop (length compiled) (repeat x00 1000)
    /\ length buffer' = length (repeat x00 1000)
    /\ length compiled = compiled_size sample_frame
    /\ forall i, (length compiled <= i)%nat ->
                 buffer' !! i = repeat x00 1000 !! i.
Proof.
  exact (compile_into_keeps_tail sample_mask sample_mask_15_bits sample_frame
           (repeat x00 1000) sample_frame_valid sample_buffer_large_enough).
Defined.

Lemma compiled_frame_length_witness :
  exists buffer' compiled image,
    compile_into sample_frame (repeat x00 1000) = Ok (buffer', compiled)
    /\ compiled = FRAME_DELIMITER_BYTE :: escape image ++ [FRAME_DELIMITER_BYTE]
    /\ length image = (36 + length (payload sample_frame))%nat
    /\ length compiled
       = (38 + length (payload sample_frame) + escapees image)%nat
    /\ (38 + length (payload sample_frame) <= length compiled
        <= 74 + 2 * length (payload sample_frame))%nat.
Proof.
  exact (compiled_frame_length sample_mask sample_mask_15_bits sample_frame
           (repeat x00 1000) sample_frame_valid sample_buffer_large_enough).
Defined.

Lemma compiled_frame_layout_witness :
  exists buffer' image,
    compile_into sample_frame (repeat x00 1000)
    = Ok (buffer',
          FRAME_DELIMITER_BYTE :: escape image ++ [FRAME_DELIMITER_BYTE])
    /\ length image = (36 + length (payload sample_frame))%nat
    /\ word_at 0 1 image = 0
    /\ word_at 1 1 image = Priority_to_int (priority sample_frame)
    /\ word_at 2 2 image = node_id_word (source_node_id sample_frame)
    /\ word_at 4 2 image = node_id_word (destination_node_id sample_frame)
    /\ word_at 6 2 image = specifier_word (data_specifier sample_frame)
    /\ word_at 8 8 image = data_type_hash sample_frame
    /\ word_at 16 8 image = transfer_id sample_frame
    /\ word_at 24 4 image
       = index sample_frame
         + (if end_of_transfer sample_frame then 2 ^ 31 else 0)
    /\ word_at 28 4 image = CRC32C.value (CRC32C.new (take 28 image))
    /\ take (length (payload sample_frame)) (drop 32 image)
       = payload sample_frame
    /\ word_at (32 + length (payload sample_frame)) 4 image
       = CRC32C.value (CRC32C.new (payload sample_frame)).
Proof.
  exact (compiled_frame_layout sample_mask sample_mask_15_bits sample_frame
           (repeat x00 1000) sample_frame_valid sample_buffer_large_enough).
Defined.

(* ===================================================================== *)
(** * More on the engine *)
(* ===================================================================== *)

(** ** Construction *)

Lemma init_cases (port_open : bool) (node : option Z)
    (max_payload multiplier : Z) :
  SerialTransport_init port_open node max_payload multiplier
  = if (1 <=? multiplier) && (multiplier <=? 5)
       && ((1024 <=? max_payload) && (max_payload <=? 1024 ^ 3))
       && match node with
          | Some n => (0 <=? n) && (n <? 4096)
          | None => true
          end
    then if port_open
         then Ok (mkSerialTransport multiplier max_payload node false
                    (repeat x00 1024) ∅ ∅ (mkStatistics 0 0 0 0 0 0 0) true)
         else Raise InvalidMediaConfigurationError
    else Raise ValueError.
Proof.
  unfold SerialTransport_init, VALID_SERVICE_TRANSFER_MULTIPLIER_RANGE,
    VALID_MTU_RANGE, NODE_ID_MASK, INITIAL_BUFFER_SIZE.
  cbn [fst snd]. change (4095 + 1) with 4096.
  destruct ((1 <=? multiplier) && (multiplier <=? 5)); cbn [andb negb raise_if];
    [rewrite bind_Ok | reflexivity].
  destruct ((1024 <=? max_payload) && (max_payload <=? 1024 ^ 3));
    cbn [andb negb raise_if]; [rewrite bind_Ok | reflexivity].
  destruct node as [n |].
  - destruct ((0 <=? n) && (n <? 4096)); cbn [negb raise_if];
      [rewrite bind_Ok | reflexivity].
    destruct port_open; reflexivity.
  - cbn [raise_if]. rewrite bind_Ok. destruct port_open; reflexivity.
Qed.

Lemma init_arguments (node : option Z) (max_payload multiplier : Z) :
  (1 <=? multiplier) && (multiplier <=? 5)
  && ((1024 <=? max_payload) && (max_payload <=? 1024 ^ 3))
  && match node with
     | Some n => (0 <=? n) && (n <? 4096)
     | None => true
     end = true
  <-> 1 <= multiplier <= 5 /\ 1024 <= max_payload <= 1024 ^ 3
      /\ forall n, node = Some n -> 0 <= n < 4096.
Proof.
  rewrite !andb_true_iff, !Z.leb_le.
  destruct node as [n |].
  - rewrite andb_true_iff, Z.leb_le, Z.ltb_lt. split.
    + intros ((? & ?) & ?). repeat split; try lia; injection H2 as <-; lia.
    + intros (? & ? & Hn). specialize (Hn n eq_refl). lia.
  - split.
    + intros ((? & ?) & _). repeat split; try lia; discriminate.
    + intros (? & ? & _). repeat split; lia.
Qed.

(** X8. [SerialTransport.__init__] raises [ValueError] exactly when the
    service transfer multiplier is outside 1..5, the MTU outside
    1024..1024^3 or the local node id, if given, outside 0..4095, whatever
    the port; with arguments in range it raises
    [InvalidMediaConfigurationError] exactly when the port is not open; and
    otherwise it gives an open engine with no session, all counters zero
    and a buffer of 1024 bytes, whose local node id is below the
    [max_nodes] of its protocol parameters and is a node id that a frame can
    carry. *)
Theorem engine_construction (port_open : bool) (node : option Z)
    (max_payload multiplier : Z) :
  let r := SerialTransport_init port_open node max_payload multiplier in
  let arguments_ok :=
    1 <= multiplier <= 5 /\ 1024 <= max_payload <= 1024 ^ 3
    /\ forall n, node = Some n -> 0 <= n < 4096 in
  (r = Raise ValueError <-> ~ arguments_ok)
  /\ (r = Raise InvalidMediaConfigurationError
      <-> arguments_ok /\ port_open = false)
  /\ (forall t,
        r = Ok t
        <-> arguments_ok /\ port_open = true
            /\ t = mkSerialTransport multiplier max_payload node false
                     (repeat x00 1024) ∅ ∅ (mkStatistics 0 0 0 0 0 0 0) true)
  /\ (forall t,
        r = Ok t ->
        max_nodes (protocol_parameters t) = 4096
        /\ mtu (protocol_parameters t) = max_payload
        /\ (forall n, _local_node_id t = Some n ->
              0 <= n < max_nodes (protocol_parameters t))
        /\ node_id_ok (_local_node_id t) = true).
Proof.
  cbn zeta. rewrite init_cases.
  pose proof (init_arguments node max_payload multiplier) as Hargs.
  destruct ((1 <=? multiplier) && (multiplier <=? 5)
            && ((1024 <=? max_payload) && (max_payload <=? 1024 ^ 3))
            && match node with
               | Some n => (0 <=? n) && (n <? 4096)
               | None => true
               end).
  - assert (1 <= multiplier <= 5 /\ 1024 <= max_payload <= 1024 ^ 3
            /\ forall n, node = Some n -> 0 <= n < 4096) as Hok
      by (apply Hargs; reflexivity).
    destruct port_open.
    + split; [split; [discriminate | tauto] |].
      split; [split; [discriminate | intros (_ & [=])] |].
      split.
      * intros t. split; [intros [= <-]; auto | intros (_ & _ & ->); reflexivity].
      * intros t [= <-]. cbn [protocol_parameters max_nodes mtu _mtu _local_node_id].
        unfold NODE_ID_MASK. destruct Hok as (_ & _ & Hn).
        repeat split; try (apply Hn; assumption).
        destruct node as [n |]; [| reflexivity].
        specialize (Hn n eq_refl). apply within_true. unfold NODE_ID_MASK. lia.
    + split; [split; [discriminate | tauto] |].
      split; [split; [auto | reflexivity] |].
      split; [| intros t [=]].
      intros t. split; [discriminate | intros (_ & [=] & _)].
  - assert (~ (1 <= multiplier <= 5 /\ 1024 <= max_payload <= 1024 ^ 3
               /\ forall n, node = Some n -> 0 <= n < 4096)) as Hbad.
    { intros H. apply Hargs in H. discriminate. }
    split; [split; [auto | reflexivity] |].
    split; [split; [discriminate | tauto] |].
    split; [| intros t [=]].
    intros t. split; [discriminate | tauto].
Qed.

(** ** What the send path raises and what it leaves alone *)

Lemma bind_Raise_inv {A B : Type} (m : result A) (k : A -> result B) (e : exn) :
  (m ≫= k) = Raise e -> m = Raise e \/ exists a, m = Ok a /\ k a = Raise e.
Proof. destruct m as [a | e']; cbn; [eauto | intros [= ->]; auto]. Qed.

Lemma setitem_raises (buf : list byte) (i : nat) (v : byte) (e : exn) :
  setitem buf i v = Raise e -> e = IndexError.
Proof. unfold setitem. destruct (i <? length buf)%nat; congruence. Qed.

Lemma emit_raises (st : list byte * nat) (nb : byte) (e : exn) :
  emit st nb = Raise e -> e = IndexError.
Proof.
  destruct st as [buf i]. unfold emit. destruct (is_escapee nb); intros H.
  - apply bind_Raise_inv in H as [H | (b1 & _ & H)];
      [exact (setitem_raises _ _ _ _ H) |].
    apply bind_Raise_inv in H as [H | (b2 & _ & H)];
      [exact (setitem_raises _ _ _ _ H) | discriminate].
  - apply bind_Raise_inv in H as [H | (b1 & _ & H)];
      [exact (setitem_raises _ _ _ _ H) | discriminate].
Qed.

Lemma emit_all_raises (bytes : list byte) (st : list byte * nat) (e : exn) :
  emit_all st bytes = Raise e -> e = IndexError.
Proof.
  revert st. induction bytes as [| nb rest IH]; intros st H; [discriminate |].
  cbn [emit_all] in H.
  apply bind_Raise_inv in H as [H | (st' & _ & H)];
    [exact (emit_raises _ _ _ H) | exact (IH _ H)].
Qed.

Lemma pack_uint_raises (size : nat) (v : Z) (e : exn) :
  pack_uint size v = Raise e -> e = StructError.
Proof. unfold pack_uint. destruct (_ && _); congruence. Qed.

Lemma pack_raises (a b c d e' f g h : Z) (e : exn) :
  _HEADER_WITHOUT_CRC_FORMAT_pack a b c d e' f g h = Raise e -> e = StructError.
Proof.
  unfold _HEADER_WITHOUT_CRC_FORMAT_pack. intros H.
  repeat (apply bind_Raise_inv in H as [H | (? & _ & H)];
          [exact (pack_uint_raises _ _ _ H) |]).
  discriminate.
Qed.

Lemma raise_if_raises (c : bool) (e0 e : exn) :
  raise_if c e0 = Raise e -> e = e0.
Proof. destruct c; cbn; congruence. Qed.

Lemma compile_into_raises (f : SerialFrame) (out_buffer : list byte) (e : exn) :
  compile_into f out_buffer = Raise e ->
  e = IndexError \/ e = StructError \/ e = AssertionError.
Proof.
  unfold compile_into, compile_header. intros H.
  apply bind_Raise_inv in H as [H | (header & _ & H)].
  { apply bind_Raise_inv in H as [H | (packed & _ & H)];
      [right; left; exact (pack_raises _ _ _ _ _ _ _ _ _ H) |].
    cbn zeta in H.
    apply bind_Raise_inv in H as [H | (? & _ & H)]; [| discriminate].
    right; right. exact (raise_if_raises _ _ _ H). }
  apply bind_Raise_inv in H as [H | (b1 & _ & H)];
    [left; exact (setitem_raises _ _ _ _ H) |].
  apply bind_Raise_inv in H as [H | ([b2 i2] & _ & H)];
    [left; exact (emit_all_raises _ _ _ H) |].
  apply bind_Raise_inv in H as [H | (b3 & _ & H)];
    [left; exact (setitem_raises _ _ _ _ H) |].
  cbn zeta in H.
  apply bind_Raise_inv in H as [H | (? & _ & H)]; [| discriminate].
  right; right. exact (raise_if_raises _ _ _ H).
Qed.

Lemma untouched_refl (t : SerialTransport) : untouched_by_sending t t.
Proof. repeat split. Qed.

Lemma untouched_trans (t1 t2 t3 : SerialTransport) :
  untouched_by_sending t1 t2 -> untouched_by_sending t2 t3 ->
  untouched_by_sending t1 t3.
Proof. unfold untouched_by_sending. intuition congruence. Qed.

(** What one turn of the loop does to the engine: the buffer, the flags
    when the reader fails meanwhile, [out_bytes] and [out_frames]. *)
Lemma send_frame_effect (t : SerialTransport) (tx_ts : option Timestamp)
    (fr : SerialFrame) (io : FrameIO) :
  let t' := fst (send_frame t tx_ts fr io) in
  untouched_by_sending t t'
  /\ out_transfers (_statistics t') = out_transfers (_statistics t)
  /\ out_incomplete (_statistics t') = out_incomplete (_statistics t)
  /\ out_frames (_statistics t) <= out_frames (_statistics t')
     <= out_frames (_statistics t) + 1
  /\ (_closed t = true -> _closed t' = true)
  /\ (write_count_ok (fr, io) ->
      out_bytes (_statistics t) <= out_bytes (_statistics t'))
  /\ (forall e, snd (send_frame t tx_ts fr io) = Raise e ->
                e <> ResourceClosedError).
Proof.
  cbn zeta. unfold send_frame, write_count_ok. cbn [snd].
  destruct (compile_into fr _) as [[buffer compiled] | e0] eqn:Hc.
  2: { cbn. repeat split; try lia; try tauto.
       intros e [= <-] ->. apply compile_into_raises in Hc.
       destruct Hc as [H | [H | H]]; discriminate. }
  destruct (budget_left io); [| cbn; repeat split; try lia; try tauto; discriminate].
  unfold account_frame.
  destruct (closed_meanwhile io), (write_outcome io) as [[n |] now | |];
    cbn [or_zero];
    repeat match goal with
           | |- context [if ?c then _ else _] => destruct c
           end;
    cbn; repeat split; try lia; try tauto; try discriminate;
    intros e [= <-]; discriminate.
Qed.

Lemma send_loop_effect (frames : list (SerialFrame * FrameIO))
    (t : SerialTransport) (tx_ts : option Timestamp) :
  let t' := fst (send_loop t tx_ts frames) in
  untouched_by_sending t t'
  /\ out_transfers (_statistics t') = out_transfers (_statistics t)
  /\ out_incomplete (_statistics t') = out_incomplete (_statistics t)
  /\ out_frames (_statistics t) <= out_frames (_statistics t')
     <= out_frames (_statistics t) + Z.of_nat (length frames)
  /\ (_closed t = true -> _closed t' = true)
  /\ (Forall write_count_ok frames ->
      out_bytes (_statistics t) <= out_bytes (_statistics t'))
  /\ (forall e, snd (send_loop t tx_ts frames) = Raise e ->
                e <> ResourceClosedError).
Proof.
  cbn zeta. revert t tx_ts.
  induction frames as [| [fr io] rest IH]; intros t tx_ts.
  { cbn. repeat split; try lia; try tauto. discriminate. }
  cbn [send_loop length].
  pose proof (send_frame_effect t tx_ts fr io) as Hframe. cbn zeta in Hframe.
  destruct (send_frame t tx_ts fr io) as [t1 [[[] tx1] | e1]];
    cbn [fst snd] in *;
    destruct Hframe as (Hu & Ht & Hi & Hf & Hc & Hb & He).
  - specialize (IH t1 tx1).
    destruct IH as (Hu' & Ht' & Hi' & Hf' & Hc' & Hb' & He').
    split; [exact (untouched_trans _ _ _ Hu Hu') |].
    repeat split; try lia; try tauto.
    + intros Hall. apply Forall_cons in Hall as [H1 H2].
      specialize (Hb H1). specialize (Hb' H2). lia.
  - repeat split; try apply Hu; try lia; try tauto; try discriminate.
    intros Hall. apply Forall_cons in Hall as [H1 H2]. auto.
  - split; [exact Hu |]. repeat split; try lia; try tauto.
    + intros Hall. apply Forall_cons in Hall as [H1 H2]. auto.
    + intros e [= <-]. exact (He e1 eq_refl).
Qed.

Lemma send_transfer_effect (t : SerialTransport)
    (frames : list (SerialFrame * FrameIO)) :
  let t' := fst (_send_transfer t frames) in
  untouched_by_sending t t'
  /\ out_frames (_statistics t) <= out_frames (_statistics t')
     <= out_frames (_statistics t) + Z.of_nat (length frames)
  /\ match snd (_send_transfer t frames) with
     | Ok (Some _) =>
         out_transfers (_statistics t') = out_transfers (_statistics t) + 1
         /\ out_incomplete (_statistics t') = out_incomplete (_statistics t)
     | Ok None =>
         out_transfers (_statistics t') = out_transfers (_statistics t)
         /\ out_incomplete (_statistics t') = out_incomplete (_statistics t) + 1
     | Raise e =>
         out_transfers (_statistics t') = out_transfers (_statistics t)
         /\ out_incomplete (_statistics t') = out_incomplete (_statistics t)
         /\ (e = ResourceClosedError <-> _closed t' = true)
     end.
Proof.
  cbn zeta. unfold _send_transfer, _ensure_not_closed.
  destruct (_closed t) eqn:Hclosed; cbn [raise_if].
  { cbn [fst snd]. split; [apply untouched_refl |].
    repeat split; try lia; auto. }
  pose proof (send_loop_effect frames t None) as Hloop. cbn zeta in Hloop.
  destruct (send_loop t None frames) as [t1 [[ts |] | e1]]; cbn [fst snd] in *;
    destruct Hloop as (Hu & Ht & Hi & Hf & _ & _ & He).
  - repeat split; try apply Hu; cbn; lia.
  - repeat split; try apply Hu; cbn; lia.
  - split; [exact Hu |]. split; [exact Hf |].
    destruct (_closed t1) eqn:Hc1; cbn [fst snd].
    + repeat split; try assumption; try reflexivity.
    + split; [exact Ht |]. split; [exact Hi |].
      split; [| discriminate].
      intros ->. exfalso. exact (He _ eq_refl eq_refl).
Qed.

(** X9. Whatever the frames and whatever the port does, [_send_transfer]
    touches neither the configuration, nor the registries, nor the counters
    of the receiving side; [out_frames] grows by no more than the number of
    frames; and the call ends in one of three ways. It returns a timestamp,
    and [out_transfers] alone of the two transfer counters has grown, by
    one; it returns [None], and [out_incomplete] alone has grown, by one; or
    it raises, and neither has moved -- and what it raises is
    [ResourceClosedError] exactly when the engine is marked closed by then,
    the exception of the port or of the encoder otherwise. *)
Theorem send_transfer_outcomes (t : SerialTransport)
    (frames : list (SerialFrame * FrameIO)) :
  let t' := fst (_send_transfer t frames) in
  untouched_by_sending t t'
  /\ out_frames (_statistics t) <= out_frames (_statistics t')
     <= out_frames (_statistics t) + Z.of_nat (length frames)
  /\ match snd (_send_transfer t frames) with
     | Ok (Some _) =>
         out_transfers (_statistics t') = out_transfers (_statistics t) + 1
         /\ out_incomplete (_statistics t') = out_incomplete (_statistics t)
     | Ok None =>
         out_transfers (_statistics t') = out_transfers (_statistics t)
         /\ out_incomplete (_statistics t') = out_incomplete (_statistics t) + 1
     | Raise e =>
         out_transfers (_statistics t') = out_transfers (_statistics t)
         /\ out_incomplete (_statistics t') = out_incomplete (_statistics t)
         /\ (e = ResourceClosedError <-> _closed t' = true)
     end.
Proof. exact (send_transfer_effect t frames). Qed.

(** ** The send handler of a service session *)

Lemma is_Some_or_else (first_tx_ts ts : option Timestamp) :
  is_Some (or_else first_tx_ts ts) <-> is_Some first_tx_ts \/ is_Some ts.
Proof.
  destruct first_tx_ts as [x |]; cbn [or_else].
  - split; [left; eauto | eauto].
  - split; [auto | intros [H | H]; [destruct H; discriminate | exact H]].
Qed.

Lemma send_transfer_passes_effect (frames : list SerialFrame)
    (io : nat -> nat -> FrameIO) (remaining : nat) (t : SerialTransport)
    (pass : nat) (first_tx_ts : option Timestamp) :
  let t' := fst (send_transfer_passes t frames io pass remaining first_tx_ts) in
  untouched_by_sending t t'
  /\ out_transfers (_statistics t) <= out_transfers (_statistics t')
  /\ out_incomplete (_statistics t) <= out_incomplete (_statistics t')
  /\ match snd (send_transfer_passes t frames io pass remaining first_tx_ts) with
     | Ok ts =>
         out_transfers (_statistics t') + out_incomplete (_statistics t')
         = out_transfers (_statistics t) + out_incomplete (_statistics t)
           + Z.of_nat remaining
         /\ (is_Some ts
             <-> is_Some first_tx_ts
                 \/ out_transfers (_statistics t)
                    < out_transfers (_statistics t'))
     | Raise _ =>
         out_transfers (_statistics t') + out_incomplete (_statistics t')
         < out_transfers (_statistics t) + out_incomplete (_statistics t)
           + Z.of_nat remaining
     end.
Proof.
  cbn zeta. revert t pass first_tx_ts.
  induction remaining as [| remaining IH]; intros t pass first_tx_ts.
  { cbn. split; [apply untouched_refl |]. repeat split; try lia.
    - auto.
    - intros [H | H]; [exact H | lia]. }
  cbn [send_transfer_passes].
  pose proof (send_transfer_effect t (script_from 0 frames (io pass))) as H1.
  cbn zeta in H1.
  destruct (_send_transfer t (script_from 0 frames (io pass)))
    as [t1 [ts |e]]; cbn [fst snd] in H1; destruct H1 as (Hu & _ & H1).
  - specialize (IH t1 (S pass) (or_else first_tx_ts ts)).
    destruct (send_transfer_passes t1 frames io (S pass) remaining
                (or_else first_tx_ts ts)) as [t2 r]; cbn [fst snd] in *.
    destruct IH as (Hu' & Ht' & Hi' & IH).
    split; [exact (untouched_trans _ _ _ Hu Hu') |].
    destruct ts as [x |]; destruct H1 as (Ht & Hi).
    + split; [lia |]. split; [lia |].
      destruct r as [ts' | e']; [| lia].
      destruct IH as (Hsum & Hsome). split; [lia |].
      rewrite Hsome, is_Some_or_else. split; [intros _; right; lia |].
      intros _. left. right. eauto.
    + split; [lia |]. split; [lia |].
      destruct r as [ts' | e']; [| lia].
      destruct IH as (Hsum & Hsome). split; [lia |].
      rewrite Hsome, is_Some_or_else. split.
      * intros [[H | H] | H]; [left; exact H | destruct H; discriminate
                              | right; lia].
      * intros [H | H]; [left; left; exact H | right; lia].
  - cbn [fst snd]. destruct H1 as (Ht & Hi & _).
    split; [exact Hu |]. lia.
Qed.

(** X10. The send handler of an output session runs [_send_transfer] once,
    and for a service specifier on an engine with a multiplier [N] above
    one it runs it [N] times over the same frames. When it returns, each
    pass has raised one of [out_transfers] and [out_incomplete] by one, and
    it returns a timestamp exactly when at least one pass sent the whole
    transfer; when a pass raises, the handler raises at once, before as
    many passes have been counted. *)
Theorem send_handler_repeats (specifier : SessionSpecifier)
    (t : SerialTransport) (frames : list SerialFrame)
    (io : nat -> nat -> FrameIO) :
  let t' := fst (send_handler specifier t frames io) in
  untouched_by_sending t t'
  /\ match snd (send_handler specifier t frames io) with
     | Ok ts =>
         out_transfers (_statistics t') + out_incomplete (_statistics t')
         = out_transfers (_statistics t) + out_incomplete (_statistics t)
           + handler_passes specifier t
         /\ (is_Some ts
             <-> out_transfers (_statistics t)
                 < out_transfers (_statistics t'))
     | Raise _ =>
         out_transfers (_statistics t') + out_incomplete (_statistics t')
         < out_transfers (_statistics t) + out_incomplete (_statistics t)
           + handler_passes specifier t
     end.
Proof.
  cbn zeta. unfold send_handler, handler_passes.
  destruct (is_service (fst specifier)
            && (1 <? _service_transfer_multiplier t)) eqn:Hrep.
  - apply andb_true_iff in Hrep as [_ Hmult]. apply Z.ltb_lt in Hmult.
    unfold send_transfer_repeated.
    pose proof (send_transfer_passes_effect frames io
                  (Z.to_nat (_service_transfer_multiplier t)) t 0 None) as H.
    cbn zeta in H. rewrite Z2Nat.id in H by lia.
    destruct H as (Hu & _ & _ & H). split; [exact Hu |].
    destruct (snd _) as [ts | e]; [| exact H].
    destruct H as (Hsum & Hsome). split; [exact Hsum |].
    rewrite Hsome. split; [intros [H | H]; [destruct H; discriminate | exact H]
                          | auto].
  - pose proof (send_transfer_effect t (script_from 0 frames (io 0%nat))) as H.
    cbn zeta in H. destruct H as (Hu & _ & H). split; [exact Hu |].
    destruct (snd _) as [[x |] | e].
    + split; [lia |]. split; [lia | eauto].
    + split; [lia |]. split; [intros H'; destruct H'; discriminate | lia].
    + lia.
Qed.

(** ** Sessions and their registries *)

Lemma get_input_session_open (t : SerialTransport) (specifier : SessionSpecifier) :
  _closed t = false ->
  let out := default (mkSerialInputSession specifier [])
               (_input_registry t !! specifier) in
  get_input_session t specifier
  = Ok (set_input_registry (<[specifier := out]> (_input_registry t)) t, out).
Proof.
  intros Hopen. cbn zeta. unfold get_input_session.
  rewrite ensure_not_closed_open, bind_Ok by exact Hopen.
  destruct (_input_registry t !! specifier) as [out |] eqn:Hlook;
    cbn [default]; [| reflexivity].
  rewrite insert_id by exact Hlook. rewrite set_input_registry_same.
  reflexivity.
Qed.

Lemma get_output_session_open (t : SerialTransport) (specifier : SessionSpecifier) :
  _closed t = false ->
  let out := default (mkSerialOutputSession specifier
                        (handler_passes specifier t))
               (_output_registry t !! specifier) in
  get_output_session t specifier
  = Ok (set_output_registry (<[specifier := out]> (_output_registry t)) t, out).
Proof.
  intros Hopen. cbn zeta. unfold get_output_session.
  rewrite ensure_not_closed_open, bind_Ok by exact Hopen.
  destruct (_output_registry t !! specifier) as [out |] eqn:Hlook;
    cbn [default]; [| reflexivity].
  rewrite insert_id by exact Hlook. rewrite set_output_registry_same.
  reflexivity.
Qed.

(** X11. On an open engine [get_input_session] returns the session
    registered under the specifier, with the frames it holds, or registers
    and returns a new one that holds none; afterwards the session is in the
    registry under the specifier, no other entry and nothing else of the
    engine has changed, and the same call again returns the same session
    and changes nothing. *)
Theorem get_input_session_registers (t : SerialTransport)
    (specifier : SessionSpecifier) :
  _closed t = false ->
  exists t' out,
    get_input_session t specifier = Ok (t', out)
    /\ out = default (mkSerialInputSession specifier [])
               (_input_registry t !! specifier)
    /\ _input_registry t' !! specifier = Some out
    /\ (forall other, other <> specifier ->
          _input_registry t' !! other = _input_registry t !! other)
    /\ t' = set_input_registry (_input_registry t') t
    /\ get_input_session t' specifier = Ok (t', out).
Proof.
  intros Hopen. eexists _, _.
  split; [apply get_input_session_open, Hopen |].
  split; [reflexivity |]. cbn [_input_registry set_input_registry].
  split; [apply lookup_insert_eq |].
  split; [intros other Hne; apply lookup_insert_ne; congruence |].
  split; [reflexivity |].
  rewrite get_input_session_open by exact Hopen.
  cbn [_input_registry set_input_registry]. rewrite lookup_insert_eq.
  cbn [default]. rewrite insert_insert_eq. reflexivity.
Qed.

Lemma get_input_session_registers_witness :
  exists t' out,
    get_input_session open_engine (MessageDataSpecifier 12345, None)
    = Ok (t', out)
    /\ out = default (mkSerialInputSession (MessageDataSpecifier 12345, None) [])
               (_input_registry open_engine
                  !! (MessageDataSpecifier 12345, None))
    /\ _input_registry t' !! (MessageDataSpecifier 12345, None) = Some out
    /\ (forall other, other <> (MessageDataSpecifier 12345, None) ->
          _input_registry t' !! other = _input_registry open_engine !! other)
    /\ t' = set_input_registry (_input_registry t') open_engine
    /\ get_input_session t' (MessageDataSpecifier 12345, None) = Ok (t', out).
Proof.
  exact (get_input_session_registers open_engine
           (MessageDataSpecifier 12345, None) open_engine_is_open).
Defined.

(** X12. On an open engine [get_output_session] returns the session
    registered under the specifier, or registers and returns a new one,
    whose send handler runs [_send_transfer] as many times as the service
    transfer multiplier says for a service specifier, and once for a message
    specifier; afterwards the session is in the registry under the
    specifier, no other entry and nothing else of the engine has changed,
    and the same call again returns the same session and changes
    nothing. *)
Theorem get_output_session_registers (t : SerialTransport)
    (specifier : SessionSpecifier) :
  _closed t = false ->
  exists t' out,
    get_output_session t specifier = Ok (t', out)
    /\ out = default (mkSerialOutputSession specifier
                        (if is_service (fst specifier)
                            && (1 <? _service_transfer_multiplier t)
                         then _service_transfer_multiplier t else 1))
               (_output_registry t !! specifier)
    /\ _output_registry t' !! specifier = Some out
    /\ (forall other, other <> specifier ->
          _output_registry t' !! other = _output_registry t !! other)
    /\ t' = set_output_registry (_output_registry t') t
    /\ get_output_session t' specifier = Ok (t', out).
Proof.
  intros Hopen. eexists _, _.
  split; [apply get_output_session_open, Hopen |].
  split; [reflexivity |]. cbn [_output_registry set_output_registry].
  split; [apply lookup_insert_eq |].
  split; [intros other Hne; apply lookup_insert_ne; congruence |].
  split; [reflexivity |].
  rewrite get_output_session_open by exact Hopen.
  cbn [_output_registry set_output_registry]. rewrite lookup_insert_eq.
  cbn [default]. rewrite insert_insert_eq. reflexivity.
Qed.

Lemma get_output_session_registers_witness :
  exists t' out,
    get_output_session open_engine (ServiceDataSpecifier 7 REQUEST, Some 9)
    = Ok (t', out)
    /\ out = default (mkSerialOutputSession
                        (ServiceDataSpecifier 7 REQUEST, Some 9)
                        (if is_service
                              (fst (ServiceDataSpecifier 7 REQUEST, Some 9))
                            && (1 <? _service_transfer_multiplier open_engine)
                         then _service_transfer_multiplier open_engine else 1))
               (_output_registry open_engine
                  !! (ServiceDataSpecifier 7 REQUEST, Some 9))
    /\ _output_registry t' !! (ServiceDataSpecifier 7 REQUEST, Some 9)
       = Some out
    /\ (forall other, other <> (ServiceDataSpecifier 7 REQUEST, Some 9) ->
          _output_registry t' !! other = _output_registry open_engine !! other)
    /\ t' = set_output_registry (_output_registry t') open_engine
    /\ get_output_session t' (ServiceDataSpecifier 7 REQUEST, Some 9)
       = Ok (t', out).
Proof.
  exact (get_output_session_registers open_engine
           (ServiceDataSpecifier 7 REQUEST, Some 9) open_engine_is_open).
Defined.

(** X13. The finaliser of a session undoes its registration: on an open
    engine that has no input session for a specifier, [get_input_session]
    followed by the finaliser of the session it made leaves the engine as
    it was, and so for output sessions; a finaliser run when its entry is
    not in the registry -- a second time, or before any registration --
    raises [KeyError]. *)
Theorem finalizer_undoes_registration (t : SerialTransport)
    (specifier : SessionSpecifier) :
  _closed t = false ->
  (_input_registry t !! specifier = None ->
   input_finalizer specifier t = Raise KeyError
   /\ exists t' out,
        get_input_session t specifier = Ok (t', out)
        /\ input_finalizer specifier t' = Ok t)
  /\ (_output_registry t !! specifier = None ->
      output_finalizer specifier t = Raise KeyError
      /\ exists t' out,
           get_output_session t specifier = Ok (t', out)
           /\ output_finalizer specifier t' = Ok t).
Proof.
  intros Hopen. split; intros Hfree.
  - split; [unfold input_finalizer; rewrite Hfree; reflexivity |].
    eexists _, _. split; [apply get_input_session_open, Hopen |].
    unfold input_finalizer. cbn [_input_registry set_input_registry].
    rewrite lookup_insert_eq, delete_insert_eq, delete_id by exact Hfree.
    destruct t. reflexivity.
  - split; [unfold output_finalizer; rewrite Hfree; reflexivity |].
    eexists _, _. split; [apply get_output_session_open, Hopen |].
    unfold output_finalizer. cbn [_output_registry set_output_registry].
    rewrite lookup_insert_eq, delete_insert_eq, delete_id by exact Hfree.
    destruct t. reflexivity.
Qed.

Lemma finalizer_undoes_registration_witness :
  (_input_registry open_engine !! (MessageDataSpecifier 12345, None) = None ->
   input_finalizer (MessageDataSpecifier 12345, None) open_engine
   = Raise KeyError
   /\ exists t' out,
        get_input_session open_engine (MessageDataSpecifier 12345, None)
        = Ok (t', out)
        /\ input_finalizer (MessageDataSpecifier 12345, None) t'
           = Ok open_engine)
  /\ (_output_registry open_engine !! (MessageDataSpecifier 12345, None) = None ->
      output_finalizer (MessageDataSpecifier 12345, None) open_engine
      = Raise KeyError
      /\ exists t' out,
           get_output_session open_engine (MessageDataSpecifier 12345, None)
           = Ok (t', out)
           /\ output_finalizer (MessageDataSpecifier 12345, None) t'
              = Ok open_engine).
Proof.
  exact (finalizer_undoes_registration open_engine
           (MessageDataSpecifier 12345, None) open_engine_is_open).
Defined.

(** ** Frames reaching the sessions *)

Lemma handle_received_frame_lookup (none_first : bool) (t : SerialTransport)
    (frame : SerialFrame) (ss : SessionSpecifier) :
  _input_registry (_handle_received_frame none_first t frame) !! ss
  = (fun session =>
       if accepts t frame && bool_decide (routed_to frame ss)
       then _process_frame session frame else session)
    <$> _input_registry t !! ss.
Proof.
  unfold _handle_received_frame.
  set (t1 := update_statistics (add_in_frames 1) t).
  change (accepts t1 frame) with (accepts t frame).
  destruct (accepts t frame); cbn [andb].
  - cbn [_input_registry set_input_registry].
    change (_input_registry t1) with (_input_registry t).
    destruct (decide (routed_to frame ss)) as [Hr | Hr];
      [rewrite bool_decide_eq_true_2 by exact Hr
      | rewrite bool_decide_eq_false_2 by exact Hr];
      unfold routed_to in Hr; unfold source_node_ids;
      (destruct (source_node_id frame) as [n |];
       [destruct none_first |]); cbn [fold_left]; rewrite !route_to_lookup;
      repeat case_decide;
      destruct (_input_registry t !! ss) as [session |];
      cbn [fmap option_fmap option_map];
      try reflexivity; exfalso; intuition congruence.
  - change (_input_registry t1) with (_input_registry t).
    destruct (_input_registry t !! ss); reflexivity.
Qed.

Lemma handle_received_frame_kept (none_first : bool) (t : SerialTransport)
    (frame : SerialFrame) :
  let t' := _handle_received_frame none_first t frame in
  _local_node_id t' = _local_node_id t
  /\ _output_registry t' = _output_registry t
  /\ _service_transfer_multiplier t' = _service_transfer_multiplier t.
Proof.
  cbn zeta. unfold _handle_received_frame.
  destruct (accepts _ frame); repeat split.
Qed.

Lemma accepts_local_node_id (t t' : SerialTransport) (frame : SerialFrame) :
  _local_node_id t' = _local_node_id t -> accepts t' frame = accepts t frame.
Proof. intros H. unfold accepts. rewrite H. reflexivity. Qed.

Lemma receive_frames_lookup (none_first : SerialFrame -> bool)
    (frames : list SerialFrame) (t : SerialTransport) (ss : SessionSpecifier) :
  _input_registry (receive_frames none_first t frames) !! ss
  = (fun session =>
       mkSerialInputSession (in_specifier session)
         (processed_frames session
          ++ List.filter
               (fun frame => accepts t frame && bool_decide (routed_to frame ss))
               frames))
    <$> _input_registry t !! ss.
Proof.
  unfold receive_frames. revert t.
  induction frames as [| frame rest IH]; intros t; cbn [fold_left List.filter].
  { destruct (_input_registry t !! ss) as [[spec frs] |];
      cbn [fmap option_fmap option_map]; [| reflexivity].
    cbn [in_specifier processed_frames]. rewrite app_nil_r. reflexivity. }
  rewrite IH, handle_received_frame_lookup.
  destruct (handle_received_frame_kept (none_first frame) t frame)
    as (Hnode & _).
  destruct (_input_registry t !! ss) as [[spec frs] |];
    cbn [fmap option_fmap option_map]; [| reflexivity].
  f_equal.
  rewrite (List.filter_ext
             (fun frame0 =>
                accepts (_handle_received_frame (none_first frame) t frame)
                  frame0 && bool_decide (routed_to frame0 ss))
             (fun frame0 => accepts t frame0 && bool_decide (routed_to frame0 ss)))
    by (intros a; rewrite (accepts_local_node_id _ _ a Hnode); reflexivity).
  destruct (accepts t frame && bool_decide (routed_to frame ss));
    cbn [_process_frame in_specifier processed_frames];
    [rewrite <- app_assoc |]; reflexivity.
Qed.

(** X14. An input session sees the frames meant for it in the order of
    their arrival: after any sequence of frames has gone through
    [_handle_received_frame], a session of the registry holds the frames it
    held before, followed by those frames of the sequence, in order and
    once each, whose destination is the local node id or absent and whose
    data specifier and source match its specifier, an absent source in the
    specifier matching every source. Where the registry held no session
    it holds none afterwards. *)
Theorem sessions_receive_in_order (none_first : SerialFrame -> bool)
    (t : SerialTransport) (frames : list SerialFrame) (ss : SessionSpecifier) :
  let wanted frame :=
    (bool_decide (destination_node_id frame = _local_node_id t)
     || bool_decide (destination_node_id frame = None))
    && bool_decide (ss = (data_specifier frame, source_node_id frame)
                    \/ ss = (data_specifier frame, None)) in
  match _input_registry t !! ss with
  | Some session =>
      exists session',
        _input_registry (receive_frames none_first t frames) !! ss
        = Some session'
        /\ in_specifier session' = in_specifier session
        /\ processed_frames session'
           = processed_frames session ++ List.filter wanted frames
  | None => _input_registry (receive_frames none_first t frames) !! ss = None
  end.
Proof.
  cbn zeta. rewrite receive_frames_lookup.
  destruct (_input_registry t !! ss) as [session |];
    cbn [fmap option_fmap option_map]; [| reflexivity].
  eexists. split; [reflexivity |]. split; reflexivity.
Qed.

(** ** The registries of an engine in use *)

Lemma handler_passes_multiplier (k : SessionSpecifier) (t t' : SerialTransport) :
  _service_transfer_multiplier t' = _service_transfer_multiplier t ->
  handler_passes k t' = handler_passes k t.
Proof. intros H. unfold handler_passes. rewrite H. reflexivity. Qed.

Lemma consistent_same_registries (t t' : SerialTransport) :
  _input_registry t' = _input_registry t ->
  _output_registry t' = _output_registry t ->
  _service_transfer_multiplier t' = _service_transfer_multiplier t ->
  registries_consistent t -> registries_consistent t'.
Proof.
  intros Hin Hout Hmult [Hi Ho]. unfold registries_consistent.
  rewrite Hin, Hout. split; [exact Hi |].
  intros k s Hs. rewrite (handler_passes_multiplier k t t' Hmult). auto.
Qed.

Lemma received_item_registries (none_first : bool) (t : SerialTransport)
    (item : received_item) (in_bytes_count : Z) :
  let t' := fst (_handle_received_item_and_update_stats none_first t item
                   in_bytes_count) in
  _output_registry t' = _output_registry t
  /\ _service_transfer_multiplier t' = _service_transfer_multiplier t
  /\ forall k s', _input_registry t' !! k = Some s' ->
       exists s, _input_registry t !! k = Some s
                 /\ in_specifier s' = in_specifier s.
Proof.
  cbn zeta. unfold _handle_received_item_and_update_stats.
  destruct item as [frame | data].
  - destruct (handle_received_frame_kept none_first t frame) as (_ & Ho & Hm).
    assert (forall k s',
              _input_registry (_handle_received_frame none_first t frame) !! k
              = Some s' ->
              exists s, _input_registry t !! k = Some s
                        /\ in_specifier s' = in_specifier s) as Hi.
    { intros k s'. rewrite handle_received_frame_lookup.
      destruct (_input_registry t !! k) as [s |];
        cbn [fmap option_fmap option_map]; [| discriminate].
      intros [= <-]. exists s. split; [reflexivity |].
      destruct (_ && _); reflexivity. }
    destruct (_ <=? in_bytes_count); cbn [fst]; auto.
  - destruct (_ <=? in_bytes_count); cbn [fst]; repeat split; eauto.
Qed.

Lemma run_consistent (t : SerialTransport) (op : operation) :
  registries_consistent t -> registries_consistent (fst (run t op)).
Proof.
  intros Hc. pose proof Hc as [Hi Ho].
  destruct op; cbn [run fst]; try exact Hc.
  - rewrite close_result. cbn [after id]. split; intros k s;
      cbn [_input_registry _output_registry]; rewrite lookup_empty; discriminate.
  - destruct (_closed t) eqn:Hclosed.
    + unfold get_input_session.
      rewrite ensure_not_closed_closed by exact Hclosed. exact Hc.
    + rewrite get_input_session_open by exact Hclosed. cbn [after fst].
      split; cbn [_input_registry _output_registry set_input_registry];
        [| exact Ho].
      intros k s'. destruct (decide (k = specifier)) as [-> | Hne].
      * rewrite lookup_insert_eq. intros [= <-].
        destruct (_input_registry t !! specifier) as [s |] eqn:Hs;
          cbn [default]; [exact (Hi _ _ Hs) | reflexivity].
      * rewrite lookup_insert_ne by congruence. apply Hi.
  - destruct (_closed t) eqn:Hclosed.
    + unfold get_output_session.
      rewrite ensure_not_closed_closed by exact Hclosed. exact Hc.
    + rewrite get_output_session_open by exact Hclosed. cbn [after fst].
      split; cbn [_input_registry _output_registry set_output_registry];
        [exact Hi |].
      intros k s'. destruct (decide (k = specifier)) as [-> | Hne].
      * rewrite lookup_insert_eq. intros [= <-].
        destruct (_output_registry t !! specifier) as [s |] eqn:Hs;
          cbn [default]; [exact (Ho _ _ Hs) | split; reflexivity].
      * rewrite lookup_insert_ne by congruence. apply Ho.
  - pose proof (send_transfer_effect t frames) as H. cbn zeta in H.
    destruct (_send_transfer t frames) as [t' r]. cbn [fst] in *.
    destruct H as ((Hm & _ & _ & Hin & Hout & _) & _).
    exact (consistent_same_registries t t' Hin Hout Hm Hc).
  - unfold input_finalizer.
    destruct (_input_registry t !! specifier) as [s0 |]; cbn [after id];
      [| exact Hc].
    split; cbn [_input_registry _output_registry set_input_registry];
      [| exact Ho].
    intros k s Hs. apply lookup_delete_Some in Hs as [_ Hs]. exact (Hi _ _ Hs).
  - unfold output_finalizer.
    destruct (_output_registry t !! specifier) as [s0 |]; cbn [after id];
      [| exact Hc].
    split; cbn [_input_registry _output_registry set_output_registry];
      [exact Hi |].
    intros k s Hs. apply lookup_delete_Some in Hs as [_ Hs]. exact (Ho _ _ Hs).
  - destruct (received_item_registries none_first t item in_bytes_count)
      as (Hout & Hm & Hin).
    split.
    + intros k s' Hs'. destruct (Hin _ _ Hs') as (s & Hs & ->).
      exact (Hi _ _ Hs).
    + intros k s. rewrite Hout, (handler_passes_multiplier k t _ Hm). apply Ho.
Qed.

Lemma run_all_consistent (ops : list operation) (t : SerialTransport) :
  registries_consistent t -> registries_consistent (run_all t ops).
Proof.
  unfold run_all. revert t. induction ops as [| op ops IH]; intros t Hc;
    [exact Hc |].
  cbn [fold_left]. apply IH, run_consistent, Hc.
Qed.

Lemma run_multiplier (t : SerialTransport) (op : operation) :
  _service_transfer_multiplier (fst (run t op)) = _service_transfer_multiplier t.
Proof.
  destruct op; cbn [run fst]; try reflexivity.
  - rewrite close_result. reflexivity.
  - unfold get_input_session. destruct (_ensure_not_closed t); [| reflexivity].
    rewrite bind_Ok. destruct (_input_registry t !! specifier); reflexivity.
  - unfold get_output_session. destruct (_ensure_not_closed t); [| reflexivity].
    rewrite bind_Ok. destruct (_output_registry t !! specifier); reflexivity.
  - pose proof (send_transfer_effect t frames) as H. cbn zeta in H.
    destruct (_send_transfer t frames) as [t' r]. cbn [fst] in *. apply H.
  - unfold input_finalizer. destruct (_input_registry t !! specifier); reflexivity.
  - unfold output_finalizer.
    destruct (_output_registry t !! specifier); reflexivity.
  - apply received_item_registries.
Qed.

Lemma run_all_multiplier (ops : list operation) (t : SerialTransport) :
  _service_transfer_multiplier (run_all t ops) = _service_transfer_multiplier t.
Proof.
  unfold run_all. revert t. induction ops as [| op ops IH]; intros t;
    [reflexivity |].
  cbn [fold_left]. rewrite IH. apply run_multiplier.
Qed.

(** X15. Whatever has been done with an engine since its construction,
    every input session of its registry is filed under its own specifier,
    and every output session under its own specifier with the send handler
    that goes with it and with the multiplier the engine was built with. So
    the assertions that close [get_input_session] and [get_output_session]
    hold: the session returned has the specifier asked for and is in the
    registry under it. *)
Theorem registries_stay_consistent (port_open : bool) (node : option Z)
    (max_payload multiplier : Z) (t0 : SerialTransport) (ops : list operation) :
  SerialTransport_init port_open node max_payload multiplier = Ok t0 ->
  let t := run_all t0 ops in
  (forall k s, _input_registry t !! k = Some s -> in_specifier s = k)
  /\ (forall k s, _output_registry t !! k = Some s ->
        out_specifier s = k
        /\ send_passes s = if is_service (fst k) && (1 <? multiplier)
                           then multiplier else 1)
  /\ (forall specifier t' out,
        get_input_session t specifier = Ok (t', out) ->
        in_specifier out = specifier
        /\ _input_registry t' !! specifier = Some out)
  /\ (forall specifier t' out,
        get_output_session t specifier = Ok (t', out) ->
        out_specifier out = specifier
        /\ _output_registry t' !! specifier = Some out).
Proof.
  intros Hinit. cbn zeta.
  assert (registries_consistent t0 /\ _service_transfer_multiplier t0 = multiplier)
    as [H0 Hm0].
  { rewrite init_cases in Hinit.
    destruct (_ && _); [| discriminate]. destruct port_open; [| discriminate].
    injection Hinit as <-. split; [| reflexivity].
    split; intros k s; cbn [_input_registry _output_registry];
      rewrite lookup_empty; discriminate. }
  pose proof (run_all_consistent ops t0 H0) as [Hi Ho].
  pose proof (run_all_multiplier ops t0) as Hm. rewrite Hm0 in Hm.
  set (t := run_all t0 ops) in *.
  split; [exact Hi |].
  split.
  { intros k s Hs. destruct (Ho _ _ Hs) as [H1 H2]. split; [exact H1 |].
    rewrite H2. unfold handler_passes. rewrite Hm. reflexivity. }
  split.
  - intros specifier t' out Hget.
    destruct (_closed t) eqn:Hclosed.
    { unfold get_input_session in Hget.
      rewrite ensure_not_closed_closed in Hget by exact Hclosed. discriminate. }
    rewrite get_input_session_open in Hget by exact Hclosed.
    injection Hget as <- <-. cbn [_input_registry set_input_registry].
    split; [| apply lookup_insert_eq].
    destruct (_input_registry t !! specifier) as [s |] eqn:Hs; cbn [default];
      [exact (Hi _ _ Hs) | reflexivity].
  - intros specifier t' out Hget.
    destruct (_closed t) eqn:Hclosed.
    { unfold get_output_session in Hget.
      rewrite ensure_not_closed_closed in Hget by exact Hclosed. discriminate. }
    rewrite get_output_session_open in Hget by exact Hclosed.
    injection Hget as <- <-. cbn [_output_registry set_output_registry].
    split; [| apply lookup_insert_eq].
    destruct (_output_registry t !! specifier) as [s |] eqn:Hs; cbn [default];
      [exact (proj1 (Ho _ _ Hs)) | reflexivity].
Qed.

Lemma registries_stay_consistent_witness :
  let t := run_all open_engine
             [OpGetInputSession (MessageDataSpecifier 12345, None);
              OpGetOutputSession (ServiceDataSpecifier 7 REQUEST, Some 9);
              OpReceive true (ItemFrame sample_frame) 50] in
  (forall k s, _input_registry t !! k = Some s -> in_specifier s = k)
  /\ (forall k s, _output_registry t !! k = Some s ->
        out_specifier s = k
        /\ send_passes s = if is_service (fst k) && (1 <? 2) then 2 else 1)
  /\ (forall specifier t' out,
        get_input_session t specifier = Ok (t', out) ->
        in_specifier out = specifier
        /\ _input_registry t' !! specifier = Some out)
  /\ (forall specifier t' out,
        get_output_session t specifier = Ok (t', out) ->
        out_specifier out = specifier
        /\ _output_registry t' !! specifier = Some out).
Proof.
  exact (registries_stay_consistent true (Some 42) 1024 2 open_engine
           [OpGetInputSession (MessageDataSpecifier 12345, None);
            OpGetOutputSession (ServiceDataSpecifier 7 REQUEST, Some 9);
            OpReceive true (ItemFrame sample_frame) 50]
           open_engine_constructed).
Defined.

(** ** The counters *)

Lemma statistics_le_refl (s : SerialTransportStatistics) : statistics_le s s.
Proof. unfold statistics_le. lia. Qed.

Lemma statistics_le_trans (s1 s2 s3 : SerialTransportStatistics) :
  statistics_le s1 s2 -> statistics_le s2 s3 -> statistics_le s1 s3.
Proof. unfold statistics_le. lia. Qed.

Lemma send_transfer_statistics_le (t : SerialTransport)
    (frames : list (SerialFrame * FrameIO)) :
  Forall write_count_ok frames ->
  statistics_le (_statistics t) (_statistics (fst (_send_transfer t frames))).
Proof.
  intros Hall. unfold _send_transfer, _ensure_not_closed.
  destruct (_closed t); cbn [raise_if]; [apply statistics_le_refl |].
  pose proof (send_loop_effect frames t None) as Hloop. cbn zeta in Hloop.
  destruct (send_loop t None frames) as [t1 [[ts |] | e1]]; cbn [fst snd] in *;
    destruct Hloop as ((_ & _ & _ & _ & _ & H1 & H2 & H3) & Ht & Hi & Hf & _
                       & Hb & _);
    specialize (Hb Hall); unfold statistics_le; cbn; lia.
Qed.

Lemma run_statistics_le (t : SerialTransport) (op : operation) :
  writes_ok op ->
  statistics_le (_statistics t) (_statistics (fst (run t op))).
Proof.
  intros Hw. destruct op; cbn [run fst]; try apply statistics_le_refl.
  - rewrite close_result. apply statistics_le_refl.
  - unfold get_input_session.
    destruct (_ensure_not_closed t); [| apply statistics_le_refl].
    rewrite bind_Ok. destruct (_input_registry t !! specifier);
      apply statistics_le_refl.
  - unfold get_output_session.
    destruct (_ensure_not_closed t); [| apply statistics_le_refl].
    rewrite bind_Ok. destruct (_output_registry t !! specifier);
      apply statistics_le_refl.
  - pose proof (send_transfer_statistics_le t frames Hw) as H.
    destruct (_send_transfer t frames) as [t' r]. exact H.
  - unfold input_finalizer. destruct (_input_registry t !! specifier);
      apply statistics_le_refl.
  - unfold output_finalizer. destruct (_output_registry t !! specifier);
      apply statistics_le_refl.
  - unfold _handle_received_item_and_update_stats.
    destruct item as [frame | data].
    + unfold _handle_received_frame.
      destruct (accepts _ frame);
        match goal with
        | |- context [?a <=? in_bytes_count] =>
            destruct (Z.leb_spec a in_bytes_count) as [Hle | Hgt]
        end; cbn in *; unfold statistics_le; cbn; lia.
    + unfold _handle_received_out_of_band_data.
      match goal with
      | |- context [?a <=? in_bytes_count] =>
          destruct (Z.leb_spec a in_bytes_count) as [Hle | Hgt]
      end; cbn in *; unfold statistics_le; cbn; lia.
Qed.

(** X16. No counter of the statistics ever goes down: after any sequence
    of operations and events -- sessions opened and closed, transfers sent,
    items received, the reader failing, the engine closed -- each of the
    seven counters is at least what it was, [in_bytes] being overwritten
    only by a count that is not below it. For [out_bytes] this rests on the
    port never reporting a negative number of bytes written. *)
Theorem statistics_never_decrease (t : SerialTransport) (ops : list operation) :
  Forall writes_ok ops ->
  let s := _statistics t in
  let s' := _statistics (run_all t ops) in
  in_bytes s <= in_bytes s'
  /\ in_frames s <= in_frames s'
  /\ in_out_of_band_bytes s <= in_out_of_band_bytes s'
  /\ out_bytes s <= out_bytes s'
  /\ out_frames s <= out_frames s'
  /\ out_transfers s <= out_transfers s'
  /\ out_incomplete s <= out_incomplete s'.
Proof.
  intros Hall. cbn zeta. change (statistics_le (_statistics t)
                                   (_statistics (run_all t ops))).
  unfold run_all. revert t. induction Hall as [| op ops Hop _ IH]; intros t.
  - apply statistics_le_refl.
  - cbn [fold_left].
    exact (statistics_le_trans _ _ _ (run_statistics_le t op Hop) (IH _)).
Qed.

Lemma statistics_never_decrease_witness :
  let s := _statistics open_engine in
  let s' := _statistics
              (run_all open_engine
                 [OpSendTransfer [(sample_frame, full_write)];
                  OpReceive true (ItemFrame sample_frame) 50;
                  OpClose]) in
  in_bytes s <= in_bytes s'
  /\ in_frames s <= in_frames s'
  /\ in_out_of_band_bytes s <= in_out_of_band_bytes s'
  /\ out_bytes s <= out_bytes s'
  /\ out_frames s <= out_frames s'
  /\ out_transfers s <= out_transfers s'
  /\ out_incomplete s <= out_incomplete s'.
Proof.
  apply (statistics_never_decrease open_engine
           [OpSendTransfer [(sample_frame, full_write)];
            OpReceive true (ItemFrame sample_frame) 50;
            OpClose]).
  repeat constructor. unfold write_count_ok. cbn. lia.
Defined.

(** ** The reader and the event loop *)

Lemma handle_item_ok (none_first : bool) (t : SerialTransport)
    (item : received_item) (in_bytes_count : Z) :
  in_bytes (_statistics t) <= in_bytes_count ->
  let t' := fst (_handle_received_item_and_update_stats none_first t item
                   in_bytes_count) in
  snd (_handle_received_item_and_update_stats none_first t item in_bytes_count)
  = Ok tt
  /\ in_bytes (_statistics t') = in_bytes_count
  /\ in_frames (_statistics t')
     = in_frames (_statistics t) + posted_frames [(item, in_bytes_count)]
  /\ in_out_of_band_bytes (_statistics t')
     = in_out_of_band_bytes (_statistics t)
       + posted_out_of_band_bytes [(item, in_bytes_count)].
Proof.
  intros Hle. cbn zeta. unfold _handle_received_item_and_update_stats.
  destruct item as [frame | data].
  - change (posted_frames [(ItemFrame frame, in_bytes_count)]) with 1.
    unfold _handle_received_frame.
    destruct (accepts _ frame);
      match goal with
      | |- context [?a <=? in_bytes_count] =>
          destruct (Z.leb_spec a in_bytes_count) as [H | H]
      end; cbn in *.
    all: try lia.
    all: repeat split.
    all: try lia.
  - change (posted_frames [(ItemOutOfBand data, in_bytes_count)]) with 0.
    unfold _handle_received_out_of_band_data.
    match goal with
    | |- context [?a <=? in_bytes_count] =>
        destruct (Z.leb_spec a in_bytes_count) as [H | H]
    end; cbn in *.
    all: try lia.
    all: repeat split.
    all: try lia.
Qed.

Lemma last_cons_default {A : Type} (a d : A) (l : list A) :
  List.last (a :: l) d = List.last l a.
Proof.
  revert a d. induction l as [| b l IH]; intros a d; [reflexivity |].
  change (List.last (a :: b :: l) d) with (List.last (b :: l) d).
  rewrite (IH b d), (IH b a). reflexivity.
Qed.

Lemma posted_frames_cons (post : received_item * Z)
    (posts : list (received_item * Z)) :
  posted_frames (post :: posts) = posted_frames [post] + posted_frames posts.
Proof.
  unfold posted_frames. cbn [List.filter].
  destruct (match fst post with ItemFrame _ => true | _ => false end);
    cbn [length]; lia.
Qed.

Lemma posted_out_of_band_bytes_cons (post : received_item * Z)
    (posts : list (received_item * Z)) :
  posted_out_of_band_bytes (post :: posts)
  = posted_out_of_band_bytes [post] + posted_out_of_band_bytes posts.
Proof. destruct post as [[frame | data] c]; cbn; lia. Qed.

Lemma handle_posts_ok (none_first : received_item -> bool)
    (posts : list (received_item * Z)) (t : SerialTransport) (c0 : Z) :
  in_bytes (_statistics t) <= c0 ->
  counts_from c0 posts ->
  let t' := fst (handle_posts none_first t posts) in
  Forall (fun r => r = Ok tt) (snd (handle_posts none_first t posts))
  /\ length (snd (handle_posts none_first t posts)) = length posts
  /\ in_bytes (_statistics t')
     = List.last (map snd posts) (in_bytes (_statistics t))
  /\ in_frames (_statistics t')
     = in_frames (_statistics t) + posted_frames posts
  /\ in_out_of_band_bytes (_statistics t')
     = in_out_of_band_bytes (_statistics t) + posted_out_of_band_bytes posts.
Proof.
  cbn zeta. revert t c0.
  induction posts as [| [item c] rest IH]; intros t c0 Hle Hcounts.
  { cbn. change (posted_frames []) with 0. repeat split; try lia. constructor. }
  cbn [counts_from] in Hcounts. destruct Hcounts as [Hc Hrest].
  cbn [handle_posts].
  pose proof (handle_item_ok (none_first item) t item c ltac:(lia)) as H1.
  cbn zeta in H1.
  destruct (_handle_received_item_and_update_stats (none_first item) t item c)
    as [t1 r1]. cbn [fst snd] in H1. destruct H1 as (-> & Hb & Hf & Ho).
  specialize (IH t1 c ltac:(lia) Hrest).
  destruct (handle_posts none_first t1 rest) as [t2 rs]. cbn [fst snd] in *.
  destruct IH as (Hall & Hlen & Hb' & Hf' & Ho').
  split; [constructor; [reflexivity | exact Hall] |].
  split; [cbn [length]; lia |].
  split; [cbn [map snd]; rewrite last_cons_default, Hb', Hb; reflexivity |].
  rewrite posted_frames_cons, posted_out_of_band_bytes_cons. lia.
Qed.

Lemma counts_from_items (items : list received_item) (c0 c1 : Z)
    (posts : list (received_item * Z)) :
  c0 <= c1 -> counts_from c1 posts ->
  counts_from c0 (map (fun item => (item, c1)) items ++ posts).
Proof.
  revert c0. induction items as [| item items IH]; intros c0 Hle Hposts.
  - destruct posts as [| [item c] rest]; [exact I |].
    cbn [map app counts_from] in *. split; [lia | apply Hposts].
  - cbn [map app counts_from]. split; [exact Hle |].
    apply IH; [lia | exact Hposts].
Qed.

Lemma bytes_read_nonneg (chunks : list (list byte * Timestamp)) :
  0 <= bytes_read chunks.
Proof.
  unfold bytes_read. induction chunks as [| chunk rest IH]; cbn [fold_right]; lia.
Qed.

Section ReaderFacts.

Variable parser : Type.
Variable process_next_chunk :
  parser -> list byte -> Timestamp -> parser * list received_item.

Lemma reader_posts_counts (chunks : list (list byte * Timestamp)) (p : parser)
    (c0 : Z) :
  counts_from c0 (reader_posts parser process_next_chunk p c0 chunks)
  /\ Forall (fun post => c0 <= snd post <= c0 + bytes_read chunks)
       (reader_posts parser process_next_chunk p c0 chunks).
Proof.
  revert p c0. induction chunks as [| [chunk ts] rest IH]; intros p c0.
  { split; [exact I | constructor]. }
  cbn [reader_posts]. cbn zeta.
  destruct (process_next_chunk p chunk ts) as [p' items].
  destruct (IH p' (c0 + Z.of_nat (length chunk))) as [Hcounts Hall].
  pose proof (bytes_read_nonneg rest) as Hnn.
  split; [apply counts_from_items; [lia | exact Hcounts] |].
  unfold bytes_read. cbn [fold_right fst]. fold (bytes_read rest).
  apply Forall_app. split.
  - apply List.Forall_forall. intros post Hin.
    apply in_map_iff in Hin as (item & <- & _). cbn [snd]. lia.
  - eapply Forall_impl; [exact Hall |]. cbn beta. intros post. lia.
Qed.

(** X17. The byte counts that the reader thread posts with the items of the
    parser never trip the assertion of
    [_handle_received_item_and_update_stats]: on an engine whose [in_bytes]
    is still 0, whatever the parser makes of the chunks read, the calls
    posted, run in the order they were posted, all return; afterwards
    [in_bytes] is the count posted with the last item -- the bytes read up
    to the chunk that completed it, no more than all the bytes read --
    [in_frames] has grown by the number of frames posted and
    [in_out_of_band_bytes] by the length of the out-of-band data posted. *)
Theorem reader_counts_in_order (none_first : received_item -> bool)
    (t : SerialTransport) (p : parser) (chunks : list (list byte * Timestamp)) :
  in_bytes (_statistics t) = 0 ->
  let posts := reader_posts parser process_next_chunk p 0 chunks in
  let t' := fst (handle_posts none_first t posts) in
  Forall (fun r => r = Ok tt) (snd (handle_posts none_first t posts))
  /\ in_bytes (_statistics t') = List.last (map snd posts) 0
  /\ 0 <= in_bytes (_statistics t') <= bytes_read chunks
  /\ in_frames (_statistics t')
     = in_frames (_statistics t) + posted_frames posts
  /\ in_out_of_band_bytes (_statistics t')
     = in_out_of_band_bytes (_statistics t) + posted_out_of_band_bytes posts.
Proof.
  intros Hzero. cbn zeta.
  destruct (reader_posts_counts chunks p 0) as [Hcounts Hall].
  pose proof (handle_posts_ok none_first _ t 0 ltac:(lia) Hcounts) as H.
  cbn zeta in H. destruct H as (Hok & _ & Hb & Hf & Ho).
  rewrite Hzero in Hb.
  split; [exact Hok |]. split; [exact Hb |]. split; [| split; assumption].
  rewrite Hb.
  pose proof (bytes_read_nonneg chunks) as Hnn.
  assert (forall l : list (received_item * Z),
            Forall (fun post => 0 <= snd post <= 0 + bytes_read chunks) l ->
            forall d, 0 <= d <= bytes_read chunks ->
                      0 <= List.last (map snd l) d <= bytes_read chunks) as Hlast.
  { induction l as [| post l IHl]; intros Hl d Hd; [exact Hd |].
    apply Forall_cons in Hl as [H1 H2]. cbn [map].
    rewrite last_cons_default. apply IHl; [exact H2 | lia]. }
  apply Hlast; [exact Hall | lia].
Qed.

End ReaderFacts.

Lemma reader_counts_in_order_witness :
  let process_next_chunk (p : unit) (chunk : list byte) (ts : Timestamp) :=
    (p, [ItemOutOfBand chunk; ItemFrame sample_frame]) in
  let chunks := [([x00; x01], mkTimestamp 1 2); ([x02], mkTimestamp 3 4)] in
  let posts := reader_posts unit process_next_chunk tt 0 chunks in
  let t' := fst (handle_posts (fun _ => true) open_engine posts) in
  Forall (fun r => r = Ok tt)
    (snd (handle_posts (fun _ => true) open_engine posts))
  /\ in_bytes (_statistics t') = List.last (map snd posts) 0
  /\ 0 <= in_bytes (_statistics t') <= bytes_read chunks
  /\ in_frames (_statistics t')
     = in_frames (_statistics open_engine) + posted_frames posts
  /\ in_out_of_band_bytes (_statistics t')
     = in_out_of_band_bytes (_statistics open_engine)
       + posted_out_of_band_bytes posts.
Proof.
  exact (reader_counts_in_order unit
           (fun p chunk ts => (p, [ItemOutOfBand chunk; ItemFrame sample_frame]))
           (fun _ => true) open_engine tt
           [([x00; x01], mkTimestamp 1 2); ([x02], mkTimestamp 3 4)]
           eq_refl).
Defined.

(** ** A timestamp is returned for whole transfers only *)

Section WholeTransfers.

Variable SUBJECT_ID_MASK : Z.

Hypothesis subject_id_15_bits : SUBJECT_ID_MASK < 2 ^ 15.

Lemma send_frame_continues (t t' : SerialTransport)
    (tx_ts tx_ts' : option Timestamp) (fr : SerialFrame) (io : FrameIO) :
  valid_frame SUBJECT_ID_MASK fr ->
  buffer_invariant t ->
  send_frame t tx_ts fr io = (t', Ok (Continue, tx_ts')) ->
  write_completes (fr, io)
  /\ tx_ts' = match tx_ts with
              | Some ts => Some ts
              | None => first_write_instant [(fr, io)]
              end
  /\ buffer_invariant t'
  /\ out_frames (_statistics t') = out_frames (_statistics t) + 1.
Proof.
  intros Hvalid Hinv.
  destruct (compile_in_send SUBJECT_ID_MASK subject_id_15_bits t fr Hvalid Hinv)
    as (buffer' & compiled & Hcompile & Hlen & Hbuf).
  unfold send_frame, write_completes, first_write_instant. cbn [snd fst].
  cbn [_serialization_buffer set_serialization_buffer].
  rewrite Hcompile. unfold account_frame. rewrite Hlen.
  destruct (budget_left io); [| discriminate].
  destruct (write_outcome io) as [num_written now | |].
  - destruct (Z.ltb_spec (match num_written with
                          | Some n => n
                          | None => compiled_length fr
                          end) (compiled_length fr)) as [Hlt | Hge];
      [discriminate |].
    intros [= <- <-]. split; [| split; [| split]].
    + split; [reflexivity |]. exists num_written, now.
      split; [reflexivity |]. intros n ->. exact Hge.
    + unfold or_now. destruct tx_ts; reflexivity.
    + destruct (closed_meanwhile io); unfold buffer_invariant; cbn; exact Hbuf.
    + destruct (closed_meanwhile io); cbn; lia.
  - cbn [or_zero].
    destruct (Z.ltb_spec 0 (compiled_length fr)) as [Hlt | Hge];
      [discriminate |].
    unfold compiled_length, compiled_size in Hge. lia.
  - destruct (closed_meanwhile io); discriminate.
Qed.

Lemma send_loop_timestamp (frames : list (SerialFrame * FrameIO))
    (t t' : SerialTransport) (tx_ts : option Timestamp) (ts : Timestamp) :
  Forall (fun x => valid_frame SUBJECT_ID_MASK (fst x)) frames ->
  buffer_invariant t ->
  send_loop t tx_ts frames = (t', Ok (Some ts)) ->
  Forall write_completes frames
  /\ Some ts = match tx_ts with
               | Some ts0 => Some ts0
               | None => first_write_instant frames
               end
  /\ out_frames (_statistics t')
     = out_frames (_statistics t) + Z.of_nat (length frames).
Proof.
  revert t tx_ts. induction frames as [| [fr io] rest IH];
    intros t tx_ts Hvalid Hinv Hloop.
  { cbn in Hloop. injection Hloop as <- ->. cbn.
    split; [apply List.Forall_nil | split; [reflexivity | lia]]. }
  apply Forall_cons in Hvalid as [Hfr Hrest]. cbn [fst] in Hfr.
  cbn [send_loop] in Hloop.
  destruct (send_frame t tx_ts fr io) as [t1 [[[] tx1] | e1]] eqn:Hframe;
    [| | discriminate].
  2: { unfold send_frame in Hframe.
       destruct (compile_into fr _) as [[b c] |]; [| discriminate].
       destruct (budget_left io); [| congruence].
       unfold account_frame in Hframe.
       destruct (write_outcome io) as [n now | |];
         repeat match type of Hframe with
                | context [if ?c then _ else _] => destruct c
                end; congruence. }
  destruct (send_frame_continues _ _ _ _ _ _ Hfr Hinv Hframe)
    as (Hcomplete & -> & Hinv1 & Hout).
  destruct (IH _ _ Hrest Hinv1 Hloop) as (Hall & Hts & Hframes).
  split; [constructor; assumption |].
  split.
  - rewrite Hts. destruct tx_ts as [ts0 |]; [reflexivity |].
    destruct Hcomplete as (_ & n & now & Hw & _). cbn [snd] in Hw.
    cbn [first_write_instant]. rewrite Hw. reflexivity.
  - cbn [length]. lia.
Qed.

(** X18. [_send_transfer] returns a timestamp for whole transfers only:
    when it does, the transfer had at least one frame, for every frame
    there was time left and the write returned and reported no fewer bytes
    than the compiled frame has, the timestamp is the instant read after
    the first write, and [out_frames] has grown by the number of frames.
    The frames are valid ones, subject ids fitting 15 bits, and the buffer
    is no shorter than the constructor made it. *)
Theorem timestamp_only_when_all_sent (t : SerialTransport)
    (frames : list (SerialFrame * FrameIO)) (ts : Timestamp) :
  buffer_invariant t ->
  Forall (fun x => valid_frame SUBJECT_ID_MASK (fst x)) frames ->
  snd (_send_transfer t frames) = Ok (Some ts) ->
  frames <> []
  /\ Forall write_completes frames
  /\ first_write_instant frames = Some ts
  /\ out_frames (_statistics (fst (_send_transfer t frames)))
     = out_frames (_statistics t) + Z.of_nat (length frames)
  /\ _closed t = false.
Proof.
  intros Hinv Hvalid. unfold _send_transfer, _ensure_not_closed.
  destruct (_closed t); cbn [raise_if]; [discriminate |].
  destruct (send_loop t None frames) as [t1 [[ts1 |] | e1]] eqn:Hloop;
    cbn [fst snd]; [| discriminate | destruct (_closed t1); discriminate].
  intros [= ->].
  destruct (send_loop_timestamp frames t t1 None ts Hvalid Hinv Hloop)
    as (Hall & Hts & Hframes).
  split; [intros ->; discriminate |].
  split; [exact Hall |]. split; [symmetry; exact Hts |].
  split; [cbn; exact Hframes | reflexivity].
Qed.

End WholeTransfers.

Lemma timestamp_only_when_all_sent_witness :
  [(sample_frame, full_write)] <> []
  /\ Forall write_completes [(sample_frame, full_write)]
  /\ first_write_instant [(sample_frame, full_write)]
     = Some (mkTimestamp 11 13)
  /\ out_frames (_statistics
                   (fst (_send_transfer open_engine
                           [(sample_frame, full_write)])))
     = out_frames (_statistics open_engine)
       + Z.of_nat (length [(sample_frame, full_write)])
  /\ _closed open_engine = false.
Proof.
  apply (timestamp_only_when_all_sent sample_mask sample_mask_15_bits
           open_engine [(sample_frame, full_write)] (mkTimestamp 11 13)
           open_engine_buffer).
  - repeat constructor.
  - vm_compute. reflexivity.
Defined.

(** ** After [close] *)

Lemma run_closed_empty (t : SerialTransport) (op : operation) :
  _closed t = true ->
  _input_registry t = ∅ -> _output_registry t = ∅ ->
  _input_registry (fst (run t op)) = ∅ /\ _output_registry (fst (run t op)) = ∅.
Proof.
  intros Hclosed Hin Hout. destruct op; cbn [run fst]; try (split; assumption).
  - rewrite close_result. split; reflexivity.
  - unfold get_input_session.
    rewrite ensure_not_closed_closed by exact Hclosed. split; assumption.
  - unfold get_output_session.
    rewrite ensure_not_closed_closed by exact Hclosed. split; assumption.
  - unfold _send_transfer.
    rewrite ensure_not_closed_closed by exact Hclosed. split; assumption.
  - unfold input_finalizer. rewrite Hin, lookup_empty. split; assumption.
  - unfold output_finalizer. rewrite Hout, lookup_empty. split; assumption.
  - destruct (received_item_registries none_first t item in_bytes_count)
      as (Ho & _ & Hi).
    split; [| rewrite Ho; exact Hout].
    apply map_eq. intros k. rewrite lookup_empty.
    destruct (_input_registry _ !! k) as [s' |] eqn:Hs'; [| reflexivity].
    destruct (Hi _ _ Hs') as (s & Hs & _).
    rewrite Hin, lookup_empty in Hs. discriminate.
Qed.

(** X19. [close] leaves an engine that holds no session and never will:
    every session it closes runs the finaliser the engine gave it, so both
    registries are empty when [close] returns, the port is closed and the
    counters are as they were; and whatever is done with the engine
    afterwards, the registries stay empty. *)
Theorem close_releases_sessions (t : SerialTransport) :
  exists t1,
    close t = Ok t1
    /\ _input_registry t1 = ∅
    /\ _output_registry t1 = ∅
    /\ port_is_open t1 = false
    /\ _statistics t1 = _statistics t
    /\ forall ops,
         _input_registry (run_all t1 ops) = ∅
         /\ _output_registry (run_all t1 ops) = ∅.
Proof.
  eexists. split; [apply close_result |].
  repeat split; try reflexivity.
  - revert ops.
    assert (forall ops t1,
              _closed t1 = true -> _input_registry t1 = ∅ ->
              _output_registry t1 = ∅ ->
              _input_registry (run_all t1 ops) = ∅) as H.
    { unfold run_all. induction ops as [| op ops IH]; intros t1 Hc Hi Ho;
        [exact Hi |].
      cbn [fold_left].
      destruct (run_closed_empty t1 op Hc Hi Ho) as [Hi' Ho'].
      apply IH; [apply run_closed, Hc | exact Hi' | exact Ho']. }
    intros ops. apply H; reflexivity.
  - revert ops.
    assert (forall ops t1,
              _closed t1 = true -> _input_registry t1 = ∅ ->
              _output_registry t1 = ∅ ->
              _output_registry (run_all t1 ops) = ∅) as H.
    { unfold run_all. induction ops as [| op ops IH]; intros t1 Hc Hi Ho;
        [exact Ho |].
      cbn [fold_left].
      destruct (run_closed_empty t1 op Hc Hi Ho) as [Hi' Ho'].
      apply IH; [apply run_closed, Hc | exact Hi' | exact Ho']. }
    intros ops. apply H; reflexivity.
Qed.

(** ** The configuration *)

Lemma run_configuration (t : SerialTransport) (op : operation) :
  _local_node_id (fst (run t op)) = _local_node_id t
  /\ _mtu (fst (run t op)) = _mtu t
  /\ _service_transfer_multiplier (fst (run t op))
     = _service_transfer_multiplier t.
Proof.
  destruct op; cbn [run fst]; try (repeat split; fail).
  - rewrite close_result. repeat split.
  - unfold get_input_session. destruct (_ensure_not_closed t);
      [| repeat split].
    rewrite bind_Ok. destruct (_input_registry t !! specifier); repeat split.
  - unfold get_output_session. destruct (_ensure_not_closed t);
      [| repeat split].
    rewrite bind_Ok. destruct (_output_registry t !! specifier); repeat split.
  - pose proof (send_transfer_effect t frames) as H. cbn zeta in H.
    destruct (_send_transfer t frames) as [t' r]. cbn [fst] in *.
    destruct H as ((Hm & Hmtu & Hnode & _) & _). auto.
  - unfold input_finalizer. destruct (_input_registry t !! specifier);
      repeat split.
  - unfold output_finalizer. destruct (_output_registry t !! specifier);
      repeat split.
  - unfold _handle_received_item_and_update_stats.
    destruct item as [frame | data].
    + unfold _handle_received_frame.
      destruct (accepts _ frame); destruct (_ <=? in_bytes_count);
        repeat split.
    + destruct (_ <=? in_bytes_count); repeat split.
Qed.

(** X20. The configuration of an engine is fixed at its construction:
    whatever operations and events follow, the local node id, the MTU and
    the service transfer multiplier are what they were, and so are the
    protocol parameters the engine reports. *)
Theorem configuration_is_fixed (t : SerialTransport) (ops : list operation) :
  _local_node_id (run_all t ops) = _local_node_id t
  /\ _mtu (run_all t ops) = _mtu t
  /\ _service_transfer_multiplier (run_all t ops)
     = _service_transfer_multiplier t
  /\ protocol_parameters (run_all t ops) = protocol_parameters t.
Proof.
  assert (_local_node_id (run_all t ops) = _local_node_id t
          /\ _mtu (run_all t ops) = _mtu t
          /\ _service_transfer_multiplier (run_all t ops)
             = _service_transfer_multiplier t) as (Hn & Hmtu & Hm).
  { unfold run_all. revert t. induction ops as [| op ops IH]; intros t;
      [repeat split |].
    cbn [fold_left]. destruct (IH (fst (run t op))) as (H1 & H2 & H3).
    destruct (run_configuration t op) as (H1' & H2' & H3').
    repeat split; congruence. }
  repeat split; try assumption.
  unfold protocol_parameters. rewrite Hmtu. reflexivity.
Qed.

(* ===================================================================== *)
(** * The helpers of the manual DSDL tests *)
(* ===================================================================== *)

Lemma int_base2_app (l : bits) (b : bool) :
  int_base2 (l ++ [b]) = (2 * int_base2 l + if b then 1 else 0)%N.
Proof. unfold int_base2. rewrite fold_left_app. reflexivity. Qed.

Lemma int_base2_pos_bits (p : positive) : int_base2 (rev (pos_bits p)) = Npos p.
Proof.
  induction p as [q IH | q IH |]; cbn [pos_bits rev];
    rewrite ?int_base2_app, ?IH; reflexivity.
Qed.

Lemma int_base2_leading_zeros (n : nat) (s : bits) :
  int_base2 (repeat false n ++ s) = int_base2 s.
Proof.
  unfold int_base2. rewrite fold_left_app. f_equal.
  induction n as [| n IH]; [reflexivity | exact IH].
Qed.

Lemma pos_bits_bounds (p : positive) :
  (2 ^ N.of_nat (length (pos_bits p) - 1) <= Npos p
   < 2 ^ N.of_nat (length (pos_bits p)))%N.
Proof.
  induction p as [q IH | q IH |]; cbn [pos_bits length]; [| | cbn; lia].
  - assert (0 < length (pos_bits q))%nat as Hpos by (destruct q; cbn; lia).
    replace (S (length (pos_bits q)) - 1)%nat
      with (S (length (pos_bits q) - 1)) by lia.
    rewrite !Nat2N.inj_succ, !N.pow_succ_r'. lia.
  - assert (0 < length (pos_bits q))%nat as Hpos by (destruct q; cbn; lia).
    replace (S (length (pos_bits q)) - 1)%nat
      with (S (length (pos_bits q) - 1)) by lia.
    rewrite !Nat2N.inj_succ, !N.pow_succ_r'. lia.
Qed.

(** X21. [_bin(value, width)], for a value that is not negative, returns
    exactly when the width is at least one and the value is below 2^width:
    then what it returns has [width] binary digits, and read back in base 2
    it is the value. Otherwise it raises [ValueError] -- also for the value
    0 and the width 0, because [bin(0)] has one digit. *)
Theorem bin_round_trip (value : N) (width : nat) :
  match _bin value width with
  | Ok out =>
      length out = width /\ int_base2 out = value
      /\ (0 < width)%nat /\ (value < 2 ^ N.of_nat width)%N
  | Raise e =>
      e = ValueError /\ (width = 0%nat \/ (2 ^ N.of_nat width <= value)%N)
  end.
Proof.
  unfold _bin, zfill. rewrite length_app, repeat_length.
  destruct (Nat.eqb_spec (width - length (bin_digits value)
                          + length (bin_digits value)) width) as [Heq | Hne];
    cbn [negb].
  - split; [rewrite length_app, repeat_length; exact Heq |].
    rewrite int_base2_leading_zeros.
    destruct value as [| p]; cbn [bin_digits length] in *.
    + repeat split; try lia;
        try (apply N.neq_0_lt_0, N.pow_nonzero; discriminate).
    + rewrite length_rev in Heq. rewrite int_base2_pos_bits.
      pose proof (pos_bits_bounds p) as [_ Hlt].
      assert (0 < length (pos_bits p))%nat as Hpos by (destruct p; cbn; lia).
      repeat split; try lia.
      eapply N.lt_le_trans; [exact Hlt |].
      apply N.pow_le_mono_r; lia.
  - split; [reflexivity |].
    destruct value as [| p]; cbn [bin_digits length] in *; [left; lia |].
    rewrite length_rev in Hne. right.
    pose proof (pos_bits_bounds p) as [Hle _].
    eapply N.le_trans; [| exact Hle].
    apply N.pow_le_mono_r; lia.
Qed.

Lemma chunks_concat (m : nat) (j : nat) (pre s : bits) :
  length pre = (8 * j)%nat -> length s = (8 * m)%nat ->
  concat (map (fun k => take 8 (drop (8 * k) (pre ++ s))) (seq j m)) = s
  /\ Forall (fun c : bits => length c = 8%nat)
       (map (fun k => take 8 (drop (8 * k) (pre ++ s))) (seq j m)).
Proof.
  revert j pre s. induction m as [| m IH]; intros j pre s Hpre Hs.
  { destruct s; [split; [reflexivity | constructor] | discriminate]. }
  cbn [seq map concat].
  rewrite drop_app_length' by (symmetry; exact Hpre).
  specialize (IH (S j) (pre ++ take 8 s) (drop 8 s)).
  rewrite <- app_assoc, take_drop in IH.
  destruct IH as [Hcat Hall].
  - rewrite length_app, length_take. lia.
  - rewrite length_drop. lia.
  - split.
    + rewrite Hcat. apply take_drop.
    + constructor; [rewrite length_take; lia | exact Hall].
Qed.

Lemma byte_bits_int_base2 (c : bits) :
  length c = 8%nat -> byte_bits (byte_of_Z (Z.of_N (int_base2 c))) = c.
Proof.
  intros H.
  destruct c as [| b0 [| b1 [| b2 [| b3 [| b4 [| b5 [| b6 [| b7 [| b8 c]]]]]]]]];
    try discriminate.
  destruct b0, b1, b2, b3, b4, b5, b6, b7; vm_compute; reflexivity.
Qed.

(** X22. [_compile_serialized_representation] always returns, its
    assertion never failing, one fragment of [n / 8 + 1] bytes for chunks of
    [n] binary digits in all: the digits of the chunks in order, eight to a
    byte and the first digit in the most significant bit, followed by
    [8 - n mod 8] zero digits. So digits that fill whole bytes are followed
    by one more byte of zeros, and no chunk at all gives one zero byte. *)
Theorem compiled_representation (binary_chunks : list bits) :
  let s := concat binary_chunks in
  exists out,
    _compile_serialized_representation binary_chunks = Ok [out]
    /\ length out = (length s / 8 + 1)%nat
    /\ flat_map byte_bits out = s ++ repeat false (8 - length s mod 8).
Proof.
  cbn zeta. unfold _compile_serialized_representation, ljust.
  set (s := concat binary_chunks).
  pose proof (Nat.div_mod_eq (length s) 8) as Hdm.
  pose proof (Nat.mod_upper_bound (length s) 8 ltac:(lia)) as Hm.
  replace (length s + 8 - length s mod 8 - length s)%nat
    with (8 - length s mod 8)%nat by lia.
  set (padded := s ++ repeat false (8 - length s mod 8)).
  assert (length padded = 8 * (length s / 8 + 1))%nat as Hlen.
  { unfold padded. rewrite length_app, repeat_length. lia. }
  rewrite Hlen.
  replace ((8 * (length s / 8 + 1)) mod 8)%nat with 0%nat
    by (rewrite Nat.mul_comm, Nat.Div0.mod_mul; reflexivity).
  cbn [Nat.eqb negb raise_if]. rewrite bind_Ok.
  eexists. split; [reflexivity |].
  unfold byte_sized_chunks. rewrite Hlen.
  replace ((8 * (length s / 8 + 1) + 7) / 8)%nat with (length s / 8 + 1)%nat.
  2: { apply (Nat.div_unique _ 8 _ 7); lia. }
  destruct (chunks_concat (length s / 8 + 1) 0 [] padded eq_refl Hlen)
    as [Hcat Hall].
  cbn [app] in Hcat, Hall.
  split; [rewrite !length_map, length_seq; reflexivity |].
  etransitivity; [| exact Hcat].
  revert Hall. generalize (map (fun k => take 8 (drop (8 * k) padded))
                             (seq 0 (length s / 8 + 1))).
  intros l Hall. induction Hall as [| c l Hc _ IH]; [reflexivity |].
  cbn [map flat_map concat]. rewrite IH, byte_bits_int_base2 by exact Hc.
  reflexivity.
Qed.
